(** * optimaladj: adjustment sets in causal graphs

    A shallow embedding of [CausalGraph.py].  The class extends networkx's
    [DiGraph]; its methods read the receiver, build derived graphs (copies and
    read-only subgraph views) and mutate those.  Graph objects therefore live
    in a store and are passed by reference; every method is a computation in
    a state-and-exception monad over that store.  The networkx functions the
    class calls are modelled on graph values from their documented behaviour. *)

From stdpp Require Import gmap strings list sets relations.


(** ** Python values *)

(** Nodes are Python strings (the docstrings type every node as a string, and
    [set.union(node)] / [node_boundary(H1, outcome)] iterate over them). *)
Abbreviation Node := string.

(** Iterating over a [str] yields its one-character substrings. *)
Fixpoint chars (s : string) : list Node :=
  match s with
  | EmptyString => []
  | String c r => String c EmptyString :: chars r
  end.

(** Exceptions.  [KeyError] and [IndexError] are Python's; the [NetworkX*]
    ones and [NodeNotFound] are networkx's; [ConditionException] and
    [NoAdjException] are the two the tests import from the module.
    [InvalidReference] is not a Python exception: it stands for a location
    outside the store, which no Python program can hold. *)
Inductive exn :=
  | KeyError | IndexError
  | NetworkXError | NodeNotFound | NetworkXNoPath
  | ConditionException | NoAdjException
  | InvalidReference.

Inductive result (A : Type) :=
  | Ret (a : A)
  | Raise (e : exn).
Arguments Ret {A} a.
Arguments Raise {A} e.

Global Instance exn_eq_dec : EqDecision exn.
Proof. solve_decision. Defined.

(** ** Graph values

    A graph value is a node set and a set of ordered pairs.  An undirected
    [nx.Graph] keeps both orientations of each edge, as networkx's adjacency
    dictionaries do. *)
Record graph := Graph { nodes : gset Node; edges : gset (Node * Node) }.

Global Instance graph_eq_dec : EqDecision graph.
Proof. solve_decision. Defined.

(** networkx keeps every endpoint of an edge among the nodes. *)
Definition wf (g : graph) : Prop :=
  ∀ u v, (u, v) ∈ edges g → u ∈ nodes g ∧ v ∈ nodes g.

Definition undirected (g : graph) : Prop :=
  ∀ u v, (u, v) ∈ edges g → (v, u) ∈ edges g.

Module Gr.

(** [G[u]]: successors in a digraph, neighbours in an undirected graph. *)
Definition succs (g : graph) (u : Node) : gset Node :=
  set_map snd (filter (λ e : Node * Node, e.1 = u) (edges g)).

Definition preds (g : graph) (u : Node) : gset Node :=
  set_map fst (filter (λ e : Node * Node, e.2 = u) (edges g)).

(** Breadth-first search: one round adds the [next] of every node found so
    far; as many rounds as the graph has nodes reach a fixed point. *)
Definition expand (next : Node → gset Node) (X : gset Node) : gset Node :=
  X ∪ set_bind next X.

Fixpoint grow (next : Node → gset Node) (n : nat) (X : gset Node) : gset Node :=
  match n with
  | 0 => X
  | S n => grow next n (expand next X)
  end.

Definition bfs (g : graph) (next : Node → gset Node) (s : Node) : gset Node :=
  grow next (size (nodes g)) {[s]}.

(** [nx.ancestors(G, n)], [nx.descendants(G, n)]: the nodes with a path to
    (from) [n], without [n] itself; [NetworkXError] if [n] is not in [G]. *)
Definition ancestors (g : graph) (n : Node) : result (gset Node) :=
  if decide (n ∈ nodes g) then Ret (bfs g (preds g) n ∖ {[n]})
  else Raise NetworkXError.

Definition descendants (g : graph) (n : Node) : result (gset Node) :=
  if decide (n ∈ nodes g) then Ret (bfs g (succs g) n ∖ {[n]})
  else Raise NetworkXError.

(** [nx.node_connected_component(G, n)]: [KeyError] if [n] is not in [G]. *)
Definition node_connected_component (g : graph) (n : Node) : result (gset Node) :=
  if decide (n ∈ nodes g) then Ret (bfs g (succs g) n)
  else Raise KeyError.

(** [G.subgraph(keep)] as a value: the induced subgraph. *)
Definition induced (keep : gset Node) (g : graph) : graph :=
  Graph (nodes g ∩ keep)
        (filter (λ e : Node * Node, e.1 ∈ keep ∧ e.2 ∈ keep) (edges g)).

(** Depth-first enumeration of the simple paths that leave [cur] and end in
    [targets]; [visited] is the path so far, last node first, and [fuel]
    the number of edges that may still be added (networkx's [cutoff]). *)
Fixpoint simple_paths_from (g : graph) (targets : gset Node) (fuel : nat)
    (visited : list Node) (cur : Node) : list (list Node) :=
  match fuel with
  | 0 => []
  | S fuel =>
      flat_map (λ child,
        if decide (child ∈ visited) then []
        else (if decide (child ∈ targets) then [reverse (child :: visited)] else [])
               ++ simple_paths_from g targets fuel (child :: visited) child)
        (elements (succs g cur))
  end.

(** [nx.all_simple_paths(G, source, target)].  [NodeNotFound] if [source]
    is not in [G]; a [target] that is not a node of [G] is taken as an
    iterable of target nodes, for a string its characters; no path is
    produced when [source] is among the targets; [cutoff] defaults to
    [len(G) - 1]. *)
Definition all_simple_paths (g : graph) (source target : Node)
    : result (list (list Node)) :=
  if decide (source ∈ nodes g) then
    let targets : gset Node :=
      if decide (target ∈ nodes g) then {[target]} else list_to_set (chars target) in
    if decide (source ∈ targets) then Ret []
    else Ret (simple_paths_from g targets (size (nodes g) - 1) [source] source)
  else Raise NodeNotFound.

(** The edges of a node path: [zip(path[:-1], path[1:])]. *)
Fixpoint path_edges (p : list Node) : list (Node * Node) :=
  match p with
  | u :: (v :: _) as rest => (u, v) :: path_edges rest
  | _ => []
  end.

(** [nx.all_simple_edge_paths(G, source, target)]. *)
Definition all_simple_edge_paths (g : graph) (source target : Node)
    : result (list (list (Node * Node))) :=
  match all_simple_paths g source target with
  | Ret ps => Ret (path_edges <$> ps)
  | Raise e => Raise e
  end.

(** [nx.node_boundary(G, nbunch1)]:
    [nset1 = {n for n in nbunch1 if n in G}], then the neighbours of
    [nset1] outside [nset1]. *)
Definition node_boundary (g : graph) (nbunch1 : gset Node) : gset Node :=
  let nset1 := nbunch1 ∩ nodes g in
  set_bind (succs g) nset1 ∖ nset1.

(** [DiGraph.remove_edge(u, v)]: [NetworkXError] if there is no such edge. *)
Definition remove_edge (u v : Node) (g : graph) : result graph :=
  if decide ((u, v) ∈ edges g) then Ret (Graph (nodes g) (edges g ∖ {[(u, v)]}))
  else Raise NetworkXError.

(** [Graph.add_edge(u, v)] on an undirected graph: both nodes are added if
    absent, and the edge is recorded in both adjacency dictionaries. *)
Definition add_edge (u v : Node) (g : graph) : graph :=
  Graph (nodes g ∪ {[u; v]}) (edges g ∪ {[(u, v); (v, u)]}).

(** [G.to_undirected()]. *)
Definition to_undirected (g : graph) : graph :=
  Graph (nodes g) (edges g ∪ set_map (λ e : Node * Node, (e.2, e.1)) (edges g)).

(** The pairs that [nx.moral_graph] marries: two distinct predecessors of
    a common node. *)
Definition co_parents (g : graph) : gset (Node * Node) :=
  set_bind (λ v : Node,
    set_bind (λ p : Node,
      set_bind (λ q : Node,
        if decide (p = q) then (∅ : gset (Node * Node)) else {[(p, q)]})
      (preds g v))
    (preds g v))
  (nodes g).

(** [nx.moral_graph(G)]: [G.to_undirected()] plus an edge between every
    two predecessors of each node. *)
Definition moral_graph (g : graph) : graph :=
  let H := to_undirected g in
  Graph (nodes H ∪ set_map fst (co_parents g)) (edges H ∪ co_parents g).

(** Removing the nodes of [C] leaves [t] outside [s]'s component. *)
Definition separates (g : graph) (s t : Node) (C : gset Node) : bool :=
  let g' := induced (nodes g ∖ C) g in
  bool_decide (t ∉ bfs g' (succs g') s).

Fixpoint sublists {A} (l : list A) : list (list A) :=
  match l with
  | [] => [[]]
  | x :: l => sublists l ++ ((x ::.) <$> sublists l)
  end.

Definition smaller (X Y : gset Node) : gset Node :=
  if decide (size Y < size X) then Y else X.

(** The node cuts between non-adjacent [s] and [t]: the sets of other
    nodes whose removal disconnects them. *)
Definition node_cuts (g : graph) (s t : Node) : list (gset Node) :=
  filter (λ C, separates g s t C = true)
         (list_to_set <$> sublists (elements (nodes g ∖ {[s; t]}))).

(** [nx.minimum_node_cut(G, s, t)]: a node cut of minimum cardinality;
    [NetworkXError] if [s] or [t] is not in [G]; the empty cut when [s]
    and [t] are adjacent (no set of other nodes separates them).  Which of
    the minimum cuts networkx returns is left open by its documentation;
    the callers here only take its [len]. *)
Definition minimum_node_cut (g : graph) (s t : Node) : result (gset Node) :=
  if decide (s ∈ nodes g ∧ t ∈ nodes g) then
    match node_cuts g s t with
    | [] => Ret ∅
    | C :: cuts => Ret (foldr smaller C cuts)
    end
  else Raise NetworkXError.

End Gr.

(** ** The store

    A graph object is either a graph of its own or a read-only view
    ([G.subgraph(nodes)]) that shows the induced subgraph of its base object
    and follows the base's later changes. *)
Abbreviation loc := nat.

Inductive obj :=
  | OGraph (g : graph)
  | OView (base : loc) (keep : gset Node).

Abbreviation heap := (list obj).

Fixpoint deref_aux (fuel : nat) (h : heap) (l : loc) : option graph :=
  match fuel with
  | 0 => None
  | S fuel =>
      match h !! l with
      | Some (OGraph g) => Some g
      | Some (OView base keep) => Gr.induced keep <$> deref_aux fuel h base
      | None => None
      end
  end.

(** The graph an object shows. *)
Definition deref (h : heap) (l : loc) : option graph := deref_aux (length h) h l.

(** ** The monad: store passing with exceptions *)
Definition M (A : Type) : Type := heap → result A * heap.

Global Instance M_ret : MRet M := λ A a h, (Ret a, h).

Global Instance M_bind : MBind M := λ A B k m h,
  match m h with
  | (Ret a, h') => k a h'
  | (Raise e, h') => (Raise e, h')
  end.

Definition raise {A} (e : exn) : M A := λ h, (Raise e, h).

Definition lift {A} (r : result A) : M A := λ h, (r, h).

Definition read (l : loc) : M graph := λ h,
  match deref h l with
  | Some g => (Ret g, h)
  | None => (Raise InvalidReference, h)
  end.

Definition alloc (o : obj) : M loc := λ h, (Ret (length h), h ++ [o]).

(** In-place change of a graph object; a view is frozen. *)
Definition update (l : loc) (f : graph → result graph) : M unit := λ h,
  match h !! l with
  | Some (OGraph g) =>
      match f g with
      | Ret g' => (Ret (), <[l := OGraph g']> h)
      | Raise e => (Raise e, h)
      end
  | Some (OView _ _) => (Raise NetworkXError, h)
  | None => (Raise InvalidReference, h)
  end.

(** [for x in xs: body], with the loop's local variables as [s]; the body
    says whether the loop goes on or [break]s. *)
Inductive flow (S : Type) :=
  | Continue (s : S)
  | Break (s : S).
Arguments Continue {S} s.
Arguments Break {S} s.

Fixpoint for_loop {A S} (xs : list A) (s : S) (body : S → A → M (flow S)) : M S :=
  match xs with
  | [] => mret s
  | x :: xs =>
      r ← body s x;
      match r with
      | Continue s' => for_loop xs s' body
      | Break s' => mret s'
      end
  end.

(** [X.remove(x)] on a Python set, giving the changed set. *)
Definition set_remove (X : gset Node) (x : Node) : M (gset Node) :=
  if decide (x ∈ X) then mret (X ∖ {[x]}) else raise KeyError.

(** [path[0]]. *)
Definition index0 {A} (l : list A) : M A :=
  match l with
  | x :: _ => mret x
  | [] => raise IndexError
  end.

(** [enumerate(xs)]. *)
Definition enumerate {A} (xs : list A) : list (nat * A) := imap (λ i x, (i, x)) xs.

(** ** Methods of graph objects, and networkx functions on graph objects *)

(** [G.nodes()]. *)
Definition nodes_of (G : loc) : M (gset Node) := g ← read G; mret (nodes g).

(** [G.copy()], also [nx.Graph(G)]: a new graph object with [G]'s nodes and edges. *)
Definition copy (G : loc) : M loc := g ← read G; alloc (OGraph g).

(** [G.subgraph(keep)]: a new view object on [G]. *)
Definition subgraph (G : loc) (keep : gset Node) : M loc :=
  _ ← read G; alloc (OView G keep).

Definition remove_edge (G : loc) (u v : Node) : M unit := update G (Gr.remove_edge u v).

Definition add_edge (G : loc) (u v : Node) : M unit :=
  update G (λ g, Ret (Gr.add_edge u v g)).

Module nx.

Definition ancestors (G : loc) (n : Node) : M (gset Node) :=
  g ← read G; lift (Gr.ancestors g n).

Definition descendants (G : loc) (n : Node) : M (gset Node) :=
  g ← read G; lift (Gr.descendants g n).

Definition all_simple_paths (G : loc) (source target : Node) : M (list (list Node)) :=
  g ← read G; lift (Gr.all_simple_paths g source target).

Definition all_simple_edge_paths (G : loc) (source target : Node)
    : M (list (list (Node * Node))) :=
  g ← read G; lift (Gr.all_simple_edge_paths g source target).

Definition node_boundary (G : loc) (nbunch1 : gset Node) : M (gset Node) :=
  g ← read G; mret (Gr.node_boundary g nbunch1).

Definition node_connected_component (G : loc) (n : Node) : M (gset Node) :=
  g ← read G; lift (Gr.node_connected_component g n).

Definition moral_graph (G : loc) : M loc :=
  g ← read G; alloc (OGraph (Gr.moral_graph g)).

Definition minimum_node_cut (G : loc) (s t : Node) : M (gset Node) :=
  g ← read G; lift (Gr.minimum_node_cut g s t).

End nx.

(** A collection of nodes as a caller passes it for [N]: a plain list, as
    the docstrings say, or a graph's own node view [G.nodes()]. *)
Inductive node_coll :=
  | PyList (l : list Node)
  | NodeView (G : loc).

(** [set(N)]. *)
Definition set_of (N : node_coll) : M (gset Node) :=
  match N with
  | PyList l => mret (list_to_set l)
  | NodeView G => nodes_of G
  end.

(** [N == self.nodes()].  A networkx node view is a [Mapping] and takes its
    [__eq__] from there: it is equal only to another mapping with the same
    keys and values, and a list never is one. *)
Definition eq_nodes (N : node_coll) (self : loc) : M bool :=
  match N with
  | PyList _ => mret false
  | NodeView G => a ← nodes_of G; b ← nodes_of self; mret (bool_decide (a = b))
  end.

(** ** The methods of [CausalGraph] *)

Definition ancestors_all (self : loc) (nodes : list Node) : M (gset Node) :=
  ancestors ← for_loop nodes (∅ : gset Node) (λ ancestors node,
    ancestors_node ← nx.ancestors self node;
    mret (Continue (ancestors ∪ ancestors_node)));
  mret (ancestors ∪ list_to_set nodes).

Definition backdoor_graph (self : loc) (treatment outcome : Node) : M loc :=
  Gbd ← copy self;
  paths ← nx.all_simple_edge_paths self treatment outcome;
  for_loop paths () (λ _ path,
    first_edge ← index0 path;
    remove_edge Gbd first_edge.1 first_edge.2;;
    mret (Continue ()));;
  mret Gbd.

Definition causal_vertices (self : loc) (treatment outcome : Node) : M (gset Node) :=
  causal_paths ← nx.all_simple_paths self treatment outcome;
  causal_vertices ← for_loop causal_paths (∅ : gset Node) (λ causal_vertices path,
    mret (Continue (causal_vertices ∪ list_to_set path)));
  set_remove causal_vertices treatment.

(** [s.union(node)] with a string [node] adds the characters of [node]. *)
Definition forbidden (self : loc) (treatment outcome : Node) : M (gset Node) :=
  cvs ← causal_vertices self treatment outcome;
  forbidden ← for_loop (elements cvs) (∅ : gset Node) (λ forbidden node,
    desc ← nx.descendants self node;
    mret (Continue (forbidden ∪ (desc ∪ list_to_set (chars node)))));
  mret (forbidden ∪ list_to_set (chars treatment)).

Definition ignore (self : loc) (treatment outcome : Node) (L : list Node)
    (N : node_coll) : M (gset Node) :=
  set1 ← ancestors_all self (L ++ [treatment; outcome]);
  set1 ← set_remove set1 treatment;
  set1 ← set_remove set1 outcome;
  all ← nodes_of self;
  Ns ← set_of N;
  let set2 := all ∖ Ns in
  forb ← forbidden self treatment outcome;
  let set2 := set2 ∪ forb in
  mret (set1 ∩ set2).

Definition unblocked (H : loc) (treatment : Node) (Z : gset Node) : M (gset Node) :=
  Hnodes ← nodes_of H;
  G2 ← subgraph H (Hnodes ∖ Z);
  B ← nx.node_connected_component G2 treatment;
  nx.node_boundary H B.

Definition build_H0 (self : loc) (treatment outcome : Node) (L : list Node) : M loc :=
  anc ← ancestors_all self (L ++ [treatment; outcome]);
  G2 ← subgraph self anc;
  G3 ← backdoor_graph G2 treatment outcome;
  nx.moral_graph G3.

Definition build_H1 (self : loc) (treatment outcome : Node) (L : list Node)
    (N : node_coll) : M loc :=
  H0 ← build_H0 self treatment outcome L;
  ignore_nodes ← ignore self treatment outcome L N;
  H0c ← copy H0;
  H0nodes ← nodes_of H0;
  H1 ← subgraph H0c (H0nodes ∖ ignore_nodes);
  H1 ← copy H1;
  H1nodes ← nodes_of H1;
  let vertices_list := elements H1nodes in
  for_loop (enumerate vertices_list) () (λ _ '(i, node1),
    for_loop (drop (i + 1) vertices_list) () (λ _ node2,
      paths ← nx.all_simple_paths H0 node1 node2;
      for_loop paths () (λ _ path,
        if decide (list_to_set path ⊆ ignore_nodes ∪ {[node1; node2]}) then
          add_edge H1 node1 node2;;
          mret (Break ())
        else mret (Continue ()));;
      mret (Continue ()));;
    mret (Continue ()));;
  for_loop L () (λ _ node,
    add_edge H1 treatment node;;
    add_edge H1 node outcome;;
    mret (Continue ()));;
  mret H1.

(** [optimal_adj_set] returns a set on one branch and a string on the other. *)
Inductive answer :=
  | AdjSet (Z : gset Node)
  | Message (s : string).

Definition optimal_adj_set (self : loc) (treatment outcome : Node) (L : list Node)
    (N : node_coll) : M answer :=
  H1 ← build_H1 self treatment outcome L N;
  eq ← eq_nodes N self;
  cond ← (if eq : bool then mret true
          else Ns ← set_of N;
               anc ← ancestors_all self (L ++ [treatment; outcome]);
               mret (bool_decide (Ns ⊆ anc)));
  if cond : bool then
    optimal ← nx.node_boundary H1 (list_to_set (chars outcome));
    mret (AdjSet optimal)
  else
    mret (Message "Conditions to guarantee the existence of an optimal adjustment set are not satisfied"%string).

Definition optimal_minimal_adj_set (self : loc) (treatment outcome : Node)
    (L : list Node) (N : node_coll) : M (gset Node) :=
  H1 ← build_H1 self treatment outcome L N;
  Z ← nx.node_boundary H1 {[outcome]};
  unblocked H1 treatment Z.

Definition isInMinimum (H : loc) (treatment outcome node : Node) : M bool :=
  cut1 ← nx.minimum_node_cut H treatment outcome;
  let m1 := size cut1 in
  H_mod ← copy H;
  add_edge H_mod treatment node;;
  add_edge H_mod outcome node;;
  cut2 ← nx.minimum_node_cut H_mod treatment outcome;
  let m2 := size cut2 in
  let is_in_minimum := bool_decide (m1 = m2) in
  mret is_in_minimum.

Section Minimum.

(** [nx.node_disjoint_paths(G, s, t)] yields a maximum family of paths
    from [s] to [t] that share no inner node; which family depends on
    networkx's flow computation, so the function is a parameter here:
    [None] stands for [NetworkXNoPath]. *)
Variable node_disjoint_paths : graph → Node → Node → option (list (list Node)).

Definition nx_node_disjoint_paths (G : loc) (s t : Node) : M (list (list Node)) :=
  g ← read G;
  if decide (s ∈ nodes g ∧ t ∈ nodes g) then
    match node_disjoint_paths g s t with
    | Some paths => mret paths
    | None => raise NetworkXNoPath
    end
  else raise NetworkXError.

Definition optimal_minimum_adj_set (self : loc) (treatment outcome : Node)
    (L : list Node) (N : node_coll) : M (gset Node) :=
  H1 ← build_H1 self treatment outcome L N;
  let optimal_minimum : gset Node := ∅ in
  comp ← nx.node_connected_component H1 treatment;
  if decide (outcome ∉ comp) then mret optimal_minimum
  else
    paths ← nx_node_disjoint_paths H1 outcome treatment;
    for_loop paths optimal_minimum (λ optimal_minimum path,
      optimal_minimum ← for_loop path optimal_minimum (λ optimal_minimum node,
        if decide (node = outcome) then mret (Continue optimal_minimum)
        else
          b ← isInMinimum H1 treatment outcome node;
          if b : bool then mret (Break (optimal_minimum ∪ {[node]}))
          else mret (Continue optimal_minimum));
      mret (Continue optimal_minimum)).

End Minimum.

(** ** Specification vocabulary *)

(** One step of a search along [next], and sets closed under it. *)
Definition nstep (next : Node → gset Node) (x y : Node) : Prop := y ∈ next x.

Definition closed (next : Node → gset Node) (X : gset Node) : Prop :=
  ∀ x y, x ∈ X → y ∈ next x → y ∈ X.

(** A directed edge, as a relation. *)
Definition edge (g : graph) (x y : Node) : Prop := (x, y) ∈ edges g.

(** An edge of [g] that stays clear of the removed nodes [C]. *)
Definition step_avoiding (g : graph) (C : gset Node) (x y : Node) : Prop :=
  (x, y) ∈ edges g ∧ (x ∉ C) ∧ (y ∉ C).

(** [C] is a vertex cut between [s] and [t]: made of other nodes of [g], and
    with no path from [s] to [t] once its nodes are removed. *)
Definition vertex_cut (g : graph) (s t : Node) (C : gset Node) : Prop :=
  C ⊆ nodes g ∖ {[s; t]} ∧ ¬ rtc (step_avoiding g C) s t.

Definition minimum_vertex_cut (g : graph) (s t : Node) (C : gset Node) : Prop :=
  vertex_cut g s t C ∧ ∀ C', vertex_cut g s t C' → size C ≤ size C'.

Definition min_cut_size (g : graph) (s t : Node) (k : nat) : Prop :=
  ∃ C, minimum_vertex_cut g s t C ∧ size C = k.

(** A computation that leaves the store as it found it. *)
Definition stateless {A} (m : M A) : Prop := ∀ h, (m h).2 = h.

(** A computation that, started in any store that extends [c], ends
    (returning or raising) in a store that still extends [c]: it creates
    objects and changes only objects that are not in [c].  [Q] holds of
    what it returns. *)
Definition frames {A} (c : heap) (m : M A) (Q : A → Prop) : Prop :=
  ∀ h, c `prefix_of` h →
    c `prefix_of` (m h).2 ∧ (∀ a, (m h).1 = Ret a → Q a).

(** The exceptions of Python and networkx, as opposed to the module's own. *)
Definition library_exn (e : exn) : Prop :=
  e ≠ ConditionException ∧ e ≠ NoAdjException.

Definition raises_only_library {A} (m : M A) : Prop :=
  ∀ h e, (m h).1 = Raise e → library_exn e.

(** A call of one of the public methods with its arguments. *)
Inductive call :=
  | Call_ancestors_all (nodes : list Node)
  | Call_backdoor_graph (treatment outcome : Node)
  | Call_causal_vertices (treatment outcome : Node)
  | Call_forbidden (treatment outcome : Node)
  | Call_ignore (treatment outcome : Node) (L : list Node) (N : node_coll)
  | Call_build_H0 (treatment outcome : Node) (L : list Node)
  | Call_build_H1 (treatment outcome : Node) (L : list Node) (N : node_coll)
  | Call_optimal_adj_set (treatment outcome : Node) (L : list Node) (N : node_coll)
  | Call_optimal_minimal_adj_set (treatment outcome : Node) (L : list Node) (N : node_coll)
  | Call_optimal_minimum_adj_set (treatment outcome : Node) (L : list Node) (N : node_coll).

(** The store in which a call on the receiver [self] ends. *)
Definition store_after (ndp : graph → Node → Node → option (list (list Node)))
    (self : loc) (c : call) (h : heap) : heap :=
  match c with
  | Call_ancestors_all ns => (ancestors_all self ns h).2
  | Call_backdoor_graph t o => (backdoor_graph self t o h).2
  | Call_causal_vertices t o => (causal_vertices self t o h).2
  | Call_forbidden t o => (forbidden self t o h).2
  | Call_ignore t o L N => (ignore self t o L N h).2
  | Call_build_H0 t o L => (build_H0 self t o L h).2
  | Call_build_H1 t o L N => (build_H1 self t o L N h).2
  | Call_optimal_adj_set t o L N => (optimal_adj_set self t o L N h).2
  | Call_optimal_minimal_adj_set t o L N => (optimal_minimal_adj_set self t o L N h).2
  | Call_optimal_minimum_adj_set t o L N => (optimal_minimum_adj_set ndp self t o L N h).2
  end.

(** The derived graph a call returns, for the three methods that return one. *)
Definition derived_graph (self : loc) (c : call) (h : heap) : option loc :=
  let returned (r : result loc) := match r with Ret l => Some l | Raise _ => None end in
  match c with
  | Call_backdoor_graph t o => returned (backdoor_graph self t o h).1
  | Call_build_H0 t o L => returned (build_H0 self t o L h).1
  | Call_build_H1 t o L N => returned (build_H1 self t o L N h).1
  | _ => None
  end.

(** A decidable form of [wf], for concrete graphs. *)
Definition wfb (g : graph) : bool :=
  bool_decide (set_Forall (λ e : Node * Node, e.1 ∈ nodes g ∧ e.2 ∈ nodes g) (edges g)).

(** ** Example graphs *)

Section example_graphs.
Local Open Scope string_scope.

Definition graph_of (ns : list Node) (es : list (Node * Node)) : graph :=
Graph (list_to_set ns) (list_to_set es).

(** A confounder [C] of treatment [A] and outcome [Y]. *)
Definition confounded : graph :=
graph_of ["C"; "A"; "Y"] [("C", "A"); ("C", "Y"); ("A", "Y")].

(** The same with a descendant [D] of the outcome. *)
Definition confounded_descendant : graph :=
graph_of ["C"; "A"; "Y"; "D"] [("C", "A"); ("C", "Y"); ("A", "Y"); ("Y", "D")].

(** A common cause and no effect of [A] on [Y]. *)
Definition no_effect : graph :=
graph_of ["C"; "A"; "Y"] [("C", "A"); ("C", "Y")].

(** The confounder graph with identifiers of two characters. *)
Definition confounded_long_names : graph :=
graph_of ["Z"; "T1"; "Y1"] [("Z", "T1"); ("Z", "Y1"); ("T1", "Y1")].

(** [U] is a common cause of [A] and of the mediator [F]; with [U] outside
  [N] only [F] could block the back-door path [A ← U → F → Y], and [F] is
  on the causal path. *)
Definition hidden_confounder : graph :=
graph_of ["U"; "A"; "F"; "Y"] [("U", "A"); ("U", "F"); ("A", "F"); ("F", "Y")].

(** The undirected path [A – M – Y]. *)
Definition path3 : graph :=
graph_of ["A"; "M"; "Y"] [("A", "M"); ("M", "A"); ("M", "Y"); ("Y", "M")].

End example_graphs.

(** ** Paths *)

(** A walk that leaves [u] and visits the nodes of [q] in turn. *)
Fixpoint chain (g : graph) (u : Node) (q : list Node) : Prop :=
  match q with
  | [] => True
  | v :: q' => (u, v) ∈ edges g ∧ chain g v q'
  end.

(** [p] is a simple directed path from [s] to [t]: it has an edge at least
    and visits no node twice. *)
Definition simple_path (g : graph) (s t : Node) (p : list Node) : Prop :=
  ∃ q, p = s :: q ∧ q ≠ [] ∧ chain g s q ∧ NoDup p ∧ last p = Some t.

(** The node a path visits after its first. *)
Definition second (p : list Node) : option Node := p !! 1.

(** Decidable forms of [chain] and [simple_path], for concrete paths. *)
Fixpoint chainb (g : graph) (u : Node) (q : list Node) : bool :=
  match q with
  | [] => true
  | v :: q' => bool_decide ((u, v) ∈ edges g) && chainb g v q'
  end.

Definition simple_pathb (g : graph) (s t : Node) (p : list Node) : bool :=
  match p with
  | s' :: (_ :: _) as q =>
      bool_decide (s' = s) && chainb g s q && bool_decide (NoDup p)
      && bool_decide (last p = Some t)
  | _ => false
  end.

(** A collection passed for [N] that can be read in the store [h]: a list,
    or the node view of an existing graph object. *)
Definition readable (h : heap) (N : node_coll) : Prop :=
  match N with
  | PyList _ => True
  | NodeView G => is_Some (deref h G)
  end.

(** An edge of the back-door graph of the subgraph induced by [anc]: an
    edge of [g] between nodes of [anc] that is not the first edge of a
    simple directed path from [t] to [o]. *)
Definition backdoor_edge (g : graph) (anc : gset Node) (t o a b : Node) : Prop :=
  (a, b) ∈ edges g ∧ a ∈ anc ∧ b ∈ anc ∧
  ¬ (a = t ∧ ∃ p, simple_path g t o p ∧ second p = Some b).

(** [u] and [v] are joined in [g0] by a simple path whose inner nodes are
    all in [I]. *)
Definition linked_through (g0 : graph) (I : gset Node) (u v : Node) : Prop :=
  ∃ p, simple_path g0 u v p ∧ list_to_set p ⊆ I ∪ {[u; v]}.

(** What the inner loops of [build_H1] decide for a pair, and do to H1. *)
Definition joins (g0 : graph) (I : gset Node) (u v : Node) : bool :=
  match Gr.all_simple_paths g0 u v with
  | Ret ps => bool_decide (Exists (λ p : list Node, list_to_set p ⊆ I ∪ {[u; v]}) ps)
  | Raise _ => false
  end.

Definition join (g0 : graph) (I : gset Node) (u v : Node) (g : graph) : graph :=
  if joins g0 I u v then Gr.add_edge u v g else g.

Definition join_later (g0 : graph) (I : gset Node) (vl : list Node)
    (g : graph) (x : nat * Node) : graph :=
  foldl (λ acc v, join g0 I x.2 v acc) g (drop (x.1 + 1) vl).

Definition force_edges (t o : Node) (g : graph) (l : Node) : graph :=
  Gr.add_edge l o (Gr.add_edge t l g).

Section more_example_graphs.
Local Open Scope string_scope.

(** Two causal paths from [A] to [Y] that start with the same edge:
    [A → M → Y] and [A → M → Z → Y]. *)
Definition forked_mediator : graph :=
graph_of ["A"; "M"; "Z"; "Y"] [("A", "M"); ("M", "Y"); ("M", "Z"); ("Z", "Y")].

(** networkx's answer for the node-disjoint paths from [Y] to [A] in the
    graph H1 of [confounded]: the one path through [C]. *)
Definition paths_through_C : graph → Node → Node → option (list (list Node)) :=
λ _ _ _, Some [["Y"; "C"; "A"]].

End more_example_graphs.
(** ** Facts about graph values *)

Lemma elem_of_succs g u v : v ∈ Gr.succs g u ↔ (u, v) ∈ edges g.
Proof.
  unfold Gr.succs. rewrite elem_of_map. split.
  - intros ([a b] & -> & Hin). apply elem_of_filter in Hin as [Ha Hin].
    simpl in *. by subst.
  - intros Hin. exists (u, v). split; [done|]. by apply elem_of_filter.
Qed.

Lemma elem_of_preds g u v : v ∈ Gr.preds g u ↔ (v, u) ∈ edges g.
Proof.
  unfold Gr.preds. rewrite elem_of_map. split.
  - intros ([a b] & -> & Hin). apply elem_of_filter in Hin as [Ha Hin].
    simpl in *. by subst.
  - intros Hin. exists (v, u). split; [done|]. by apply elem_of_filter.
Qed.

Lemma elem_of_edges_induced keep g u v :
  (u, v) ∈ edges (Gr.induced keep g) ↔ (u, v) ∈ edges g ∧ u ∈ keep ∧ v ∈ keep.
Proof. unfold Gr.induced. simpl. rewrite elem_of_filter. simpl. tauto. Qed.

Lemma wf_induced keep g : keep ⊆ nodes g → wf (Gr.induced keep g).
Proof.
  intros Hk u v [_ [Hu Hv]]%elem_of_edges_induced. simpl. set_solver.
Qed.

Section closure.
Variable next : Node → gset Node.

Lemma expand_incl X : X ⊆ Gr.expand next X.
Proof. unfold Gr.expand. set_solver. Qed.

Lemma grow_incl n X : X ⊆ Gr.grow next n X.
Proof.
  revert X. induction n as [|n IH]; intros X; simpl; [done|].
  etrans; [apply expand_incl | apply IH].
Qed.

Lemma grow_sound n X y :
  y ∈ Gr.grow next n X → ∃ x, x ∈ X ∧ rtc (nstep next) x y.
Proof.
  revert X. induction n as [|n IH]; intros X; simpl.
  - intros Hy. by exists y.
  - intros (x & Hx & Hxy)%IH. unfold Gr.expand in Hx.
    apply elem_of_union in Hx as [Hx | Hx]; [by exists x|].
    apply elem_of_set_bind in Hx as (z & Hz & Hzx).
    exists z. split; [done|]. by eapply rtc_l.
Qed.

Lemma closed_expand X : closed next X → Gr.expand next X = X.
Proof.
  intros Hc. apply set_eq. intros y. unfold Gr.expand.
  rewrite elem_of_union, elem_of_set_bind. split; [|by left].
  intros [Hy | (x & Hx & Hy)]; [done|]. by eapply Hc.
Qed.

Lemma closed_grow n X : closed next X → Gr.grow next n X = X.
Proof.
  intros Hc. induction n as [|n IH]; simpl; [done|].
  by rewrite closed_expand.
Qed.

Lemma expand_fixed_closed X : Gr.expand next X = X → closed next X.
Proof.
  intros He x y Hx Hy. rewrite <- He. unfold Gr.expand.
  apply elem_of_union_r, elem_of_set_bind. by exists x.
Qed.

Lemma closed_rtc X x y : closed next X → x ∈ X → rtc (nstep next) x y → y ∈ X.
Proof. intros Hc Hx Hxy. induction Hxy; [done|]. apply IHHxy. by eapply Hc. Qed.

(** After enough rounds the search has reached a fixed point: a round
    that is not one adds a node, and there are only [size U] of them. *)
Lemma grow_closed (U : gset Node) n X :
  closed next U → X ⊆ U → size U ≤ n + size X → closed next (Gr.grow next n X).
Proof.
  intros HU. revert X. induction n as [|n IH]; intros X HX Hsz; simpl.
  - assert (X = U) as -> by (apply set_subseteq_size_eq; [done | lia]). done.
  - assert (Gr.expand next X ⊆ U) as HeU.
    { unfold Gr.expand. intros y [Hy | (x & Hx & Hy)%elem_of_set_bind]%elem_of_union.
      - by apply HX.
      - eapply HU; [|done]. by apply HX. }
    destruct (decide (Gr.expand next X = X)) as [He | Hne].
    + rewrite He. rewrite closed_grow; by apply expand_fixed_closed.
    + apply IH; [done|].
      assert (X ⊂ Gr.expand next X) as Hlt%subset_size; [|lia].
      split; [apply expand_incl|]. intros Hsub. apply Hne.
      apply set_eq. intros y. split; [apply Hsub | apply expand_incl].
Qed.

Lemma grow_complete (U : gset Node) s y :
  closed next U → s ∈ U → rtc (nstep next) s y → y ∈ Gr.grow next (size U) {[s]}.
Proof.
  intros HU Hs Hsy. eapply closed_rtc; [|apply grow_incl; by apply elem_of_singleton|done].
  apply (grow_closed U); [done|set_solver|lia].
Qed.
End closure.

(** ** Running computations *)

Lemma bind_run {A B} (m : M A) (k : A → M B) h :
  (m ≫= k) h =
  match m h with
  | (Ret a, h') => k a h'
  | (Raise e, h') => (Raise e, h')
  end.
Proof. reflexivity. Qed.

Lemma bind_inv {A B} (m : M A) (k : A → M B) h b h' :
  (m ≫= k) h = (Ret b, h') → ∃ a h1, m h = (Ret a, h1) ∧ k a h1 = (Ret b, h').
Proof.
  rewrite bind_run. destruct (m h) as [[a|e] h1]; [|done]. intros Hk. by exists a, h1.
Qed.

Lemma deref_aux_S f h l :
  deref_aux (S f) h l =
  match h !! l with
  | Some (OGraph g) => Some g
  | Some (OView base keep) => Gr.induced keep <$> deref_aux f h base
  | None => None
  end.
Proof. reflexivity. Qed.

Lemma deref_aux_mono f f' h l g :
  deref_aux f h l = Some g → f ≤ f' → deref_aux f' h l = Some g.
Proof.
  revert f' l g. induction f as [|f IH]; intros f' l g; simpl; [done|].
  intros Hd Hle. destruct f' as [|f']; [lia|]. simpl.
  destruct (h !! l) as [[g0|b keep]|]; [done| |done].
  destruct (deref_aux f h b) as [gb|] eqn:Hb; [|done].
  rewrite (IH f' b gb); [done|done|lia].
Qed.

Lemma deref_aux_app f h ext l g :
  deref_aux f h l = Some g → deref_aux f (h ++ ext) l = Some g.
Proof.
  revert l g. induction f as [|f IH]; intros l g; simpl; [done|].
  destruct (h !! l) as [o|] eqn:Hl; [|done].
  rewrite (lookup_app_l_Some _ _ _ _ Hl).
  destruct o as [g0|b keep]; [done|].
  destruct (deref_aux f h b) as [gb|] eqn:Hb; [|done].
  by rewrite (IH b gb).
Qed.

(** What an object shows does not change when the store is extended. *)
Lemma deref_prefix c h l g :
  c `prefix_of` h → deref c l = Some g → deref h l = Some g.
Proof.
  intros [ext ->] Hd. unfold deref in *.
  apply deref_aux_mono with (f := length c); [by apply deref_aux_app|].
  rewrite length_app. lia.
Qed.

Lemma deref_graph h l g : h !! l = Some (OGraph g) → deref h l = Some g.
Proof.
  intros Hl. unfold deref. destruct h as [|o h]; [done|]. simpl in *. by rewrite Hl.
Qed.

Lemma deref_view c h l base keep g :
  c `prefix_of` h → deref c base = Some g → length c ≤ l →
  h !! l = Some (OView base keep) → deref h l = Some (Gr.induced keep g).
Proof.
  intros [ext ->] Hd Hle Hl. unfold deref in *.
  pose proof (lookup_lt_Some _ _ _ Hl) as Hlt.
  destruct (length (c ++ ext)) as [|n] eqn:Hn; [lia|].
  rewrite deref_aux_S, Hl. rewrite (deref_aux_mono (length c) n _ _ g); [done| |lia].
  by apply deref_aux_app.
Qed.

Lemma read_run h l g : deref h l = Some g → read l h = (Ret g, h).
Proof. intros Hd. unfold read. by rewrite Hd. Qed.

Lemma read_inv h l g h' : read l h = (Ret g, h') → h' = h ∧ deref h l = Some g.
Proof. unfold read. destruct (deref h l); naive_solver. Qed.

(** ** Computations that leave the store alone *)

Lemma stateless_ret {A} (a : A) : stateless (mret a : M A).
Proof. done. Qed.

Lemma stateless_raise {A} e : stateless (raise e : M A).
Proof. done. Qed.

Lemma stateless_lift {A} (r : result A) : stateless (lift r).
Proof. done. Qed.

Lemma stateless_read l : stateless (read l).
Proof. intros h. unfold read. by destruct (deref h l). Qed.

Lemma stateless_bind {A B} (m : M A) (k : A → M B) :
  stateless m → (∀ a, stateless (k a)) → stateless (m ≫= k).
Proof.
  intros Hm Hk h. rewrite bind_run. specialize (Hm h).
  destruct (m h) as [[a|e] h1]; simpl in *; subst; [apply Hk | done].
Qed.

Lemma stateless_for_loop {A S} (xs : list A) (s : S) body :
  (∀ s x, stateless (body s x)) → stateless (for_loop xs s body).
Proof.
  intros Hb. revert s. induction xs as [|x xs IH]; intros s; simpl; [done|].
  apply stateless_bind; [done|]. intros [s'|s']; [apply IH | done].
Qed.

Lemma stateless_set_remove X x : stateless (set_remove X x).
Proof. unfold set_remove. by case_decide. Qed.

Lemma stateless_index0 {A} (l : list A) : stateless (index0 l).
Proof. by destruct l. Qed.

Create HintDb stateless.
#[local] Hint Resolve stateless_ret stateless_raise stateless_lift stateless_read
  stateless_set_remove stateless_index0 : stateless.

Ltac stateless_steps :=
  repeat first
    [ apply stateless_bind; [|intros]
    | apply stateless_for_loop; intros
    | solve [auto with stateless] ].

Lemma stateless_nodes_of G : stateless (nodes_of G).
Proof. unfold nodes_of. stateless_steps. Qed.

Lemma stateless_nx_ancestors G n : stateless (nx.ancestors G n).
Proof. unfold nx.ancestors. stateless_steps. Qed.

Lemma stateless_nx_descendants G n : stateless (nx.descendants G n).
Proof. unfold nx.descendants. stateless_steps. Qed.

Lemma stateless_nx_all_simple_paths G s t : stateless (nx.all_simple_paths G s t).
Proof. unfold nx.all_simple_paths. stateless_steps. Qed.

Lemma stateless_nx_all_simple_edge_paths G s t :
  stateless (nx.all_simple_edge_paths G s t).
Proof. unfold nx.all_simple_edge_paths. stateless_steps. Qed.

Lemma stateless_nx_node_boundary G X : stateless (nx.node_boundary G X).
Proof. unfold nx.node_boundary. stateless_steps. Qed.

Lemma stateless_nx_node_connected_component G n :
  stateless (nx.node_connected_component G n).
Proof. unfold nx.node_connected_component. stateless_steps. Qed.

Lemma stateless_nx_minimum_node_cut G s t : stateless (nx.minimum_node_cut G s t).
Proof. unfold nx.minimum_node_cut. stateless_steps. Qed.

#[local] Hint Resolve stateless_nodes_of stateless_nx_ancestors stateless_nx_descendants
  stateless_nx_all_simple_paths stateless_nx_all_simple_edge_paths
  stateless_nx_node_boundary stateless_nx_node_connected_component
  stateless_nx_minimum_node_cut : stateless.

Lemma stateless_set_of N : stateless (set_of N).
Proof. destruct N; simpl; stateless_steps. Qed.

Lemma stateless_eq_nodes N self : stateless (eq_nodes N self).
Proof. destruct N; simpl; stateless_steps. Qed.

#[local] Hint Resolve stateless_set_of stateless_eq_nodes : stateless.

Lemma stateless_ancestors_all self ns : stateless (ancestors_all self ns).
Proof. unfold ancestors_all. stateless_steps. Qed.

Lemma stateless_causal_vertices self t o : stateless (causal_vertices self t o).
Proof. unfold causal_vertices. stateless_steps. Qed.

#[local] Hint Resolve stateless_ancestors_all stateless_causal_vertices : stateless.

Lemma stateless_forbidden self t o : stateless (forbidden self t o).
Proof. unfold forbidden. stateless_steps. Qed.

#[local] Hint Resolve stateless_forbidden : stateless.

Lemma stateless_ignore self t o L N : stateless (ignore self t o L N).
Proof. unfold ignore. stateless_steps. Qed.

#[local] Hint Resolve stateless_ignore : stateless.

(** ** Computations that only extend the store *)

Lemma prefix_insert_fresh (c h : heap) l x :
  c `prefix_of` h → length c ≤ l → c `prefix_of` <[l := x]> h.
Proof.
  intros [ext ->] Hle. replace l with (length c + (l - length c)) by lia.
  rewrite insert_app_r. by apply prefix_app_r.
Qed.

Lemma frames_conseq {A} c (m : M A) (Q Q' : A → Prop) :
  frames c m Q → (∀ a, Q a → Q' a) → frames c m Q'.
Proof. intros Hm HQ h Hh. destruct (Hm h Hh) as [? ?]. naive_solver. Qed.

Lemma frames_stateless {A} c (m : M A) : stateless m → frames c m (λ _, True).
Proof. intros Hm h Hh. by rewrite Hm. Qed.

Lemma frames_ret {A} c (a : A) (Q : A → Prop) : Q a → frames c (mret a) Q.
Proof. intros HQ h Hh. split; [done|]. by intros ? [= <-]. Qed.

Lemma frames_bind {A B} c (m : M A) (k : A → M B) (Q : A → Prop) (R : B → Prop) :
  frames c m Q → (∀ a, Q a → frames c (k a) R) → frames c (m ≫= k) R.
Proof.
  intros Hm Hk h Hh. rewrite bind_run. destruct (Hm h Hh) as [Hp HQ].
  destruct (m h) as [[a|e] h1]; simpl in *; [|done].
  apply (Hk a); [by apply HQ | done].
Qed.

Lemma frames_alloc c o : frames c (alloc o) (λ l, length c ≤ l).
Proof.
  intros h Hh. unfold alloc. simpl. split.
  - by apply prefix_app_r.
  - intros l [= <-]. by apply prefix_length.
Qed.

Lemma frames_update c l f : length c ≤ l → frames c (update l f) (λ _, True).
Proof.
  intros Hle h Hh. unfold update.
  destruct (h !! l) as [[g|b keep]|]; [|done..].
  destruct (f g); simpl; [|done]. split; [|done]. by apply prefix_insert_fresh.
Qed.

Lemma frames_for_loop {A S} c (xs : list A) (s : S) body :
  (∀ s x, frames c (body s x) (λ _, True)) →
  frames c (for_loop xs s body) (λ _, True).
Proof.
  intros Hb. revert s. induction xs as [|x xs IH]; intros s; simpl.
  - by apply frames_stateless.
  - eapply frames_bind; [apply Hb|]. intros [s'|s'] _; [apply IH|].
    by apply frames_stateless.
Qed.

Ltac frames_stateless :=
  apply frames_stateless; solve [auto with stateless].

Lemma frames_copy c G : frames c (copy G) (λ l, length c ≤ l).
Proof.
  unfold copy. eapply frames_bind; [frames_stateless|].
  intros g _. apply frames_alloc.
Qed.

Lemma frames_subgraph c G keep : frames c (subgraph G keep) (λ l, length c ≤ l).
Proof.
  unfold subgraph. eapply frames_bind; [frames_stateless|].
  intros g _. apply frames_alloc.
Qed.

Lemma frames_moral_graph c G : frames c (nx.moral_graph G) (λ l, length c ≤ l).
Proof.
  unfold nx.moral_graph. eapply frames_bind; [frames_stateless|].
  intros g _. apply frames_alloc.
Qed.

Lemma frames_backdoor_graph c self t o :
  frames c (backdoor_graph self t o) (λ l, length c ≤ l).
Proof.
  unfold backdoor_graph. eapply frames_bind; [apply frames_copy|].
  intros Gbd HGbd. eapply frames_bind; [frames_stateless|].
  intros paths _. eapply frames_bind.
  - apply frames_for_loop. intros [] path.
    eapply frames_bind; [frames_stateless|]. intros e _.
    eapply frames_bind; [by apply frames_update|]. intros _ _.
    by apply frames_stateless.
  - intros _ _. by apply frames_ret.
Qed.

Lemma frames_build_H0 c self t o L :
  frames c (build_H0 self t o L) (λ l, length c ≤ l).
Proof.
  unfold build_H0. eapply frames_bind; [frames_stateless|].
  intros anc _. eapply frames_bind; [apply frames_subgraph|].
  intros G2 _. eapply frames_bind; [apply frames_backdoor_graph|].
  intros G3 _. apply frames_moral_graph.
Qed.

Lemma frames_build_H1 c self t o L N :
  frames c (build_H1 self t o L N) (λ l, length c ≤ l).
Proof.
  unfold build_H1. eapply frames_bind; [apply frames_build_H0|].
  intros H0 _. eapply frames_bind; [frames_stateless|].
  intros ign _. eapply frames_bind; [apply frames_copy|].
  intros H0c _. eapply frames_bind; [frames_stateless|].
  intros H0nodes _. eapply frames_bind; [apply frames_subgraph|].
  intros H1v _. eapply frames_bind; [apply frames_copy|].
  intros H1 HH1. eapply frames_bind; [frames_stateless|].
  intros H1nodes _. eapply frames_bind.
  { apply frames_for_loop. intros [] [i node1].
    eapply frames_bind; [|intros; by apply frames_stateless].
    apply frames_for_loop. intros [] node2.
    eapply frames_bind; [frames_stateless|]. intros paths _.
    eapply frames_bind; [|intros; by apply frames_stateless].
    apply frames_for_loop. intros [] path. case_decide.
    - eapply frames_bind; [by apply frames_update|]. intros; by apply frames_stateless.
    - by apply frames_stateless. }
  intros _ _. eapply frames_bind.
  { apply frames_for_loop. intros [] node.
    eapply frames_bind; [by apply frames_update|]. intros _ _.
    eapply frames_bind; [by apply frames_update|]. intros _ _.
    by apply frames_stateless. }
  intros _ _. by apply frames_ret.
Qed.

Lemma frames_unblocked c H t Z : frames c (unblocked H t Z) (λ _, True).
Proof.
  unfold unblocked. eapply frames_bind; [frames_stateless|].
  intros Hn _. eapply frames_bind; [apply frames_subgraph|].
  intros G2 _. eapply frames_bind; [frames_stateless|].
  intros B _. frames_stateless.
Qed.

Lemma frames_isInMinimum c H t o node : frames c (isInMinimum H t o node) (λ _, True).
Proof.
  unfold isInMinimum. eapply frames_bind; [frames_stateless|].
  intros cut1 _. eapply frames_bind; [apply frames_copy|].
  intros H_mod HH. eapply frames_bind; [by apply frames_update|]. intros _ _.
  eapply frames_bind; [by apply frames_update|]. intros _ _.
  eapply frames_bind; [frames_stateless|]. intros cut2 _.
  by apply frames_stateless.
Qed.

Lemma frames_optimal_adj_set c self t o L N :
  frames c (optimal_adj_set self t o L N) (λ _, True).
Proof.
  apply frames_conseq with (Q := λ _, True); [|done].
  unfold optimal_adj_set. eapply frames_bind; [apply frames_build_H1|].
  intros H1 _. apply frames_stateless.
  apply stateless_bind; [auto with stateless|]. intros eq.
  apply stateless_bind.
  - destruct eq; stateless_steps.
  - intros []; stateless_steps.
Qed.

Lemma frames_optimal_minimal_adj_set c self t o L N :
  frames c (optimal_minimal_adj_set self t o L N) (λ _, True).
Proof.
  unfold optimal_minimal_adj_set. eapply frames_bind; [apply frames_build_H1|].
  intros H1 _. eapply frames_bind; [frames_stateless|].
  intros Z _. apply frames_unblocked.
Qed.

Lemma stateless_nx_node_disjoint_paths ndp G s t :
  stateless (nx_node_disjoint_paths ndp G s t).
Proof.
  unfold nx_node_disjoint_paths. apply stateless_bind; [auto with stateless|].
  intros g. case_decide; [|done]. by destruct (ndp g s t).
Qed.

Lemma frames_optimal_minimum_adj_set ndp c self t o L N :
  frames c (optimal_minimum_adj_set ndp self t o L N) (λ _, True).
Proof.
  unfold optimal_minimum_adj_set. eapply frames_bind; [apply frames_build_H1|].
  intros H1 _. eapply frames_bind; [frames_stateless|].
  intros comp _. case_decide; [by apply frames_stateless|].
  eapply frames_bind; [apply frames_stateless, stateless_nx_node_disjoint_paths|].
  intros paths _. apply frames_for_loop. intros om path.
  eapply frames_bind; [|intros; by apply frames_stateless].
  apply frames_for_loop. intros om' node. case_decide; [by apply frames_stateless|].
  eapply frames_bind; [apply frames_isInMinimum|].
  intros [] _; by apply frames_stateless.
Qed.

(** ** What the store looks like after a graph-building step *)

Lemma stateless_inv {A} (m : M A) h r h' : stateless m → m h = (r, h') → h' = h.
Proof. intros Hm Hr. specialize (Hm h). rewrite Hr in Hm. done. Qed.

Lemma alloc_inv o h l h' : alloc o h = (Ret l, h') → l = length h ∧ h' = h ++ [o].
Proof. unfold alloc. naive_solver. Qed.

Lemma copy_inv G h l h' :
  copy G h = (Ret l, h') →
  ∃ g, deref h G = Some g ∧ l = length h ∧ h' = h ++ [OGraph g].
Proof.
  intros (g & h1 & [-> Hg]%read_inv & [-> ->]%alloc_inv)%bind_inv. by exists g.
Qed.

Lemma subgraph_inv G keep h l h' :
  subgraph G keep h = (Ret l, h') →
  ∃ g, deref h G = Some g ∧ l = length h ∧ h' = h ++ [OView G keep].
Proof.
  intros (g & h1 & [-> Hg]%read_inv & [-> ->]%alloc_inv)%bind_inv. by exists g.
Qed.

Lemma moral_graph_inv G h l h' :
  nx.moral_graph G h = (Ret l, h') →
  ∃ g, deref h G = Some g ∧ l = length h ∧ h' = h ++ [OGraph (Gr.moral_graph g)].
Proof.
  intros (g & h1 & [-> Hg]%read_inv & [-> ->]%alloc_inv)%bind_inv. by exists g.
Qed.

Lemma nodes_of_inv G h X h' :
  nodes_of G h = (Ret X, h') → h' = h ∧ ∃ g, deref h G = Some g ∧ X = nodes g.
Proof.
  intros (g & h1 & [-> Hg]%read_inv & Hr)%bind_inv.
  injection Hr as <- <-. eauto.
Qed.

Lemma lookup_last (h : heap) o : (h ++ [o]) !! length h = Some o.
Proof. by rewrite lookup_app_r, Nat.sub_diag by lia. Qed.

Lemma deref_last h g : deref (h ++ [OGraph g]) (length h) = Some g.
Proof. apply deref_graph, lookup_last. Qed.

(** A change of the object allocated last. *)
Lemma update_last_inv h g f u h' :
  update (length h) f (h ++ [OGraph g]) = (Ret u, h') →
  ∃ g', f g = Ret g' ∧ h' = h ++ [OGraph g'].
Proof.
  unfold update. rewrite lookup_last. destruct (f g) as [g'|e]; [|done].
  intros [= _ <-]. exists g'. split; [done|].
  replace (length h) with (length h + 0) by lia. by rewrite insert_app_r.
Qed.

Lemma for_loop_inv {A S} (Inv : heap → Prop) (xs : list A) (s : S) body h s' h' :
  (∀ s x h r h', Inv h → body s x h = (Ret r, h') → Inv h') →
  Inv h → for_loop xs s body h = (Ret s', h') → Inv h'.
Proof.
  intros Hb. revert s h. induction xs as [|x xs IH]; intros s h HI; simpl.
  - by intros [= _ <-].
  - intros (r & h1 & Hr & Hk)%bind_inv. pose proof (Hb _ _ _ _ _ HI Hr) as HI1.
    destruct r as [s1|s1]; [by eapply IH|]. by injection Hk as _ <-.
Qed.

(** [ancestors_all] returns only if every node it is given is in the graph,
    and what it returns contains those nodes. *)
Lemma ancestors_all_inv self ns h A h' :
  ancestors_all self ns h = (Ret A, h') →
  h' = h ∧ list_to_set ns ⊆ A ∧
  ∀ n, n ∈ ns → ∃ g, deref h self = Some g ∧ n ∈ nodes g.
Proof.
  intros HA. pose proof (stateless_inv _ _ _ _ (stateless_ancestors_all self ns) HA) as ->.
  split; [done|]. unfold ancestors_all in HA.
  apply bind_inv in HA as (A0 & h1 & Hloop & Hret). injection Hret as <- _.
  split; [set_solver|]. revert Hloop. generalize (∅ : gset Node).
  induction ns as [|n ns IH]; intros acc; simpl; [by intros _ ? ?%elem_of_nil|].
  intros (r & h2 & Hbody & Hrest)%bind_inv.
  apply bind_inv in Hbody as (an & h3 & Hanc & Hr). injection Hr as <- <-.
  apply bind_inv in Hanc as (g & h4 & [-> Hg]%read_inv & Hl).
  unfold lift, Gr.ancestors in Hl. case_decide as Hn; [|done]. injection Hl as <- <-.
  intros m [->|Hm]%elem_of_cons; [by exists g|]. by eapply IH.
Qed.

Lemma nodes_moral_graph g : nodes g ⊆ nodes (Gr.moral_graph g).
Proof. unfold Gr.moral_graph. simpl. set_solver. Qed.

Lemma backdoor_graph_inv self t o h l h' :
  backdoor_graph self t o h = (Ret l, h') →
  ∃ g gb, deref h self = Some g ∧ l = length h ∧ h' = h ++ [OGraph gb] ∧
          nodes gb = nodes g.
Proof.
  unfold backdoor_graph.
  intros (Gbd & h1 & (g & Hg & -> & ->)%copy_inv & Hk)%bind_inv.
  apply bind_inv in Hk as (paths & h2 & Hp & Hk).
  apply stateless_inv in Hp as ->; [|auto with stateless].
  apply bind_inv in Hk as ([] & h3 & Hloop & Hret). injection Hret as <- <-.
  exists g. cut (∃ gb, h3 = h ++ [OGraph gb] ∧ nodes gb = nodes g); [naive_solver|].
  refine (for_loop_inv (λ hx, ∃ gb, hx = h ++ [OGraph gb] ∧ nodes gb = nodes g)
            _ _ _ _ _ _ _ _ Hloop); [|by exists g].
  intros [] path hx r hx' (gb & -> & Hn).
  intros (e & h4 & He & Hk)%bind_inv.
  apply stateless_inv in He as ->; [|auto with stateless].
  apply bind_inv in Hk as ([] & h5 & (gb' & Hrm & ->)%update_last_inv & Hret).
  injection Hret as _ <-. exists gb'. split; [done|].
  unfold Gr.remove_edge in Hrm. case_decide; [|done]. by injection Hrm as <-.
Qed.

Lemma build_H0_inv self t o L h l h' :
  build_H0 self t o L h = (Ret l, h') →
  ∃ hmid g0, l = length hmid ∧ h' = hmid ++ [OGraph g0] ∧ h `prefix_of` hmid ∧
             t ∈ nodes g0 ∧ o ∈ nodes g0.
Proof.
  unfold build_H0.
  intros (anc & h1 & (-> & Hanc & Hin)%ancestors_all_inv & Hk)%bind_inv.
  destruct (Hin t) as (g & Hg & Ht); [set_solver|].
  destruct (Hin o) as (g' & Hg' & Ho); [set_solver|].
  assert (g' = g) as -> by congruence. clear Hg'.
  apply bind_inv in Hk as (G2 & h2 & (? & _ & -> & ->)%subgraph_inv & Hk).
  apply bind_inv in Hk as (G3 & h3 & (g2 & gb & Hg2 & -> & -> & Hnb)%backdoor_graph_inv & Hk).
  apply moral_graph_inv in Hk as (g3 & Hg3 & -> & ->).
  rewrite deref_last in Hg3. injection Hg3 as <-.
  rewrite (deref_view h _ _ self anc g) in Hg2;
    [|by apply prefix_app_r|done|done|by apply lookup_last].
  injection Hg2 as <-.
  eexists _, _. split; [done|]. split; [done|].
  split; [by apply prefix_app_r, prefix_app_r|].
  split; apply nodes_moral_graph; rewrite Hnb; simpl; set_solver.
Qed.

Lemma set_remove_inv X x h Y h' :
  set_remove X x h = (Ret Y, h') → h' = h ∧ x ∈ X ∧ Y = X ∖ {[x]}.
Proof. unfold set_remove. case_decide; [|done]. by intros [= <- <-]. Qed.

Lemma add_edge_last_inv h g u v r h' :
  add_edge (length h) u v (h ++ [OGraph g]) = (Ret r, h') →
  h' = h ++ [OGraph (Gr.add_edge u v g)].
Proof. by intros (g' & [= <-] & ->)%update_last_inv. Qed.

Lemma nodes_add_edge u v g : nodes g ⊆ nodes (Gr.add_edge u v g).
Proof. unfold Gr.add_edge. simpl. set_solver. Qed.

(** Whatever [ignore] returns has lost [treatment] and [outcome] in
    [set1.remove(treatment)] and [set1.remove(outcome)]. *)
Lemma ignore_excludes self t o L N h I h' :
  ignore self t o L N h = (Ret I, h') → (t ∉ I) ∧ (o ∉ I).
Proof.
  unfold ignore.
  intros (set1 & h1 & _ & Hk)%bind_inv.
  apply bind_inv in Hk as (set1' & h2 & (-> & _ & ->)%set_remove_inv & Hk).
  apply bind_inv in Hk as (set1'' & h3 & (-> & _ & ->)%set_remove_inv & Hk).
  apply bind_inv in Hk as (all & h4 & _ & Hk).
  apply bind_inv in Hk as (Ns & h5 & _ & Hk).
  apply bind_inv in Hk as (forb & h6 & _ & Hk).
  injection Hk as <- _. set_solver.
Qed.

(** The store on which [build_H1] returns: the last object is [H1], a graph
    of its own that has [treatment] and [outcome] among its nodes; the
    ignore set was computed in the store [hmid] that [build_H0] left. *)
Lemma build_H1_inv self t o L N h l h' :
  build_H1 self t o L N h = (Ret l, h') →
  ∃ hmid I hpre g1,
    h `prefix_of` hmid ∧ ignore self t o L N hmid = (Ret I, hmid) ∧
    h `prefix_of` hpre ∧ l = length hpre ∧ h' = hpre ++ [OGraph g1] ∧
    t ∈ nodes g1 ∧ o ∈ nodes g1.
Proof.
  unfold build_H1.
  intros (H0 & h1 & (hmid & g0 & -> & -> & Hpre & Ht & Ho)%build_H0_inv & Hk)%bind_inv.
  apply bind_inv in Hk as (I & h2 & HI & Hk).
  pose proof (stateless_inv _ _ _ _ (stateless_ignore _ _ _ _ _) HI) as ->.
  destruct (ignore_excludes _ _ _ _ _ _ _ _ HI) as [HtI HoI].
  apply bind_inv in Hk as (H0c & h3 & (g0' & Hg0' & -> & ->)%copy_inv & Hk).
  rewrite deref_last in Hg0'. injection Hg0' as <-.
  apply bind_inv in Hk as (H0nodes & h4 & (-> & g0' & Hg0' & ->)%nodes_of_inv & Hk).
  rewrite (deref_prefix (hmid ++ [OGraph g0]) _ _ g0) in Hg0';
    [|by apply prefix_app_r|by apply deref_last].
  injection Hg0' as <-.
  apply bind_inv in Hk as (H1v & h5 & (? & _ & -> & ->)%subgraph_inv & Hk).
  apply bind_inv in Hk as (H1 & h6 & (g1 & Hg1 & -> & ->)%copy_inv & Hk).
  rewrite (deref_view ((hmid ++ [OGraph g0]) ++ [OGraph g0]) _ _
             (length (hmid ++ [OGraph g0])) (nodes g0 ∖ I) g0) in Hg1;
    [|by apply prefix_app_r|by apply deref_last|done|by apply lookup_last].
  injection Hg1 as <-.
  apply bind_inv in Hk as (H1nodes & h7 & Hn & Hk).
  apply stateless_inv in Hn as ->; [|auto with stateless].
  set (hpre := ((hmid ++ [OGraph g0]) ++ [OGraph g0]) ++
               [OView (length (hmid ++ [OGraph g0])) (nodes g0 ∖ I)]) in *.
  set (Inv := λ hx : heap, ∃ g', hx = hpre ++ [OGraph g'] ∧ t ∈ nodes g' ∧ o ∈ nodes g').
  assert (Inv (hpre ++ [OGraph (Gr.induced (nodes g0 ∖ I) g0)])) as HInv.
  { eexists. split; [done|]. simpl. set_solver. }
  assert (∀ u v hx r hx', Inv hx → add_edge (length hpre) u v hx = (Ret r, hx') → Inv hx')
    as Hadd.
  { intros u v hx r hx' (g' & -> & Ht' & Ho') ->%add_edge_last_inv.
    eexists. split; [done|]. split; by apply nodes_add_edge. }
  apply bind_inv in Hk as ([] & h8 & Hloop1 & Hk).
  apply bind_inv in Hk as ([] & h9 & Hloop2 & Hret). injection Hret as <- <-.
  assert (Inv h8) as HInv8.
  { refine (for_loop_inv Inv _ _ _ _ _ _ _ HInv Hloop1).
    intros [] [i node1] hx r hx' Hx (? & hy & Hl2 & Hret)%bind_inv.
    injection Hret as _ <-.
    refine (for_loop_inv Inv _ _ _ _ _ _ _ Hx Hl2).
    intros [] node2 hx2 r2 hx2' Hx2 (paths & hy2 & Hp & Hk)%bind_inv.
    apply stateless_inv in Hp as ->; [|auto with stateless].
    apply bind_inv in Hk as (? & hz & Hl3 & Hret). injection Hret as _ <-.
    refine (for_loop_inv Inv _ _ _ _ _ _ _ Hx2 Hl3).
    intros [] path hx0 r0 hx0' Hx0. case_decide.
    - intros (? & hw & Hadd1 & Hret)%bind_inv. injection Hret as _ <-.
      by eapply Hadd.
    - by intros [= _ <-]. }
  assert (Inv h9) as (g9 & -> & Ht9 & Ho9).
  { refine (for_loop_inv Inv _ _ _ _ _ _ _ HInv8 Hloop2).
    intros [] node hx r hx' Hx (? & hy & Hadd1 & Hk)%bind_inv.
    apply bind_inv in Hk as (? & hz & Hadd2 & Hret). injection Hret as _ <-.
    eapply Hadd; [|done]. by eapply Hadd. }
  exists (hmid ++ [OGraph g0]), I, hpre, g9.
  split; [by etrans; [|apply prefix_app_r]|]. split; [done|].
  split; [|done]. unfold hpre. etrans; [exact Hpre|].
  by do 3 apply prefix_app_r.
Qed.

(** ** Ancestors *)

Lemma rtc_preds_edge g x y : rtc (nstep (Gr.preds g)) x y ↔ rtc (edge g) y x.
Proof.
  split.
  - induction 1 as [|x y z Hxy _ IH]; [done|].
    eapply rtc_r; [exact IH|]. by apply elem_of_preds in Hxy.
  - induction 1 as [|a b c Hab _ IH]; [done|].
    eapply rtc_r; [exact IH|]. by apply elem_of_preds.
Qed.

Lemma rtc_succs_edge g x y : rtc (nstep (Gr.succs g)) x y ↔ rtc (edge g) x y.
Proof.
  split; induction 1 as [|a b c Hab _ IH]; try done;
    (eapply rtc_l; [|exact IH]); by apply elem_of_succs.
Qed.

Lemma closed_preds_nodes g : wf g → closed (Gr.preds g) (nodes g).
Proof. intros Hwf x y _ Hy%elem_of_preds. by destruct (Hwf _ _ Hy). Qed.

Lemma closed_succs_nodes g : wf g → closed (Gr.succs g) (nodes g).
Proof. intros Hwf x y _ Hy%elem_of_succs. by destruct (Hwf _ _ Hy). Qed.

(** [nx.ancestors(G, n)] is the set of the other nodes with a directed path
    to [n]. *)
Lemma ancestors_spec g n :
  wf g → n ∈ nodes g →
  ∃ X, Gr.ancestors g n = Ret X ∧ ∀ m, m ∈ X ↔ m ≠ n ∧ rtc (edge g) m n.
Proof.
  intros Hwf Hn. unfold Gr.ancestors. rewrite decide_True by done.
  eexists. split; [done|]. intros m.
  rewrite elem_of_difference, elem_of_singleton, <- rtc_preds_edge.
  unfold Gr.bfs. split.
  - intros [(x & ->%elem_of_singleton & Hr)%grow_sound Hne]. done.
  - intros [Hne Hr]. split; [|done].
    by apply grow_complete; [apply closed_preds_nodes| |].
Qed.

Lemma descendants_spec g n :
  wf g → n ∈ nodes g →
  ∃ X, Gr.descendants g n = Ret X ∧ ∀ m, m ∈ X ↔ m ≠ n ∧ rtc (edge g) n m.
Proof.
  intros Hwf Hn. unfold Gr.descendants. rewrite decide_True by done.
  eexists. split; [done|]. intros m.
  rewrite elem_of_difference, elem_of_singleton, <- rtc_succs_edge.
  unfold Gr.bfs. split.
  - intros [(x & ->%elem_of_singleton & Hr)%grow_sound Hne]. done.
  - intros [Hne Hr]. split; [|done].
    by apply grow_complete; [apply closed_succs_nodes| |].
Qed.

Lemma nx_ancestors_run h self g n :
  deref h self = Some g → nx.ancestors self n h = (Gr.ancestors g n, h).
Proof. intros Hg. unfold nx.ancestors. by rewrite bind_run, (read_run _ _ g). Qed.

(** C9.  Given nodes that are all in the graph, [ancestors_all] returns, on
    an unchanged store, the given nodes together with the strict ancestors
    of each: the other nodes with a directed path to it.  In particular the
    result contains every given node, so [ancestors_all([n])] contains [n]. *)
Theorem ancestors_all_is_ancestral_closure h self g ns :
  deref h self = Some g → wf g → (∀ n, n ∈ ns → n ∈ nodes g) →
  ∃ A, ancestors_all self ns h = (Ret A, h) ∧
       (∀ m, m ∈ A ↔ m ∈ ns ∨ ∃ n, n ∈ ns ∧ m ≠ n ∧ rtc (edge g) m n) ∧
       (∀ n, n ∈ ns → n ∈ A).
Proof.
  intros Hg Hwf Hns.
  assert (∀ acc : gset Node, ∃ A,
    for_loop ns acc (λ ancestors node,
      ancestors_node ← nx.ancestors self node;
      mret (Continue (ancestors ∪ ancestors_node))) h = (Ret A, h) ∧
    ∀ m, m ∈ A ↔ m ∈ acc ∨ ∃ n, n ∈ ns ∧ m ≠ n ∧ rtc (edge g) m n) as Hloop.
  { clear -Hg Hwf Hns. induction ns as [|n ns IH]; intros acc; simpl.
    - exists acc. split; [done|]. intros m. split; [by left|].
      intros [?|(n & []%elem_of_nil & _)]. done.
    - destruct (ancestors_spec g n Hwf) as (X & HX & HXm); [apply Hns; by left|].
      destruct (IH (λ k Hk, Hns k (list_elem_of_further _ _ _ Hk)) (acc ∪ X))
        as (A & HA & HAm).
      exists A. split.
      + rewrite bind_run, bind_run, (nx_ancestors_run _ _ g), HX by done. exact HA.
      + intros m. rewrite HAm, elem_of_union, HXm. split.
        * intros [[?|[? ?]]|(k & Hk & ?)]; [by left| |].
          -- right. exists n. split; [by left|done].
          -- right. exists k. split; [by right|done].
        * intros [?|(k & [->|Hk]%elem_of_cons & ? & ?)]; [by left;left| |].
          -- left. by right.
          -- right. by exists k. }
  destruct (Hloop ∅) as (A & HA & HAm).
  exists (A ∪ list_to_set ns). split; [|split].
  - unfold ancestors_all. by rewrite bind_run, HA.
  - intros m. rewrite elem_of_union, HAm, elem_of_list_to_set, elem_of_empty. tauto.
  - intros n Hn. apply elem_of_union_r. by apply elem_of_list_to_set.
Qed.

(** ** The receiver is never changed *)

(** C8.  Whatever method is called, with whatever arguments and in whatever
    store: the store in which the call ends (returning or raising) is the
    store in which it began, extended with new objects, so every object that
    existed, the receiver among them, has the nodes and edges it had; the four
    methods that only compute sets leave the store exactly as it was; and a
    returned back-door graph, H0 or H1 is a new graph object of its own, not
    a view on an existing one. *)
Theorem methods_do_not_mutate_receiver ndp self c h :
  h `prefix_of` store_after ndp self c h ∧
  (deref h self = None ∨ deref (store_after ndp self c h) self = deref h self) ∧
  match c with
  | Call_ancestors_all _ | Call_causal_vertices _ _ | Call_forbidden _ _
  | Call_ignore _ _ _ _ => store_after ndp self c h = h
  | _ => True
  end ∧
  match derived_graph self c h with
  | Some l => length h ≤ l ∧ ∃ g, store_after ndp self c h !! l = Some (OGraph g)
  | None => True
  end.
Proof.
  assert (h `prefix_of` store_after ndp self c h) as Hpre.
  { destruct c; simpl.
    - by apply (frames_stateless h _ (stateless_ancestors_all _ _)).
    - by apply (frames_backdoor_graph h).
    - by apply (frames_stateless h _ (stateless_causal_vertices _ _ _)).
    - by apply (frames_stateless h _ (stateless_forbidden _ _ _)).
    - by apply (frames_stateless h _ (stateless_ignore _ _ _ _ _)).
    - by apply (frames_build_H0 h).
    - by apply (frames_build_H1 h).
    - by apply (frames_optimal_adj_set h).
    - by apply (frames_optimal_minimal_adj_set h).
    - by apply (frames_optimal_minimum_adj_set ndp h). }
  split; [done|]. split; [|split].
  - destruct (deref h self) as [g|] eqn:Hg; [right|by left].
    by apply (deref_prefix h).
  - destruct c; simpl; try done.
    + apply stateless_ancestors_all.
    + apply stateless_causal_vertices.
    + apply stateless_forbidden.
    + apply stateless_ignore.
  - destruct c; simpl; try done.
    + destruct (backdoor_graph self treatment outcome h) as [[l|e] h'] eqn:Hr; [|done].
      apply backdoor_graph_inv in Hr as (g & gb & _ & -> & -> & _). simpl.
      split; [done|]. exists gb. apply lookup_last.
    + destruct (build_H0 self treatment outcome L h) as [[l|e] h'] eqn:Hr; [|done].
      apply build_H0_inv in Hr as (hmid & g0 & -> & -> & Hp & _). simpl.
      split; [by apply prefix_length|]. exists g0. apply lookup_last.
    + destruct (build_H1 self treatment outcome L N h) as [[l|e] h'] eqn:Hr; [|done].
      apply build_H1_inv in Hr as (hmid & I & hpre & g1 & _ & _ & Hp & -> & -> & _).
      simpl. split; [by apply prefix_length|]. exists g1. apply lookup_last.
Qed.

(** ** H1 keeps the two endpoints *)

(** C10.  Whenever [build_H1] returns: the ignore set it computed (in the
    store [hmid] left by [build_H0]) contains neither [treatment] nor
    [outcome], as does every set [ignore] ever returns for the query; and the
    returned object shows a graph that has both [treatment] and [outcome]
    among its nodes. *)
Theorem build_H1_keeps_treatment_and_outcome self treatment outcome L N h H1 h' :
  build_H1 self treatment outcome L N h = (Ret H1, h') →
  (∃ hmid I, h `prefix_of` hmid ∧
             ignore self treatment outcome L N hmid = (Ret I, hmid) ∧
             (treatment ∉ I) ∧ (outcome ∉ I)) ∧
  (∀ hx I hx', ignore self treatment outcome L N hx = (Ret I, hx') →
               (treatment ∉ I) ∧ (outcome ∉ I)) ∧
  ∃ g1, deref h' H1 = Some g1 ∧ treatment ∈ nodes g1 ∧ outcome ∈ nodes g1.
Proof.
  intros (hmid & I & hpre & g1 & Hp & HI & _ & -> & -> & Ht & Ho)%build_H1_inv.
  split; [|split].
  - exists hmid, I. split; [done|]. split; [done|]. by eapply ignore_excludes.
  - intros hx I' hx'. apply ignore_excludes.
  - exists g1. split; [apply deref_last|done].
Qed.

(** ** Minimum vertex cuts *)

Lemma step_avoiding_induced g C x y :
  wf g → edge (Gr.induced (nodes g ∖ C) g) x y ↔ step_avoiding g C x y.
Proof.
  intros Hwf. unfold edge, step_avoiding. rewrite elem_of_edges_induced.
  split; [set_solver|]. intros (He & Hx & Hy). destruct (Hwf _ _ He). set_solver.
Qed.

Lemma rtc_iff {A} (R R' : relation A) x y :
  (∀ a b, R a b ↔ R' a b) → rtc R x y ↔ rtc R' x y.
Proof. intros HR. split; apply rtc_subrel; intros a b; by apply HR. Qed.

(** The search decides separation. *)
Lemma separates_spec g s t C :
  wf g → s ∈ nodes g → s ∉ C →
  Gr.separates g s t C = true ↔ ¬ rtc (step_avoiding g C) s t.
Proof.
  intros Hwf Hs HsC. unfold Gr.separates. rewrite bool_decide_eq_true.
  set (g' := Gr.induced (nodes g ∖ C) g).
  assert (t ∈ Gr.bfs g' (Gr.succs g') s ↔ rtc (step_avoiding g C) s t) as ->; [|done].
  rewrite <- (rtc_iff (edge g')) by (intros; by apply step_avoiding_induced).
  rewrite <- rtc_succs_edge. unfold Gr.bfs. split.
  - by intros (x & ->%elem_of_singleton & Hr)%grow_sound.
  - apply grow_complete.
    + apply closed_succs_nodes, wf_induced. set_solver.
    + unfold g'. simpl. set_solver.
Qed.

Lemma sublists_incl {A} (l l' : list A) x : l' ∈ Gr.sublists l → x ∈ l' → x ∈ l.
Proof.
  revert l'. induction l as [|y l IH]; intros l'; simpl.
  - by intros ->%list_elem_of_singleton.
  - intros [Hl|(l'' & -> & Hl)%list_elem_of_fmap]%elem_of_app Hx.
    + right. by eapply IH.
    + apply elem_of_cons in Hx as [->|Hx]; [by left|right; by eapply IH].
Qed.

Lemma sublists_complete (l : list Node) (X : gset Node) :
  X ⊆ list_to_set l → ∃ l', l' ∈ Gr.sublists l ∧ list_to_set l' = X.
Proof.
  revert X. induction l as [|y l IH]; intros X HX; simpl in *.
  - exists []. split; [by apply list_elem_of_singleton|]. set_solver.
  - destruct (decide (y ∈ X)) as [Hy|Hy].
    + destruct (IH (X ∖ {[y]})) as (l' & Hl' & Hset); [set_solver|].
      exists (y :: l'). split.
      * apply elem_of_app. right. apply list_elem_of_fmap. by exists l'.
      * simpl. rewrite Hset. apply set_eq. intros z.
        destruct (decide (z = y)); set_solver.
    + destruct (IH X) as (l' & Hl' & Hset); [set_solver|].
      exists l'. split; [|done]. apply elem_of_app. by left.
Qed.

(** [node_cuts] lists exactly the vertex cuts. *)
Lemma elem_of_node_cuts g s t C :
  wf g → s ∈ nodes g → C ∈ Gr.node_cuts g s t ↔ vertex_cut g s t C.
Proof.
  intros Hwf Hs. unfold Gr.node_cuts, vertex_cut.
  rewrite list_elem_of_filter, list_elem_of_fmap. split.
  - intros [Hsep (l' & -> & Hl')].
    assert (list_to_set l' ⊆ nodes g ∖ {[s; t]}) as Hsub.
    { intros x Hx%elem_of_list_to_set.
      eapply elem_of_elements, sublists_incl; done. }
    split; [done|]. apply separates_spec; [done|done|set_solver|done].
  - intros [Hsub Hsep]. split.
    + apply separates_spec; [done|done|set_solver|done].
    + destruct (sublists_complete (elements (nodes g ∖ {[s; t]})) C) as (l' & ? & ?).
      * by rewrite list_to_set_elements_L.
      * by exists l'.
Qed.

Lemma foldr_smaller_in C0 cs : foldr Gr.smaller C0 cs ∈ C0 :: cs.
Proof.
  induction cs as [|c cs IH]; simpl; [by left|]. unfold Gr.smaller at 1.
  case_decide.
  - apply elem_of_cons in IH as [->|IH]; [by left|]. by do 2 right.
  - right. by left.
Qed.

Lemma foldr_smaller_le C0 cs C : C ∈ C0 :: cs → size (foldr Gr.smaller C0 cs) ≤ size C.
Proof.
  induction cs as [|c cs IH]; simpl.
  - by intros ->%list_elem_of_singleton.
  - intros HC. unfold Gr.smaller at 1.
    assert (C = c ∨ C ∈ C0 :: cs) as [->|HC'].
    { apply elem_of_cons in HC as [->|[->|HC]%elem_of_cons]; [right; by left|by left|].
      right. by right. }
    + case_decide; lia.
    + specialize (IH HC'). case_decide; lia.
Qed.

(** [minimum_node_cut] returns a minimum vertex cut whenever there is a
    vertex cut at all. *)
Lemma minimum_node_cut_spec g s t C0 :
  wf g → s ∈ nodes g → t ∈ nodes g → vertex_cut g s t C0 →
  ∃ C, Gr.minimum_node_cut g s t = Ret C ∧ minimum_vertex_cut g s t C.
Proof.
  intros Hwf Hs Ht HC0. unfold Gr.minimum_node_cut. rewrite decide_True by done.
  apply (elem_of_node_cuts g s t C0 Hwf Hs) in HC0.
  destruct (Gr.node_cuts g s t) as [|c cs] eqn:Hcuts; [by apply elem_of_nil in HC0|].
  eexists. split; [done|]. split.
  - apply (elem_of_node_cuts g s t _ Hwf Hs). rewrite Hcuts. apply foldr_smaller_in.
  - intros C' HC'%(elem_of_node_cuts g s t C' Hwf Hs). rewrite Hcuts in HC'.
    by apply foldr_smaller_le.
Qed.

(** Non-adjacent distinct nodes are separated by all the others. *)
Lemma vertex_cut_all_others g s t :
  wf g → s ≠ t → (s, t) ∉ edges g → vertex_cut g s t (nodes g ∖ {[s; t]}).
Proof.
  intros Hwf Hne Hadj. split; [done|]. intros Hr.
  assert (∀ y, rtc (step_avoiding g (nodes g ∖ {[s; t]})) s y → y = s) as Hstay.
  { intros y Hy. refine (rtc_ind_r (λ y, y = s) s _ _ y Hy); [done|].
    intros x z _ (He & _ & HzC) ->. destruct (Hwf _ _ He) as [_ Hzn].
    destruct (decide (z = s)) as [|Hzs]; [done|].
    destruct (decide (z = t)) as [->|Hzt]; [done|].
    exfalso. apply HzC. set_solver. }
  apply Hne. symmetry. by apply Hstay.
Qed.

Lemma wf_add_edge u v g : wf g → wf (Gr.add_edge u v g).
Proof.
  intros Hwf x y. unfold Gr.add_edge. simpl.
  intros [He|He]%elem_of_union; [destruct (Hwf _ _ He); set_solver|].
  assert ((x, y) = (u, v) ∨ (x, y) = (v, u)) as [[= -> ->]|[= -> ->]] by set_solver;
    set_solver.
Qed.

Lemma undirected_add_edge u v g : undirected g → undirected (Gr.add_edge u v g).
Proof.
  intros Hu x y. unfold Gr.add_edge. simpl.
  intros [He|He]%elem_of_union; [apply elem_of_union_l; by apply Hu|].
  apply elem_of_union_r. set_solver.
Qed.

Section with_forced_node.
(** [g] with the edges [s–v] and [t–v] that [isInMinimum] adds to its copy. *)
Variables (g : graph) (s t v : Node).

Let g' := Gr.add_edge t v (Gr.add_edge s v g).

Lemma forced_edges x y :
  (x, y) ∈ edges g' ↔
  (x, y) ∈ edges g ∨ (x = s ∧ y = v) ∨ (x = v ∧ y = s) ∨ (x = t ∧ y = v) ∨ (x = v ∧ y = t).
Proof. unfold g', Gr.add_edge. simpl. set_solver. Qed.

Lemma forced_nodes x :
  s ∈ nodes g → t ∈ nodes g → x ∈ nodes g' ↔ x ∈ nodes g ∨ x = v.
Proof. unfold g', Gr.add_edge. simpl. set_solver. Qed.

Lemma forced_not_adjacent :
  s ≠ t → (s, t) ∉ edges g → v ≠ s → v ≠ t → (s, t) ∉ edges g'.
Proof. rewrite forced_edges. naive_solver. Qed.

(** A cut of the changed graph has to contain [v]: otherwise [s–v–t]
    is a path. *)
Lemma forced_cut_contains C : vertex_cut g' s t C → v ∈ C.
Proof.
  intros [Hsub Hsep]. destruct (decide (v ∈ C)) as [|Hv]; [done|].
  exfalso. apply Hsep.
  assert (s ∉ C ∧ t ∉ C) as [HsC HtC] by set_solver.
  apply (rtc_l _ s v t); [|apply rtc_once].
  - split; [|by split]. apply forced_edges. right. left. done.
  - split; [|by split]. apply forced_edges. do 4 right. done.
Qed.

(** Once [v] is removed the added edges are gone. *)
Lemma forced_step C x y :
  v ∈ C → step_avoiding g' C x y ↔ step_avoiding g C x y.
Proof.
  intros Hv. unfold step_avoiding. rewrite forced_edges. split; [|tauto].
  intros [[?|[[-> ->]|[[-> ->]|[[-> ->]|[-> ->]]]]] [? ?]]; done.
Qed.

Lemma forced_cut_inv C :
  wf g → vertex_cut g' s t C → vertex_cut g s t (C ∩ nodes g) ∧ v ∈ C.
Proof.
  intros Hwf HC. pose proof (forced_cut_contains C HC) as Hv. split; [|done].
  destruct HC as [Hsub Hsep]. split.
  - intros x [HxC Hxn]%elem_of_intersection. specialize (Hsub x HxC). set_solver.
  - intros Hr. apply Hsep. eapply rtc_subrel; [|exact Hr].
    intros x y (He & Hx & Hy). apply forced_step; [done|].
    destruct (Hwf _ _ He). split; [done|]. set_solver.
Qed.

Lemma forced_cut_intro C :
  s ∈ nodes g → t ∈ nodes g → vertex_cut g s t C → v ∈ C → vertex_cut g' s t C.
Proof.
  intros Hs Ht [Hsub Hsep] Hv. split.
  - intros x Hx. specialize (Hsub x Hx). apply elem_of_difference.
    split; [apply forced_nodes|]; set_solver.
  - intros Hr. apply Hsep. eapply rtc_subrel; [|exact Hr].
    intros x y. by apply forced_step.
Qed.

(** The heart of [isInMinimum]: the two minimum cut sizes agree exactly
    when [v] is in some minimum cut of [g]. *)
Lemma forced_sizes_agree C1 C2 :
  wf g → s ∈ nodes g → t ∈ nodes g →
  minimum_vertex_cut g s t C1 → minimum_vertex_cut g' s t C2 →
  size C1 = size C2 ↔ ∃ C, minimum_vertex_cut g s t C ∧ v ∈ C.
Proof.
  intros Hwf Hs Ht [HC1 Hmin1] [HC2 Hmin2].
  destruct (forced_cut_inv C2 Hwf HC2) as [HC2g HvC2].
  assert (size (C2 ∩ nodes g) ≤ size C2) as Hle
    by (apply subseteq_size; set_solver).
  split.
  - intros Heq. exists (C2 ∩ nodes g).
    pose proof (Hmin1 _ HC2g) as Hle1.
    assert (C2 ∩ nodes g = C2) as Hsame by (apply set_subseteq_size_eq; [set_solver|lia]).
    split; [|set_solver]. split; [done|].
    intros C' HC'. rewrite Hsame, <- Heq. by apply Hmin1.
  - intros (C & [HC Hmin] & HvC).
    pose proof (Hmin2 _ (forced_cut_intro C Hs Ht HC HvC)).
    pose proof (Hmin _ HC1). pose proof (Hmin1 _ HC).
    pose proof (Hmin _ HC2g). lia.
Qed.

Lemma forced_wf : wf g → wf g'.
Proof. intros Hwf. by do 2 apply wf_add_edge. Qed.

Lemma forced_has_cut :
  wf g → s ≠ t → (s, t) ∉ edges g → v ≠ s → v ≠ t →
  vertex_cut g' s t (nodes g' ∖ {[s; t]}).
Proof.
  intros. apply vertex_cut_all_others;
    [by apply forced_wf|done|by apply forced_not_adjacent].
Qed.

Lemma forced_endpoints : s ∈ nodes g → t ∈ nodes g → s ∈ nodes g' ∧ t ∈ nodes g'.
Proof. intros. split; apply forced_nodes; auto. Qed.
End with_forced_node.

Lemma min_cut_size_unique g s t C k :
  minimum_vertex_cut g s t C → min_cut_size g s t k → k = size C.
Proof.
  intros [HC Hmin] (C' & [HC' Hmin'] & <-).
  pose proof (Hmin _ HC'). pose proof (Hmin' _ HC). lia.
Qed.

Lemma update_last_run h g f :
  update (length h) f (h ++ [OGraph g]) =
  match f g with
  | Ret g' => (Ret (), h ++ [OGraph g'])
  | Raise e => (Raise e, h ++ [OGraph g])
  end.
Proof.
  unfold update. rewrite lookup_last. destruct (f g) as [g'|e]; [|done].
  replace (length h) with (length h + 0) at 1 by lia. by rewrite insert_app_r.
Qed.

Lemma isInMinimum_run h H g s t v :
  deref h H = Some g →
  isInMinimum H s t v h =
  match Gr.minimum_node_cut g s t with
  | Ret cut1 =>
      let g' := Gr.add_edge t v (Gr.add_edge s v g) in
      match Gr.minimum_node_cut g' s t with
      | Ret cut2 => (Ret (bool_decide (size cut1 = size cut2)), h ++ [OGraph g'])
      | Raise e => (Raise e, h ++ [OGraph g'])
      end
  | Raise e => (Raise e, h)
  end.
Proof.
  intros Hg. unfold isInMinimum, nx.minimum_node_cut, copy, add_edge.
  rewrite !bind_run, (read_run _ _ g) by done. unfold lift.
  destruct (Gr.minimum_node_cut g s t) as [cut1|e]; [|done].
  rewrite !bind_run, (read_run _ _ g) by done. unfold alloc.
  rewrite !bind_run, update_last_run, !bind_run, update_last_run.
  rewrite !bind_run, (read_run _ _ _ (deref_last _ _)).
  by destruct (Gr.minimum_node_cut _ s t).
Qed.

(** C6.  For a graph [g] shown by [H], distinct non-adjacent nodes
    [treatment] and [outcome] of [g] and a third node [node]: [isInMinimum]
    returns, and it returns [True] exactly when [node] belongs to some vertex
    cut of minimum size between [treatment] and [outcome]; equivalently,
    exactly when the minimum cut size of [g] is also the minimum cut size of
    [g] with the edges [treatment–node] and [outcome–node] added.  (It holds
    of every well-formed graph value; an undirected graph is one whose edge
    set is symmetric.) *)
Theorem isInMinimum_iff_in_some_minimum_cut h H g treatment outcome node :
  deref h H = Some g → wf g →
  treatment ∈ nodes g → outcome ∈ nodes g →
  treatment ≠ outcome → (treatment, outcome) ∉ edges g →
  node ≠ treatment → node ≠ outcome →
  ∃ b, (isInMinimum H treatment outcome node h).1 = Ret b ∧
       (b = true ↔ ∃ C, minimum_vertex_cut g treatment outcome C ∧ node ∈ C) ∧
       (b = true ↔
        ∃ k, min_cut_size g treatment outcome k ∧
             min_cut_size (Gr.add_edge outcome node (Gr.add_edge treatment node g))
                          treatment outcome k).
Proof.
  intros Hg Hwf Hs Ht Hst Hadj Hvs Hvt.
  destruct (minimum_node_cut_spec g treatment outcome _ Hwf Hs Ht
              (vertex_cut_all_others g _ _ Hwf Hst Hadj)) as (C1 & Hrun1 & HC1).
  set (g' := Gr.add_edge outcome node (Gr.add_edge treatment node g)).
  destruct (forced_endpoints g treatment outcome node Hs Ht) as [Hs' Ht'].
  destruct (minimum_node_cut_spec g' treatment outcome _
              (forced_wf g treatment outcome node Hwf) Hs' Ht'
              (forced_has_cut g treatment outcome node Hwf Hst Hadj Hvs Hvt))
    as (C2 & Hrun2 & HC2).
  exists (bool_decide (size C1 = size C2)). split.
  { rewrite (isInMinimum_run _ _ g) by done. simpl. fold g'. by rewrite Hrun1, Hrun2. }
  rewrite bool_decide_eq_true.
  pose proof (forced_sizes_agree g treatment outcome node C1 C2 Hwf Hs Ht HC1 HC2)
    as Hagree.
  split; [done|]. split.
  - intros Heq. exists (size C1). split; [by exists C1|]. exists C2. by split.
  - intros (k & Hk1 & Hk2).
    rewrite (min_cut_size_unique _ _ _ _ _ HC1 Hk1) in Hk2.
    by apply (min_cut_size_unique _ _ _ _ _ HC2) in Hk2.
Qed.

(** ** Which exceptions can be raised *)

Lemma rol_ret {A} (a : A) : raises_only_library (mret a : M A).
Proof. by intros h e. Qed.

Lemma rol_raise {A} e : library_exn e → raises_only_library (raise e : M A).
Proof. by intros He h e' [= <-]. Qed.

Lemma rol_lift {A} (r : result A) :
  (∀ e, r = Raise e → library_exn e) → raises_only_library (lift r).
Proof. intros Hr h e. apply Hr. Qed.

Lemma rol_read l : raises_only_library (read l).
Proof. intros h e. unfold read. destruct (deref h l); [done|]. by intros [= <-]. Qed.

Lemma rol_alloc o : raises_only_library (alloc o).
Proof. by intros h e. Qed.

Lemma rol_update l f :
  (∀ g e, f g = Raise e → library_exn e) → raises_only_library (update l f).
Proof.
  intros Hf h e. unfold update. destruct (h !! l) as [[g|b keep]|].
  - destruct (f g) eqn:Hfg; [done|]. intros [= <-]. by eapply Hf.
  - by intros [= <-].
  - by intros [= <-].
Qed.

Lemma rol_bind {A B} (m : M A) (k : A → M B) :
  raises_only_library m → (∀ a, raises_only_library (k a)) →
  raises_only_library (m ≫= k).
Proof.
  intros Hm Hk h e. rewrite bind_run. specialize (Hm h).
  destruct (m h) as [[a|e'] h1]; simpl in *; [apply Hk|].
  intros [= <-]. by apply Hm.
Qed.

Lemma rol_for_loop {A S} (xs : list A) (s : S) body :
  (∀ s x, raises_only_library (body s x)) → raises_only_library (for_loop xs s body).
Proof.
  intros Hb. revert s. induction xs as [|x xs IH]; intros s; simpl; [apply rol_ret|].
  apply rol_bind; [done|]. intros [s'|s']; [apply IH | apply rol_ret].
Qed.

Ltac rol_pure :=
  intros; unfold library_exn, Gr.ancestors, Gr.descendants, Gr.all_simple_edge_paths,
    Gr.all_simple_paths, Gr.node_connected_component, Gr.minimum_node_cut,
    Gr.remove_edge in *;
  repeat case_match; simplify_eq; done.

Ltac rol_steps :=
  repeat first
    [ apply rol_bind; [|intros]
    | apply rol_for_loop; intros
    | apply rol_ret
    | apply rol_read
    | apply rol_alloc
    | apply rol_raise; done
    | apply rol_lift; rol_pure
    | apply rol_update; rol_pure
    | progress case_decide
    | progress case_match ].

Lemma rol_build_H0 self t o L : raises_only_library (build_H0 self t o L).
Proof.
  unfold build_H0, ancestors_all, subgraph, backdoor_graph, copy, nx.moral_graph,
    nx.ancestors, nx.all_simple_edge_paths, index0, remove_edge.
  rol_steps.
Qed.

Lemma rol_ignore self t o L N : raises_only_library (ignore self t o L N).
Proof.
  unfold ignore, ancestors_all, forbidden, causal_vertices, set_remove, nodes_of,
    nx.ancestors, nx.descendants, nx.all_simple_paths.
  rol_steps; destruct N; simpl; unfold nodes_of; rol_steps.
Qed.

Lemma rol_build_H1 self t o L N : raises_only_library (build_H1 self t o L N).
Proof.
  unfold build_H1. apply rol_bind; [apply rol_build_H0|]. intros H0.
  apply rol_bind; [apply rol_ignore|]. intros ign.
  unfold copy, subgraph, nodes_of, nx.all_simple_paths, add_edge.
  rol_steps.
Qed.

Lemma rol_isInMinimum H t o node : raises_only_library (isInMinimum H t o node).
Proof.
  unfold isInMinimum, nx.minimum_node_cut, copy, add_edge. rol_steps.
Qed.

(** No call of a search method ends in [ConditionException] or
    [NoAdjException]: the module has no [raise]. *)
Lemma rol_optimal_adj_set self t o L N :
  raises_only_library (optimal_adj_set self t o L N).
Proof.
  unfold optimal_adj_set. apply rol_bind; [apply rol_build_H1|]. intros H1.
  unfold ancestors_all, nx.ancestors, nx.node_boundary.
  destruct N; simpl; unfold nodes_of; rol_steps.
Qed.

Lemma rol_optimal_minimal_adj_set self t o L N :
  raises_only_library (optimal_minimal_adj_set self t o L N).
Proof.
  unfold optimal_minimal_adj_set. apply rol_bind; [apply rol_build_H1|]. intros H1.
  unfold unblocked, nx.node_boundary, nodes_of, subgraph, nx.node_connected_component.
  rol_steps.
Qed.

Lemma rol_optimal_minimum_adj_set ndp self t o L N :
  raises_only_library (optimal_minimum_adj_set ndp self t o L N).
Proof.
  unfold optimal_minimum_adj_set. apply rol_bind; [apply rol_build_H1|]. intros H1.
  apply rol_bind; [unfold nx.node_connected_component; rol_steps|]. intros comp.
  case_decide; [apply rol_ret|].
  apply rol_bind; [unfold nx_node_disjoint_paths; rol_steps|]. intros paths.
  apply rol_for_loop. intros om path.
  apply rol_bind; [|intros; apply rol_ret].
  apply rol_for_loop. intros om' node. case_decide; [apply rol_ret|].
  apply rol_bind; [apply rol_isInMinimum|]. intros []; apply rol_ret.
Qed.

Lemma wfb_wf g : wfb g = true → wf g.
Proof.
  unfold wfb. rewrite bool_decide_eq_true. intros Hall u v He.
  exact (Hall (u, v) He).
Qed.

(** With no directed path from [treatment] to [outcome] the set of causal
    vertices is empty when [causal_vertices.remove(treatment)] is reached. *)
Lemma causal_vertices_no_path h self g treatment outcome :
  deref h self = Some g → Gr.all_simple_paths g treatment outcome = Ret [] →
  causal_vertices self treatment outcome h = (Raise KeyError, h).
Proof.
  intros Hg Hp. unfold causal_vertices, nx.all_simple_paths.
  rewrite !bind_run, (read_run _ _ g) by done. unfold lift. rewrite Hp. simpl.
  unfold set_remove. rewrite bind_run. simpl. by rewrite decide_False by set_solver.
Qed.

(** ** The claims on concrete graphs *)

Section on_examples.
Local Open Scope string_scope.

(** C1.  The graph is the confounder graph with a descendant [D] of the
  outcome, and [N = ["C", "D"]]: [N] is not the node set and is not within
  the ancestors of treatment and outcome ([D] is none).  The claim has
  [optimal_adj_set] fail with [ConditionException]; the method returns, and
  what it returns is the message string.  No call of it, on any input, ends
  in [ConditionException]. *)
Theorem optimal_adj_set_condition_returns_message :
let h := [OGraph confounded_descendant] in
let N := ["C"; "D"] in
bool_decide (list_to_set N = nodes confounded_descendant) = false ∧
(∃ anc, (ancestors_all 0 ([] ++ ["A"; "Y"]) h).1 = Ret anc ∧
        bool_decide (list_to_set N ⊆ anc) = false) ∧
(optimal_adj_set 0 "A" "Y" [] (PyList N) h).1 =
  Ret (Message "Conditions to guarantee the existence of an optimal adjustment set are not satisfied") ∧
(∀ self treatment outcome L N' h',
   (optimal_adj_set self treatment outcome L N' h').1 ≠ Raise ConditionException).
Proof.
intros h N. repeat apply conj.
- vm_compute. reflexivity.
- eexists. apply conj; [vm_compute; reflexivity|]. vm_compute. reflexivity.
- vm_compute. reflexivity.
- intros self treatment outcome L N' h' Hr.
  exact (proj1 (rol_optimal_adj_set _ _ _ _ _ _ _ Hr) eq_refl).
Qed.

(** When [N] is the list of all nodes the comparison [N == self.nodes()] is
  still false, and the message is returned as well; passing the node view
  itself takes the other branch. *)
Lemma optimal_adj_set_list_of_all_nodes :
let h := [OGraph confounded_descendant] in
(optimal_adj_set 0 "A" "Y" [] (PyList ["C"; "A"; "Y"; "D"]) h).1 =
  Ret (Message "Conditions to guarantee the existence of an optimal adjustment set are not satisfied") ∧
(optimal_adj_set 0 "A" "Y" [] (NodeView 0) h).1 = Ret (AdjSet {["C"]}).
Proof. intros h. apply conj; vm_compute; reflexivity. Qed.

(** C2.  In [hidden_confounder] with [N = ["A", "F", "Y"]] no subset of [N]
  that avoids the forbidden nodes blocks [A ← U → F → Y], so no valid
  adjustment set exists.  The claim has the three searches fail with
  [NoAdjException]; [optimal_adj_set] returns the set [{A}],
  [optimal_minimal_adj_set] ends in a [KeyError], and
  [optimal_minimum_adj_set] never ends in [NoAdjException], whatever paths
  networkx yields (it returns [{A}] for the one path there is). *)
Theorem searches_do_not_raise_NoAdjException :
let h := [OGraph hidden_confounder] in
let N := PyList ["A"; "F"; "Y"] in
(optimal_adj_set 0 "A" "Y" [] N h).1 = Ret (AdjSet {["A"]}) ∧
(optimal_minimal_adj_set 0 "A" "Y" [] N h).1 = Raise KeyError ∧
(optimal_minimum_adj_set (λ _ _ _, Some [["Y"; "A"]]) 0 "A" "Y" [] N h).1 = Ret {["A"]} ∧
(∀ ndp, (optimal_minimum_adj_set ndp 0 "A" "Y" [] N h).1 ≠ Raise NoAdjException).
Proof.
intros h N. repeat apply conj.
- vm_compute. reflexivity.
- vm_compute. reflexivity.
- vm_compute. reflexivity.
- intros ndp Hr. exact (proj2 (rol_optimal_minimum_adj_set _ _ _ _ _ _ _ _ Hr) eq_refl).
Qed.

(** C3.  In [no_effect] there is no directed path from [A] to [Y].  The
  claim has [causal_vertices] return the empty set and [forbidden] return
  [{A}]; both end in the [KeyError] of [causal_vertices.remove(treatment)]. *)
Theorem causal_vertices_without_path_raises_KeyError :
let h := [OGraph no_effect] in
Gr.all_simple_paths no_effect "A" "Y" = Ret [] ∧
(causal_vertices 0 "A" "Y" h).1 = Raise KeyError ∧
(forbidden 0 "A" "Y" h).1 = Raise KeyError.
Proof. intros h. repeat apply conj; vm_compute; reflexivity. Qed.

(** C4.  In [confounded_long_names] the only causal vertex is [Y1], it has
  no descendants, and the treatment is [T1]; the claim has [forbidden]
  return [{Y1, T1}].  It returns the characters [{Y, 1, T}], and neither
  identifier. *)
Theorem forbidden_splits_long_identifiers :
let h := [OGraph confounded_long_names] in
(causal_vertices 0 "T1" "Y1" h).1 = Ret {["Y1"]} ∧
Gr.descendants confounded_long_names "Y1" = Ret ∅ ∧
(forbidden 0 "T1" "Y1" h).1 = Ret {["Y"; "1"; "T"]} ∧
bool_decide ("Y1" ∈ ({["Y"; "1"; "T"]} : gset Node)) = false ∧
bool_decide ("T1" ∈ ({["Y"; "1"; "T"]} : gset Node)) = false.
Proof. intros h. repeat apply conj; vm_compute; reflexivity. Qed.

(** C5.  In [confounded_long_names] with [N] all three nodes (all ancestors
  of treatment or outcome, so the precondition holds) the valid adjustment
  set is [{Z}], and [{Z}] is the node boundary of [{Y1}] in H1.  The claim
  has [optimal_adj_set] return it; it returns the empty set, the boundary
  of the characters of [Y1] that are nodes. *)
Theorem optimal_adj_set_misses_boundary_of_long_outcome :
let h := [OGraph confounded_long_names] in
let N := ["Z"; "T1"; "Y1"] in
(∃ anc, (ancestors_all 0 ([] ++ ["T1"; "Y1"]) h).1 = Ret anc ∧
        bool_decide (list_to_set N ⊆ anc) = true) ∧
(∃ H1 h', build_H1 0 "T1" "Y1" [] (PyList N) h = (Ret H1, h') ∧
          (nx.node_boundary H1 {["Y1"]} h').1 = Ret {["Z"]}) ∧
(optimal_adj_set 0 "T1" "Y1" [] (PyList N) h).1 = Ret (AdjSet ∅).
Proof.
intros h N. repeat apply conj.
- eexists. apply conj; [vm_compute; reflexivity|]. vm_compute. reflexivity.
- eexists _, _. apply conj; [vm_compute; reflexivity|]. vm_compute. reflexivity.
- vm_compute. reflexivity.
Qed.

(** C7.  Same graph and query: [optimal_minimal_adj_set] returns [{Z}], of
  cardinality 1, and [optimal_adj_set] the empty set, of cardinality 0; the
  claim has the first at most the second. *)
Theorem optimal_minimal_larger_than_optimal :
let h := [OGraph confounded_long_names] in
let N := PyList ["Z"; "T1"; "Y1"] in
∃ optimal minimal,
  (optimal_adj_set 0 "T1" "Y1" [] N h).1 = Ret (AdjSet optimal) ∧
  (optimal_minimal_adj_set 0 "T1" "Y1" [] N h).1 = Ret minimal ∧
  size optimal = 0 ∧ size minimal = 1 ∧
  (optimal_minimum_adj_set (λ _ _ _, Some [["Y1"; "Z"; "T1"]]) 0 "T1" "Y1" [] N h).1
    = Ret minimal.
Proof.
intros h N. eexists _, _. apply conj; [vm_compute; reflexivity|].
apply conj; [vm_compute; reflexivity|].
repeat apply conj; vm_compute; reflexivity.
Qed.

(** On the confounder graph with identifiers of one character the three
  searches return [{C}]. *)
Lemma searches_on_confounded :
let h := [OGraph confounded] in
let N := PyList ["C"; "A"; "Y"] in
(optimal_adj_set 0 "A" "Y" [] N h).1 = Ret (AdjSet {["C"]}) ∧
(optimal_minimal_adj_set 0 "A" "Y" [] N h).1 = Ret {["C"]} ∧
(optimal_minimum_adj_set (λ _ _ _, Some [["Y"; "C"; "A"]]) 0 "A" "Y" [] N h).1
  = Ret {["C"]}.
Proof. intros h N. repeat apply conj; vm_compute; reflexivity. Qed.

(** The theorems with hypotheses, at concrete inputs. *)

Lemma isInMinimum_on_path3 :
∃ b, (isInMinimum 0 "A" "Y" "M" [OGraph path3]).1 = Ret b ∧
     (b = true ↔ ∃ C, minimum_vertex_cut path3 "A" "Y" C ∧ "M" ∈ C) ∧
     (b = true ↔
      ∃ k, min_cut_size path3 "A" "Y" k ∧
           min_cut_size (Gr.add_edge "Y" "M" (Gr.add_edge "A" "M" path3)) "A" "Y" k).
Proof.
apply (isInMinimum_iff_in_some_minimum_cut [OGraph path3] 0 path3 "A" "Y" "M").
- reflexivity.
- apply wfb_wf. vm_compute. reflexivity.
- apply (bool_decide_unpack _). vm_compute. exact I.
- apply (bool_decide_unpack _). vm_compute. exact I.
- discriminate.
- apply (bool_decide_unpack _). vm_compute. exact I.
- discriminate.
- discriminate.
Defined.

Lemma ancestors_all_on_confounded :
∃ A, ancestors_all 0 ["A"; "Y"] [OGraph confounded] = (Ret A, [OGraph confounded]) ∧
     (∀ m, m ∈ A ↔ m ∈ ["A"; "Y"] ∨
                    ∃ n, n ∈ ["A"; "Y"] ∧ m ≠ n ∧ rtc (edge confounded) m n) ∧
     (∀ n, n ∈ ["A"; "Y"] → n ∈ A).
Proof.
apply (ancestors_all_is_ancestral_closure [OGraph confounded] 0 confounded ["A"; "Y"]).
- reflexivity.
- apply wfb_wf. vm_compute. reflexivity.
- intros n Hn. apply elem_of_cons in Hn as [->|Hn].
  + apply (bool_decide_unpack _). vm_compute. exact I.
  + apply list_elem_of_singleton in Hn as ->.
    apply (bool_decide_unpack _). vm_compute. exact I.
Defined.

Lemma build_H1_on_confounded :
let h := [OGraph confounded] in
let N := PyList ["C"; "A"; "Y"] in
let h' := (build_H1 0 "A" "Y" [] N h).2 in
(∃ hmid I, h `prefix_of` hmid ∧ ignore 0 "A" "Y" [] N hmid = (Ret I, hmid) ∧
           ("A" ∉ I) ∧ ("Y" ∉ I)) ∧
(∀ hx I hx', ignore 0 "A" "Y" [] N hx = (Ret I, hx') → ("A" ∉ I) ∧ ("Y" ∉ I)) ∧
∃ g1, deref h' 6 = Some g1 ∧ "A" ∈ nodes g1 ∧ "Y" ∈ nodes g1.
Proof.
apply (build_H1_keeps_treatment_and_outcome 0 "A" "Y" [] (PyList ["C"; "A"; "Y"])
         [OGraph confounded] 6).
vm_compute. reflexivity.
Defined.

End on_examples.

(** ** The enumeration of simple paths *)

Lemma chain_app g u q1 v q2 :
  chain g u (q1 ++ v :: q2) ↔ chain g u (q1 ++ [v]) ∧ chain g v q2.
Proof.
  revert u. induction q1 as [|w q1 IH]; intros u; simpl; [tauto|].
  rewrite IH. tauto.
Qed.

Lemma chain_rtc g u q t : chain g u q → last (u :: q) = Some t → rtc (edge g) u t.
Proof.
  revert u. induction q as [|v q IH]; intros u; simpl.
  - by intros _ [= ->].
  - intros [He Hc] Hl. eapply rtc_l; [exact He|]. by apply IH.
Qed.

Lemma chain_nodes g u q x : wf g → chain g u q → x ∈ q → x ∈ nodes g.
Proof.
  intros Hwf. revert u. induction q as [|v q IH]; intros u; simpl.
  - by intros _ ?%elem_of_nil.
  - intros [He Hc] [->|Hx]%elem_of_cons; [by destruct (Hwf _ _ He)|by eapply IH].
Qed.

Lemma chain_subgraph g g' u q :
  edges g ⊆ edges g' → chain g u q → chain g' u q.
Proof.
  intros Hsub. revert u. induction q as [|v q IH]; intros u; simpl; [done|].
  intros [He Hc]. split; [by apply Hsub|by apply IH].
Qed.

Lemma simple_paths_from_sound g T fuel visited cur p :
  p ∈ Gr.simple_paths_from g T fuel visited cur →
  ∃ q t, p = reverse visited ++ q ∧ chain g cur q ∧ NoDup q ∧
         (∀ x, x ∈ q → x ∉ visited) ∧ last q = Some t ∧ t ∈ T.
Proof.
  revert visited cur. induction fuel as [|fuel IH]; intros visited cur; simpl.
  - by intros ?%elem_of_nil.
  - intros Hp%list_elem_of_In. apply in_flat_map in Hp as (child & Hc & Hp).
    apply list_elem_of_In, elem_of_elements, elem_of_succs in Hc.
    apply list_elem_of_In in Hp.
    destruct (decide (child ∈ visited)) as [|Hnv]; [by apply elem_of_nil in Hp|].
    apply elem_of_app in Hp as [Hp|Hp].
    + destruct (decide (child ∈ T)) as [HT|]; [|by apply elem_of_nil in Hp].
      apply list_elem_of_singleton in Hp as ->.
      exists [child], child. rewrite reverse_cons. simpl.
      split; [done|]. split; [done|]. split; [apply NoDup_singleton|].
      split; [|done]. by intros x ->%list_elem_of_singleton.
    + apply IH in Hp as (q & t & -> & Hch & Hnd & Hdisj & Hl & Ht).
      exists (child :: q), t. rewrite reverse_cons, <- app_assoc. simpl.
      split; [done|]. split; [done|]. split.
      { apply NoDup_cons. split; [|done]. intros Hin. apply (Hdisj _ Hin). by left. }
      split.
      { intros x [->|Hx]%elem_of_cons; [done|].
        intros Hv. apply (Hdisj _ Hx). by right. }
      split; [|done]. destruct q; [done|]. done.
Qed.

Lemma simple_paths_from_complete g T fuel visited cur q t :
  q ≠ [] → chain g cur q → NoDup q → (∀ x, x ∈ q → x ∉ visited) →
  last q = Some t → t ∈ T → length q ≤ fuel →
  reverse visited ++ q ∈ Gr.simple_paths_from g T fuel visited cur.
Proof.
  revert fuel visited cur. induction q as [|v q IH]; intros fuel visited cur; [done|].
  intros _ [He Hch] [Hv Hnd]%NoDup_cons Hdisj Hl Ht Hlen.
  destruct fuel as [|fuel]; simpl in Hlen; [lia|]. simpl.
  apply list_elem_of_In, in_flat_map. exists v. split.
  { by apply list_elem_of_In, elem_of_elements, elem_of_succs. }
  apply list_elem_of_In.
  rewrite decide_False by (apply Hdisj; by left).
  apply elem_of_app. destruct q as [|w q].
  - left. injection Hl as ->. rewrite decide_True by done.
    apply list_elem_of_singleton. by rewrite reverse_cons.
  - right. replace (reverse visited ++ v :: w :: q)
      with (reverse (v :: visited) ++ w :: q)
      by (by rewrite reverse_cons, <- app_assoc).
    apply IH; [done|done|done| |done|done|lia].
    intros x Hx [->|Hxv]%elem_of_cons; [done|].
    apply (Hdisj x); [by right|done].
Qed.

Lemma NoDup_length_le_size (l : list Node) (X : gset Node) :
  NoDup l → (∀ x, x ∈ l → x ∈ X) → length l ≤ size X.
Proof.
  intros Hnd Hin. rewrite <- (size_list_to_set (C := gset Node) l) by done.
  apply subseteq_size. intros x Hx%elem_of_list_to_set. by apply Hin.
Qed.

(** [nx.all_simple_paths] between two distinct nodes of the graph yields
    exactly the simple paths. *)
Lemma all_simple_paths_spec g s t :
  wf g → s ∈ nodes g → t ∈ nodes g → s ≠ t →
  ∃ ps, Gr.all_simple_paths g s t = Ret ps ∧ ∀ p, p ∈ ps ↔ simple_path g s t p.
Proof.
  intros Hwf Hs Ht Hst. unfold Gr.all_simple_paths.
  rewrite decide_True by done. rewrite (decide_True (P := t ∈ nodes g)) by done.
  rewrite decide_False by set_solver.
  eexists. split; [done|]. intros p. split.
  - intros (q & t' & -> & Hch & Hnd & Hdisj & Hl & ->%elem_of_singleton)%simple_paths_from_sound.
    exists q. simpl. split; [done|]. split; [by destruct q|]. split; [done|]. split.
    + apply NoDup_cons. split; [|done]. intros Hin. apply (Hdisj _ Hin).
      by apply list_elem_of_singleton.
    + by destruct q.
  - intros (q & -> & Hq & Hch & [Hsq Hnd]%NoDup_cons & Hl).
    change (s :: q) with (reverse [s] ++ q).
    apply (simple_paths_from_complete g _ _ [s] s q t); try done.
    + intros x Hx ->%list_elem_of_singleton. done.
    + by destruct q.
    + by apply elem_of_singleton.
    + assert (length (s :: q) ≤ size (nodes g)) as Hle; [|simpl in Hle; lia].
      apply NoDup_length_le_size; [by apply NoDup_cons|].
      intros x [->|Hx]%elem_of_cons; [done|]. by eapply chain_nodes.
Qed.

(** ** Causal vertices *)

Lemma simple_path_rtc g s t p : simple_path g s t p → rtc (edge g) s t.
Proof. intros (q & -> & _ & Hch & _ & Hl). by eapply chain_rtc. Qed.

Lemma simple_path_head g s t p : simple_path g s t p → s ∈ p.
Proof. intros (q & -> & _). by left. Qed.

Lemma simple_path_last g s t p : simple_path g s t p → t ∈ p.
Proof.
  intros (q & -> & _ & _ & _ & Hl). apply list_elem_of_lookup.
  exists (length q). by rewrite last_lookup in Hl.
Qed.

Lemma causal_vertices_loop (ps : list (list Node)) (acc : gset Node) h :
  ∃ A, for_loop ps acc (λ causal_vertices path,
         mret (Continue (causal_vertices ∪ list_to_set path))) h = (Ret A, h) ∧
       ∀ v, v ∈ A ↔ v ∈ acc ∨ ∃ p, p ∈ ps ∧ v ∈ p.
Proof.
  revert acc. induction ps as [|p ps IH]; intros acc; simpl.
  - exists acc. split; [done|]. intros v. split; [by left|].
    intros [?|(p & []%elem_of_nil & _)]. done.
  - destruct (IH (acc ∪ list_to_set p)) as (A & HA & HAv).
    exists A. split; [exact HA|]. intros v.
    rewrite HAv, elem_of_union, elem_of_list_to_set. split.
    + intros [[?|?]|(p' & ? & ?)]; [by left| |].
      * right. exists p. split; [by left|done].
      * right. exists p'. split; [by right|done].
    + intros [?|(p' & [->|?]%elem_of_cons & ?)]; [by left; left|by left; right|].
      right. by exists p'.
Qed.

Lemma causal_vertices_char h self g treatment outcome :
  deref h self = Some g → wf g →
  treatment ∈ nodes g → outcome ∈ nodes g → treatment ≠ outcome →
  (∃ p, simple_path g treatment outcome p) →
  ∃ V, causal_vertices self treatment outcome h = (Ret V, h) ∧
       (∀ v, v ∈ V ↔
             v ≠ treatment ∧ ∃ p, simple_path g treatment outcome p ∧ v ∈ p) ∧
       outcome ∈ V.
Proof.
  intros Hg Hwf Ht Ho Hne (p0 & Hp0).
  destruct (all_simple_paths_spec g treatment outcome Hwf Ht Ho Hne) as (ps & Hps & Hpsv).
  destruct (causal_vertices_loop ps ∅ h) as (A & HA & HAv).
  assert (∀ v, v ∈ A ↔ ∃ p, simple_path g treatment outcome p ∧ v ∈ p) as HAv'.
  { intros v. rewrite HAv. split.
    - intros [?%elem_of_empty|(p & Hp%Hpsv & ?)]; [done|]. by exists p.
    - intros (p & Hp%Hpsv & ?). right. by exists p. }
  exists (A ∖ {[treatment]}). split; [|split].
  - unfold causal_vertices, nx.all_simple_paths.
    rewrite !bind_run, (read_run _ _ g) by done. unfold lift. rewrite Hps.
    rewrite bind_run, HA. unfold set_remove. rewrite decide_True; [done|].
    apply HAv'. exists p0. split; [done|]. by eapply simple_path_head.
  - intros v. rewrite elem_of_difference, elem_of_singleton, HAv'. tauto.
  - apply elem_of_difference. split; [|by apply not_elem_of_singleton].
    apply HAv'. exists p0. split; [done|]. by eapply simple_path_last.
Qed.

(** X1.  Between two distinct nodes of a well-formed graph with a simple
    directed path from the first to the second, [causal_vertices] returns, on
    an unchanged store, exactly the nodes other than [treatment] that lie on
    some simple directed path from [treatment] to [outcome]; [outcome] is
    one of them. *)
Theorem causal_vertices_are_nodes_on_simple_paths h self g treatment outcome :
  deref h self = Some g → wf g →
  treatment ∈ nodes g → outcome ∈ nodes g → treatment ≠ outcome →
  (∃ p, simple_path g treatment outcome p) →
  ∃ V, causal_vertices self treatment outcome h = (Ret V, h) ∧
       (∀ v, v ∈ V ↔
             v ≠ treatment ∧ ∃ p, simple_path g treatment outcome p ∧ v ∈ p) ∧
       outcome ∈ V.
Proof. apply causal_vertices_char. Qed.

(** ** The back-door graph *)

Lemma simple_path_shape g s t p :
  simple_path g s t p → ∃ v rest, p = s :: v :: rest ∧ (s, v) ∈ edges g.
Proof.
  intros (q & -> & Hq & Hch & _). destruct q as [|v rest]; [done|].
  exists v, rest. split; [done|]. by destruct Hch.
Qed.

Lemma NoDup_omap_inj {A B} (f : A → option B) (l : list A) x y v :
  NoDup (omap f l) → x ∈ l → y ∈ l → f x = Some v → f y = Some v → x = y.
Proof.
  induction l as [|a l IH]; simpl; [by intros _ ?%elem_of_nil|].
  intros Hnd Hx Hy Hfx Hfy.
  destruct (f a) as [b|] eqn:Hfa.
  - apply NoDup_cons in Hnd as [Hb Hnd].
    apply elem_of_cons in Hx as [->|Hx]; apply elem_of_cons in Hy as [->|Hy].
    + done.
    + exfalso. apply Hb. apply list_elem_of_omap. exists y.
      split; [done|]. congruence.
    + exfalso. apply Hb. apply list_elem_of_omap. exists x.
      split; [done|]. congruence.
    + by apply IH.
  - apply elem_of_cons in Hx as [->|Hx]; [congruence|].
    apply elem_of_cons in Hy as [->|Hy]; [congruence|]. by apply IH.
Qed.

Lemma for_loop_cons {A S} (x : A) xs (s : S) body :
  for_loop (x :: xs) s body =
  (r ← body s x;
   match r with
   | Continue s' => for_loop xs s' body
   | Break s' => mret s'
   end).
Proof. reflexivity. Qed.

Lemma backdoor_body_run h gb e es :
  (first_edge ← index0 (e :: es);
   remove_edge (length h) first_edge.1 first_edge.2;;
   mret (Continue ())) (h ++ [OGraph gb]) =
  if decide ((e.1, e.2) ∈ edges gb)
  then (Ret (Continue ()),
        h ++ [OGraph (Graph (nodes gb) (edges gb ∖ {[(e.1, e.2)]}))])
  else (Raise NetworkXError, h ++ [OGraph gb]).
Proof.
  unfold index0. rewrite bind_run.
  change ((mret e : M _) (h ++ [OGraph gb])) with (Ret e, h ++ [OGraph gb]).
  cbv beta iota. rewrite bind_run. unfold remove_edge. rewrite update_last_run.
  unfold Gr.remove_edge. by case_decide.
Qed.

(** The loop of [backdoor_graph] over paths that all leave [t]: it either
    removes the first edge of each, which then are pairwise different edges
    of the graph, or ends in the [NetworkXError] of [remove_edge]. *)
Lemma backdoor_loop h t (ps : list (list Node)) gb r h' :
  (∀ p, p ∈ ps → ∃ v rest, p = t :: v :: rest) →
  for_loop (Gr.path_edges <$> ps) () (λ _ path,
    first_edge ← index0 path;
    remove_edge (length h) first_edge.1 first_edge.2;;
    mret (Continue ())) (h ++ [OGraph gb]) = (r, h') →
  match r with
  | Ret _ =>
      NoDup (omap second ps) ∧
      (∀ v, v ∈ omap second ps → (t, v) ∈ edges gb) ∧
      ∃ gb', h' = h ++ [OGraph gb'] ∧ nodes gb' = nodes gb ∧
             ∀ u v, (u, v) ∈ edges gb' ↔
                    (u, v) ∈ edges gb ∧ ¬ (u = t ∧ v ∈ omap second ps)
  | Raise e => e = NetworkXError
  end.
Proof.
  revert gb. induction ps as [|p ps IH]; intros gb Hshape.
  - simpl. intros [= <- <-]. split; [apply NoDup_nil_2|].
    split; [by intros v ?%elem_of_nil|]. exists gb.
    split; [done|]. split; [done|]. intros u v. split; [|tauto].
    intros He. split; [done|]. by intros [_ ?%elem_of_nil].
  - destruct (Hshape p) as (v0 & rest & ->); [by left|].
    rewrite fmap_cons. change (Gr.path_edges (t :: v0 :: rest))
      with ((t, v0) :: Gr.path_edges (v0 :: rest)).
    rewrite for_loop_cons, bind_run, backdoor_body_run. cbn [fst snd].
    destruct (decide ((t, v0) ∈ edges gb)) as [Hin|Hnin].
    2:{ intros [= <- _]. done. }
    intros Hrest.
    apply IH in Hrest; [|intros p' Hp'; apply Hshape; by right].
    destruct r as [[]|e]; [|done].
    destruct Hrest as (Hnd & Hheads & gb' & -> & Hn & He). simpl in *.
    split; [|split].
    + apply NoDup_cons. split; [|done]. intros Hv0%Hheads.
      apply elem_of_difference in Hv0 as [_ Hv0]. by apply Hv0, elem_of_singleton.
    + intros v [->|Hv%Hheads]%elem_of_cons; [done|].
      by apply elem_of_difference in Hv as [? _].
    + exists gb'. split; [done|]. split; [done|]. intros u v. rewrite He.
      rewrite elem_of_difference, elem_of_singleton, elem_of_cons. split.
      * intros [[Hin' Hne] Hno]. split; [done|]. intros [-> [->|Hv]]; [done|].
        apply Hno. done.
      * intros [Hin' Hno]. split; [split; [done|]|].
        -- intros [= -> ->]. apply Hno. split; [done|by left].
        -- intros [-> Hv]. apply Hno. split; [done|by right].
Qed.

Lemma chainb_chain g u q : chainb g u q = true → chain g u q.
Proof.
  revert u. induction q as [|v q IH]; intros u; simpl; [done|].
  intros [He Hq]%andb_true_iff. split; [by apply bool_decide_eq_true in He|by apply IH].
Qed.

Lemma simple_pathb_simple_path g s t p : simple_pathb g s t p = true → simple_path g s t p.
Proof.
  unfold simple_pathb. destruct p as [|s' [|v q]]; [done..|].
  intros [[[Hs Hc]%andb_true_iff Hnd]%andb_true_iff Hl]%andb_true_iff.
  apply bool_decide_eq_true in Hs as ->. apply bool_decide_eq_true in Hnd, Hl.
  exists (v :: q). split; [done|]. split; [done|]. split; [by apply chainb_chain|done].
Qed.

Lemma backdoor_graph_run h self g t o ps :
  deref h self = Some g → Gr.all_simple_paths g t o = Ret ps →
  backdoor_graph self t o h =
  match for_loop (Gr.path_edges <$> ps) () (λ _ path,
          first_edge ← index0 path;
          remove_edge (length h) first_edge.1 first_edge.2;;
          mret (Continue ())) (h ++ [OGraph g]) with
  | (Ret _, h') => (Ret (length h), h')
  | (Raise e, h') => (Raise e, h')
  end.
Proof.
  intros Hg Hps. unfold backdoor_graph, copy, nx.all_simple_edge_paths.
  rewrite !bind_run, (read_run _ _ g) by done. unfold alloc.
  rewrite !bind_run, (read_run _ _ g) by (by apply (deref_prefix h), Hg; apply prefix_app_r).
  unfold lift, Gr.all_simple_edge_paths. rewrite Hps, bind_run.
  by destruct (for_loop _ _ _ _) as [[[]|e] h1].
Qed.

Lemma backdoor_graph_char h self g treatment outcome Gbd h' :
  deref h self = Some g → wf g →
  treatment ∈ nodes g → outcome ∈ nodes g → treatment ≠ outcome →
  backdoor_graph self treatment outcome h = (Ret Gbd, h') →
  ∃ gb, Gbd = length h ∧ h' = h ++ [OGraph gb] ∧ nodes gb = nodes g ∧
        (∀ u v, (u, v) ∈ edges gb ↔
                (u, v) ∈ edges g ∧
                ¬ (u = treatment ∧
                   ∃ p, simple_path g treatment outcome p ∧ second p = Some v)) ∧
        ¬ ∃ p, simple_path gb treatment outcome p.
Proof.
  intros Hg Hwf Ht Ho Hne Hrun.
  destruct (all_simple_paths_spec g treatment outcome Hwf Ht Ho Hne) as (ps & Hps & Hpsv).
  rewrite (backdoor_graph_run _ _ g _ _ ps) in Hrun by done.
  destruct (for_loop _ _ _ _) as [r h1] eqn:Hloop.
  apply backdoor_loop with (t := treatment) in Hloop.
  2:{ intros p (v & rest & -> & _)%Hpsv%simple_path_shape. eauto. }
  destruct r as [[]|e]; [|done]. injection Hrun as <- <-.
  destruct Hloop as (_ & _ & gb & -> & Hn & He).
  assert (∀ v, v ∈ omap second ps ↔
               ∃ p, simple_path g treatment outcome p ∧ second p = Some v) as Hsec.
  { intros v. rewrite list_elem_of_omap. split.
    - intros (p & Hp%Hpsv & ?). by exists p.
    - intros (p & Hp%Hpsv & ?). by exists p. }
  assert (∀ u v, (u, v) ∈ edges gb ↔
                 (u, v) ∈ edges g ∧
                 ¬ (u = treatment ∧
                    ∃ p, simple_path g treatment outcome p ∧ second p = Some v)) as He'.
  { intros u v. rewrite He, Hsec. done. }
  exists gb. split; [done|]. split; [done|]. split; [done|]. split; [done|].
  intros (p & Hp).
  destruct (simple_path_shape _ _ _ _ Hp) as (v & rest & -> & Hev).
  apply He' in Hev as [_ Hno]. apply Hno. split; [done|].
  exists (treatment :: v :: rest). split; [|done].
  destruct Hp as (q & Hq & Hq0 & Hch & Hnd & Hl).
  exists q. split; [done|]. split; [done|]. split; [|done].
  eapply chain_subgraph; [|exact Hch]. intros [a b] Hab. by apply He' in Hab as [? _].
Qed.

(** X2.  Between two distinct nodes of a well-formed graph, when
    [backdoor_graph] returns: the result is a new graph object with the
    receiver's nodes; its edges are the receiver's, without the edges from
    [treatment] to the second node of any simple directed path from
    [treatment] to [outcome]; and it has no simple directed path from
    [treatment] to [outcome] left. *)
Theorem backdoor_graph_cuts_causal_paths h self g treatment outcome Gbd h' :
  deref h self = Some g → wf g →
  treatment ∈ nodes g → outcome ∈ nodes g → treatment ≠ outcome →
  backdoor_graph self treatment outcome h = (Ret Gbd, h') →
  ∃ gb, Gbd = length h ∧ h' = h ++ [OGraph gb] ∧ nodes gb = nodes g ∧
        (∀ u v, (u, v) ∈ edges gb ↔
                (u, v) ∈ edges g ∧
                ¬ (u = treatment ∧
                   ∃ p, simple_path g treatment outcome p ∧ second p = Some v)) ∧
        ¬ ∃ p, simple_path gb treatment outcome p.
Proof. apply backdoor_graph_char. Qed.

(** X3.  Between two distinct nodes of a well-formed graph, when two
    different simple directed paths from [treatment] to [outcome] start with
    the same edge, [backdoor_graph] ends in the [NetworkXError] of removing
    that edge a second time. *)
Theorem backdoor_graph_shared_first_edge_raises h self g treatment outcome p1 p2 :
  deref h self = Some g → wf g →
  treatment ∈ nodes g → outcome ∈ nodes g → treatment ≠ outcome →
  simple_path g treatment outcome p1 → simple_path g treatment outcome p2 →
  p1 ≠ p2 → second p1 = second p2 →
  (backdoor_graph self treatment outcome h).1 = Raise NetworkXError.
Proof.
  intros Hg Hwf Ht Ho Hne Hp1 Hp2 Hdiff Hsame.
  destruct (all_simple_paths_spec g treatment outcome Hwf Ht Ho Hne) as (ps & Hps & Hpsv).
  rewrite (backdoor_graph_run _ _ g _ _ ps) by done.
  destruct (for_loop _ _ _ _) as [r h1] eqn:Hloop.
  apply backdoor_loop with (t := treatment) in Hloop.
  2:{ intros p (v & rest & -> & _)%Hpsv%simple_path_shape. eauto. }
  destruct r as [[]|e]; [|by subst].
  destruct Hloop as (Hnd & _). exfalso. apply Hdiff.
  destruct (simple_path_shape _ _ _ _ Hp1) as (v & rest & -> & _).
  eapply (NoDup_omap_inj second ps _ _ v Hnd); [by apply Hpsv|by apply Hpsv|done|].
  by rewrite <- Hsame.
Qed.

(** ** Queries outside the intended domain *)

Lemma ancestors_all_returns h self g ns :
  deref h self = Some g → (∀ n, n ∈ ns → n ∈ nodes g) →
  ∃ A, ancestors_all self ns h = (Ret A, h) ∧ list_to_set ns ⊆ A.
Proof.
  intros Hg Hns.
  assert (∀ acc : gset Node, ∃ A,
    for_loop ns acc (λ ancestors node,
      ancestors_node ← nx.ancestors self node;
      mret (Continue (ancestors ∪ ancestors_node))) h = (Ret A, h)) as Hloop.
  { clear -Hg Hns. induction ns as [|n ns IH]; intros acc; simpl; [by exists acc|].
    rewrite !bind_run, (nx_ancestors_run _ _ g) by done.
    unfold Gr.ancestors. rewrite decide_True by (apply Hns; by left).
    apply IH. intros k Hk. apply Hns. by right. }
  destruct (Hloop ∅) as (A & HA). exists (A ∪ list_to_set ns).
  split; [|set_solver]. unfold ancestors_all. by rewrite bind_run, HA.
Qed.

Lemma all_simple_paths_unreachable g s t :
  s ∈ nodes g → t ∈ nodes g → ¬ rtc (edge g) s t → Gr.all_simple_paths g s t = Ret [].
Proof.
  intros Hs Ht Hno. unfold Gr.all_simple_paths.
  rewrite decide_True by done. rewrite (decide_True (P := t ∈ nodes g)) by done.
  case_decide; [done|].
  destruct (Gr.simple_paths_from _ _ _ _ _) as [|p ps] eqn:Hps; [done|].
  exfalso. apply Hno.
  assert (p ∈ Gr.simple_paths_from g {[t]} (size (nodes g) - 1) [s] s) as Hp
    by (rewrite Hps; by left).
  apply simple_paths_from_sound in Hp
    as (q & t' & _ & Hch & _ & _ & Hl & ->%elem_of_singleton).
  eapply chain_rtc; [exact Hch|]. by destruct q.
Qed.

Lemma rtc_edge_induced keep g s t :
  rtc (edge (Gr.induced keep g)) s t → rtc (edge g) s t.
Proof.
  apply rtc_subrel. intros x y. unfold edge. rewrite elem_of_edges_induced. tauto.
Qed.

Lemma set_of_run h N :
  readable h N → ∃ Ns, set_of N h = (Ret Ns, h).
Proof.
  destruct N as [l|G]; simpl; [by eexists|]. intros [g Hg].
  exists (nodes g). unfold nodes_of. by rewrite bind_run, (read_run _ _ g).
Qed.

Lemma readable_prefix c h N : c `prefix_of` h → readable c N → readable h N.
Proof.
  intros Hp. destruct N as [l|G]; simpl; [done|].
  intros [g Hg]. exists g. by eapply deref_prefix.
Qed.

Lemma ignore_unreachable h self g t o L N :
  deref h self = Some g → readable h N →
  (∀ n, n ∈ L → n ∈ nodes g) → t ∈ nodes g → o ∈ nodes g →
  ¬ rtc (edge g) t o →
  ignore self t o L N h = (Raise KeyError, h).
Proof.
  intros Hg HN HL Ht Ho Hno.
  assert (t ≠ o) as Hne by (intros ->; by apply Hno).
  destruct (ancestors_all_returns h self g (L ++ [t; o]) Hg) as (A & HA & Hsub).
  { intros n [?|Hn]%elem_of_app; [by apply HL|].
    apply elem_of_cons in Hn as [->|Hn]; [done|].
    by apply list_elem_of_singleton in Hn as ->. }
  destruct (set_of_run h N HN) as (Ns & HNs).
  unfold ignore. rewrite bind_run, HA. unfold set_remove.
  rewrite decide_True by (apply Hsub; set_solver).
  rewrite bind_run. change ((mret (A ∖ {[t]}) : M _) h) with (Ret (A ∖ {[t]}), h).
  cbv beta iota. rewrite decide_True by (apply elem_of_difference; split; [apply Hsub|]; set_solver).
  rewrite bind_run. change ((mret (A ∖ {[t]} ∖ {[o]}) : M _) h) with (Ret (A ∖ {[t]} ∖ {[o]}), h).
  cbv beta iota. unfold nodes_of at 1. rewrite !bind_run, (read_run _ _ g) by done.
  change ((mret (nodes g) : M _) h) with (Ret (nodes g), h). cbv beta iota.
  rewrite bind_run, HNs, bind_run. unfold forbidden.
  rewrite bind_run, (causal_vertices_no_path _ _ g); [done|done|].
  by apply all_simple_paths_unreachable.
Qed.

Lemma build_H0_unreachable h self g t o L :
  deref h self = Some g →
  (∀ n, n ∈ L → n ∈ nodes g) → t ∈ nodes g → o ∈ nodes g →
  ¬ rtc (edge g) t o →
  ∃ H0 ext, build_H0 self t o L h = (Ret H0, h ++ ext).
Proof.
  intros Hg HL Ht Ho Hno.
  destruct (ancestors_all_returns h self g (L ++ [t; o]) Hg) as (A & HA & Hsub).
  { intros n [?|Hn]%elem_of_app; [by apply HL|].
    apply elem_of_cons in Hn as [->|Hn]; [done|].
    by apply list_elem_of_singleton in Hn as ->. }
  set (g2 := Gr.induced A g).
  assert (deref (h ++ [OView self A]) (length h) = Some g2) as Hg2.
  { apply (deref_view h _ _ self A g); [by apply prefix_app_r|done|done|apply lookup_last]. }
  assert (Gr.all_simple_paths g2 t o = Ret []) as Hps.
  { apply all_simple_paths_unreachable.
    - unfold g2. simpl. apply elem_of_intersection. split; [done|]. apply Hsub. set_solver.
    - unfold g2. simpl. apply elem_of_intersection. split; [done|]. apply Hsub. set_solver.
    - intros Hr. by apply Hno, (rtc_edge_induced A). }
  unfold build_H0. rewrite bind_run, HA. unfold subgraph.
  rewrite !bind_run, (read_run _ _ g) by done. unfold alloc. cbv beta iota.
  rewrite bind_run, (backdoor_graph_run _ _ g2 _ _ []) by done. simpl.
  unfold nx.moral_graph. rewrite bind_run, (read_run _ _ g2) by apply deref_last.
  unfold alloc. eexists _, _. by rewrite <- !app_assoc.
Qed.

(** X4.  When the receiver has no directed path from [treatment] to
    [outcome], both nodes and those of [L] being in the graph: [ignore],
    [build_H1] and the three searches all end in the [KeyError] of
    [causal_vertices.remove(treatment)]. *)
Theorem no_causal_path_ends_in_KeyError ndp h self g treatment outcome L N :
  deref h self = Some g → readable h N →
  (∀ n, n ∈ L → n ∈ nodes g) → treatment ∈ nodes g → outcome ∈ nodes g →
  ¬ rtc (edge g) treatment outcome →
  (ignore self treatment outcome L N h).1 = Raise KeyError ∧
  (build_H1 self treatment outcome L N h).1 = Raise KeyError ∧
  (optimal_adj_set self treatment outcome L N h).1 = Raise KeyError ∧
  (optimal_minimal_adj_set self treatment outcome L N h).1 = Raise KeyError ∧
  (optimal_minimum_adj_set ndp self treatment outcome L N h).1 = Raise KeyError.
Proof.
  intros Hg HN HL Ht Ho Hno.
  assert ((build_H1 self treatment outcome L N h).1 = Raise KeyError) as HH1.
  { destruct (build_H0_unreachable h self g treatment outcome L) as (H0 & ext & HH0);
      try done.
    unfold build_H1. rewrite bind_run, HH0, bind_run.
    rewrite (ignore_unreachable _ _ g); try done.
    - by apply (deref_prefix h); [apply prefix_app_r|].
    - by apply (readable_prefix h); [apply prefix_app_r|]. }
  split; [by rewrite (ignore_unreachable _ _ g)|]. split; [done|].
  unfold optimal_adj_set, optimal_minimal_adj_set, optimal_minimum_adj_set.
  rewrite !bind_run.
  destruct (build_H1 self treatment outcome L N h) as [[l|e] h1]; simpl in *; [done|].
  injection HH1 as ->. by repeat apply conj.
Qed.

Lemma ignore_same_endpoints self t L N h I h' : ignore self t t L N h ≠ (Ret I, h').
Proof.
  unfold ignore. intros (set1 & h1 & _ & Hk)%bind_inv.
  apply bind_inv in Hk as (set1' & h2 & (-> & _ & ->)%set_remove_inv & Hk).
  apply bind_inv in Hk as (set1'' & h3 & (-> & Hin & ->)%set_remove_inv & Hk).
  set_solver.
Qed.

(** X5.  With [treatment] and [outcome] the same node, neither [ignore] nor
    [build_H1] nor any of the three searches ever returns: the second
    [set1.remove] finds the node already removed. *)
Theorem same_endpoints_never_return ndp self t L N h :
  (∀ I h', ignore self t t L N h ≠ (Ret I, h')) ∧
  (∀ H1 h', build_H1 self t t L N h ≠ (Ret H1, h')) ∧
  (∀ a h', optimal_adj_set self t t L N h ≠ (Ret a, h')) ∧
  (∀ Z h', optimal_minimal_adj_set self t t L N h ≠ (Ret Z, h')) ∧
  (∀ Z h', optimal_minimum_adj_set ndp self t t L N h ≠ (Ret Z, h')).
Proof.
  assert (∀ h H1 h', build_H1 self t t L N h ≠ (Ret H1, h')) as HH1.
  { intros h0 H1 h' (hmid & I & _ & _ & _ & HI & _)%build_H1_inv.
    by apply ignore_same_endpoints in HI. }
  split; [intros; apply ignore_same_endpoints|]. split; [apply HH1|].
  split; [|split]; intros a h' (H1 & h1 & Hb & _)%bind_inv; by apply HH1 in Hb.
Qed.

(** ** The unblocked set *)

(** The component search in a graph with the nodes of [C] removed finds the
    nodes reachable by a path that stays clear of [C]. *)
Lemma bfs_induced_spec g C s x :
  wf g → s ∈ nodes g → s ∉ C →
  let g' := Gr.induced (nodes g ∖ C) g in
  x ∈ Gr.bfs g' (Gr.succs g') s ↔ rtc (step_avoiding g C) s x.
Proof.
  intros Hwf Hs HsC g'.
  rewrite <- (rtc_iff (edge g')) by (intros; by apply step_avoiding_induced).
  rewrite <- rtc_succs_edge. unfold Gr.bfs. split.
  - by intros (y & ->%elem_of_singleton & Hr)%grow_sound.
  - apply grow_complete.
    + apply closed_succs_nodes, wf_induced. set_solver.
    + unfold g'. simpl. set_solver.
Qed.

Lemma rtc_step_avoiding_clear g C s x :
  s ∉ C → rtc (step_avoiding g C) s x → x ∉ C.
Proof. intros Hs Hr. induction Hr as [|a b c (_ & _ & Hb) _ IH]; [done|]. by apply IH. Qed.

Lemma rtc_step_avoiding_nodes g C s x :
  wf g → s ∈ nodes g → rtc (step_avoiding g C) s x → x ∈ nodes g.
Proof.
  intros Hwf Hs Hr. induction Hr as [|a b c (He & _ & _) _ IH]; [done|].
  apply IH. by destruct (Hwf _ _ He).
Qed.

Lemma unblocked_run h H g t Z :
  deref h H = Some g →
  unblocked H t Z h =
  let g2 := Gr.induced (nodes g ∖ Z) g in
  let h' := h ++ [OView H (nodes g ∖ Z)] in
  match Gr.node_connected_component g2 t with
  | Ret B => (Ret (Gr.node_boundary g B), h')
  | Raise e => (Raise e, h')
  end.
Proof.
  intros Hg. unfold unblocked, nodes_of, subgraph, nx.node_connected_component,
    nx.node_boundary.
  rewrite !bind_run, (read_run _ _ g) by done.
  change ((mret (nodes g) : M _) h) with (Ret (nodes g), h). cbv beta iota.
  rewrite !bind_run, (read_run _ _ g) by done. unfold alloc.
  rewrite !bind_run.
  rewrite (read_run _ _ (Gr.induced (nodes g ∖ Z) g)).
  2:{ apply (deref_view h _ _ H _ g); [by apply prefix_app_r|done|done|apply lookup_last]. }
  unfold lift. cbv zeta.
  destruct (Gr.node_connected_component _ t) as [B|e]; [|done].
  rewrite bind_run, (read_run _ _ g); [done|].
  by apply (deref_prefix h); [apply prefix_app_r|].
Qed.

Lemma unblocked_char h H g treatment Z :
  deref h H = Some g → wf g → treatment ∈ nodes g → treatment ∉ Z →
  ∃ U, (unblocked H treatment Z h).1 = Ret U ∧
       (∀ v, v ∈ U ↔
             v ∈ Z ∧ ∃ b, rtc (step_avoiding g Z) treatment b ∧ (b, v) ∈ edges g) ∧
       U ⊆ Z.
Proof.
  intros Hg Hwf Ht HtZ.
  set (g2 := Gr.induced (nodes g ∖ Z) g).
  set (B := Gr.bfs g2 (Gr.succs g2) treatment).
  assert (∀ v, v ∈ Gr.node_boundary g B ↔
               v ∈ Z ∧ ∃ b, rtc (step_avoiding g Z) treatment b ∧ (b, v) ∈ edges g)
    as Hchar.
  { intros v. unfold Gr.node_boundary.
    rewrite elem_of_difference, elem_of_set_bind. split.
    - intros [(b & [HbB Hbn]%elem_of_intersection & Hbv%elem_of_succs) Hv].
      apply bfs_induced_spec in HbB; [|done..].
      destruct (Hwf _ _ Hbv) as [_ Hvn].
      destruct (decide (v ∈ Z)) as [HvZ|HvZ]; [split; [done|]; by exists b|].
      exfalso. apply Hv. apply elem_of_intersection. split; [|done].
      apply bfs_induced_spec; [done..|].
      eapply rtc_r; [exact HbB|]. split; [done|].
      split; [exact (rtc_step_avoiding_clear g Z treatment b HtZ HbB)|done].
    - intros [HvZ (b & Hb & Hbv)]. split.
      + exists b. split; [|by apply elem_of_succs].
        apply elem_of_intersection. split; [by apply bfs_induced_spec|].
        exact (rtc_step_avoiding_nodes g Z treatment b Hwf Ht Hb).
      + intros [HvB _]%elem_of_intersection.
        apply bfs_induced_spec in HvB; [|done..].
        exact (rtc_step_avoiding_clear g Z treatment v HtZ HvB HvZ). }
  exists (Gr.node_boundary g B). split; [|split; [done|]].
  - rewrite (unblocked_run _ _ g) by done. cbv zeta.
    unfold Gr.node_connected_component. rewrite decide_True; [done|].
    simpl. set_solver.
  - intros v Hv. by apply Hchar in Hv as [? _].
Qed.

(** X6.  On a well-formed graph with [treatment] a node outside [Z],
    [unblocked] returns exactly the nodes of [Z] that have a neighbour
    reachable from [treatment] by a path clear of [Z] (a neighbour in the
    component of [treatment] once [Z] is removed); in particular it returns
    a subset of [Z]. *)
Theorem unblocked_is_reachable_part_of_Z h H g treatment Z :
  deref h H = Some g → wf g → treatment ∈ nodes g → treatment ∉ Z →
  ∃ U, (unblocked H treatment Z h).1 = Ret U ∧
       (∀ v, v ∈ U ↔
             v ∈ Z ∧ ∃ b, rtc (step_avoiding g Z) treatment b ∧ (b, v) ∈ edges g) ∧
       U ⊆ Z.
Proof. apply unblocked_char. Qed.

(** X7.  With [treatment] in [Z], or not a node of the graph, [unblocked]
    ends in the [KeyError] of [nx.node_connected_component]: [treatment] is
    not in the subgraph it searches. *)
Theorem unblocked_treatment_removed_raises_KeyError h H g treatment Z :
  deref h H = Some g → treatment ∈ Z ∨ treatment ∉ nodes g →
  (unblocked H treatment Z h).1 = Raise KeyError.
Proof.
  intros Hg Ht. rewrite (unblocked_run _ _ g) by done. cbv zeta.
  unfold Gr.node_connected_component. rewrite decide_False; [done|].
  simpl. set_solver.
Qed.

(** ** Moralization *)

Lemma elem_of_co_parents g p q :
  (p, q) ∈ Gr.co_parents g ↔
  p ≠ q ∧ ∃ c, c ∈ nodes g ∧ (p, c) ∈ edges g ∧ (q, c) ∈ edges g.
Proof.
  unfold Gr.co_parents. rewrite elem_of_set_bind. split.
  - intros (c & Hc & (p' & Hp'%elem_of_preds & (q' & Hq'%elem_of_preds & Hpq)%elem_of_set_bind)%elem_of_set_bind).
    destruct (decide (p' = q')) as [|Hne]; [by apply elem_of_empty in Hpq|].
    apply elem_of_singleton in Hpq as [= -> ->]. split; [done|]. by exists c.
  - intros [Hne (c & Hc & Hp & Hq)]. exists c. split; [done|].
    apply elem_of_set_bind. exists p. split; [by apply elem_of_preds|].
    apply elem_of_set_bind. exists q. split; [by apply elem_of_preds|].
    rewrite decide_False by done. by apply elem_of_singleton.
Qed.

Lemma elem_of_edges_moral g u v :
  (u, v) ∈ edges (Gr.moral_graph g) ↔
  (u, v) ∈ edges g ∨ (v, u) ∈ edges g ∨ (u, v) ∈ Gr.co_parents g.
Proof.
  unfold Gr.moral_graph, Gr.to_undirected. simpl.
  rewrite !elem_of_union, elem_of_map. split.
  - intros [[?|([a b] & [= -> ->] & ?)]|?]; auto.
  - intros [?|[?|?]]; auto. left. right. by exists (v, u).
Qed.

Lemma undirected_moral g : undirected (Gr.moral_graph g).
Proof.
  intros u v. rewrite !elem_of_edges_moral, !elem_of_co_parents.
  intros [?|[?|[Hne (c & ? & ? & ?)]]]; auto.
  right. right. split; [done|]. by exists c.
Qed.

Lemma wf_moral g : wf g → wf (Gr.moral_graph g).
Proof.
  intros Hwf u v. rewrite elem_of_edges_moral.
  unfold Gr.moral_graph, Gr.to_undirected. simpl.
  intros [He|[He|Hcp]].
  - destruct (Hwf _ _ He). set_solver.
  - destruct (Hwf _ _ He). set_solver.
  - apply elem_of_co_parents in Hcp as [_ (c & _ & Hu & Hv)].
    destruct (Hwf _ _ Hu), (Hwf _ _ Hv). set_solver.
Qed.

Lemma nodes_moral g : wf g → nodes (Gr.moral_graph g) = nodes g.
Proof.
  intros Hwf. unfold Gr.moral_graph, Gr.to_undirected. simpl.
  apply set_eq. intros x. rewrite elem_of_union, elem_of_map. split; [|by left].
  intros [?|([p q] & -> & [_ (c & _ & Hu & _)]%elem_of_co_parents)]; [done|].
  by destruct (Hwf _ _ Hu).
Qed.

Lemma wf_induced_of_wf keep g : wf g → wf (Gr.induced keep g).
Proof.
  intros Hwf u v (He & Hu & Hv)%elem_of_edges_induced.
  destruct (Hwf _ _ He). simpl. set_solver.
Qed.

Lemma undirected_induced keep g : undirected g → undirected (Gr.induced keep g).
Proof.
  intros Hu u v (He & ? & ?)%elem_of_edges_induced.
  apply elem_of_edges_induced. auto.
Qed.

(** ** H0 *)

(** What [ancestors_all] returns for nodes of a well-formed graph. *)
Lemma ancestors_all_char h self g ns :
  deref h self = Some g → wf g → (∀ n, n ∈ ns → n ∈ nodes g) →
  ∃ A, ancestors_all self ns h = (Ret A, h) ∧
       ∀ m, m ∈ A ↔ m ∈ ns ∨ ∃ n, n ∈ ns ∧ m ≠ n ∧ rtc (edge g) m n.
Proof.
  intros Hg Hwf Hns.
  assert (∀ acc : gset Node, ∃ A,
    for_loop ns acc (λ ancestors node,
      ancestors_node ← nx.ancestors self node;
      mret (Continue (ancestors ∪ ancestors_node))) h = (Ret A, h) ∧
    ∀ m, m ∈ A ↔ m ∈ acc ∨ ∃ n, n ∈ ns ∧ m ≠ n ∧ rtc (edge g) m n) as Hloop.
  { clear -Hg Hwf Hns. induction ns as [|n ns IH]; intros acc.
    - exists acc. split; [done|]. intros m. split; [by left|].
      intros [?|(n & []%elem_of_nil & _)]. done.
    - destruct (ancestors_spec g n Hwf) as (X & HX & HXm); [apply Hns; by left|].
      destruct (IH (λ k Hk, Hns k (list_elem_of_further _ _ _ Hk)) (acc ∪ X))
        as (A & HA & HAm).
      exists A. split.
      + rewrite for_loop_cons, bind_run, bind_run, (nx_ancestors_run _ _ g), HX by done.
        exact HA.
      + intros m. rewrite HAm, elem_of_union, HXm. split.
        * intros [[?|[? ?]]|(k & Hk & ?)]; [by left| |].
          -- right. exists n. split; [by left|done].
          -- right. exists k. split; [by right|done].
        * intros [?|(k & [->|Hk]%elem_of_cons & ? & ?)]; [by left;left| |].
          -- left. by right.
          -- right. by exists k. }
  destruct (Hloop ∅) as (A & HA & HAm).
  exists (A ∪ list_to_set ns). split.
  - unfold ancestors_all. by rewrite bind_run, HA.
  - intros m. rewrite elem_of_union, HAm, elem_of_list_to_set, elem_of_empty. tauto.
Qed.

Lemma rtc_edge_source_node g x y : wf g → x ≠ y → rtc (edge g) x y → x ∈ nodes g.
Proof.
  intros Hwf Hne Hr. destruct Hr as [|x z y He _]; [done|]. by destruct (Hwf _ _ He).
Qed.

Lemma chain_reaches_last g u q t x :
  chain g u q → last (u :: q) = Some t → x ∈ u :: q → rtc (edge g) x t.
Proof.
  revert u. induction q as [|v q IH]; intros u Hch Hl Hx.
  - apply list_elem_of_singleton in Hx as ->. by injection Hl as ->.
  - destruct Hch as [He Hch]. apply elem_of_cons in Hx as [->|Hx].
    + eapply rtc_l; [exact He|]. by eapply chain_rtc.
    + by apply (IH v).
Qed.

Lemma chain_induced keep g u q :
  chain g u q → u ∈ keep → (∀ x, x ∈ q → x ∈ keep) → chain (Gr.induced keep g) u q.
Proof.
  revert u. induction q as [|v q IH]; intros u; simpl; [done|].
  intros [He Hch] Hu Hq. split.
  - apply elem_of_edges_induced. split; [done|]. split; [done|]. apply Hq. by left.
  - apply IH; [done|apply Hq; by left|]. intros x Hx. apply Hq. by right.
Qed.

(** In a set that contains [t] and every ancestor of its members, the
    simple paths to [t] are those of the whole graph. *)
Lemma simple_path_induced_closed g (A : gset Node) s t p :
  (∀ x y, y ∈ A → rtc (edge g) x y → x ∈ A) → t ∈ A →
  simple_path (Gr.induced A g) s t p ↔ simple_path g s t p.
Proof.
  intros Hcl Ht. split.
  - intros (q & -> & Hq & Hch & Hnd & Hl). exists q.
    split; [done|]. split; [done|]. split; [|done].
    eapply chain_subgraph; [|exact Hch].
    intros [a b] Hab. by apply elem_of_edges_induced in Hab as [? _].
  - intros (q & -> & Hq & Hch & Hnd & Hl). exists q.
    split; [done|]. split; [done|]. split; [|done].
    assert (∀ x, x ∈ s :: q → x ∈ A) as HA.
    { intros x Hx. apply (Hcl x t Ht). by eapply chain_reaches_last. }
    apply chain_induced; [done|apply HA; by left|].
    intros x Hx. apply HA. by right.
Qed.

Lemma build_H0_char h self g t o L H0 h' :
  deref h self = Some g → wf g → t ≠ o →
  build_H0 self t o L h = (Ret H0, h') →
  ∃ anc gb,
    ancestors_all self (L ++ [t; o]) h = (Ret anc, h) ∧
    (∀ m, m ∈ anc ↔ m ∈ L ++ [t; o] ∨
                    ∃ n, n ∈ L ++ [t; o] ∧ m ≠ n ∧ rtc (edge g) m n) ∧
    anc ⊆ nodes g ∧
    H0 = S (S (length h)) ∧
    h' = ((h ++ [OView self anc]) ++ [OGraph gb]) ++ [OGraph (Gr.moral_graph gb)] ∧
    nodes gb = anc ∧ wf gb ∧
    ∀ a b, (a, b) ∈ edges gb ↔ backdoor_edge g anc t o a b.
Proof.
  intros Hg Hwf Hne. unfold build_H0.
  intros (anc & h1 & HA & Hk)%bind_inv.
  destruct (ancestors_all_inv _ _ _ _ _ HA) as (-> & Hsub & Hin).
  assert (∀ n, n ∈ L ++ [t; o] → n ∈ nodes g) as Hns.
  { intros n Hn. destruct (Hin n Hn) as (g' & Hg' & ?). congruence. }
  destruct (ancestors_all_char h self g _ Hg Hwf Hns) as (anc' & HA' & Hchar).
  assert (anc' = anc) as -> by congruence.
  assert (anc ⊆ nodes g) as Hanc.
  { intros m [Hm|(n & Hn & Hmn & Hr)]%Hchar; [by apply Hns|].
    by eapply rtc_edge_source_node. }
  assert (t ∈ anc ∧ o ∈ anc) as [Ht Ho].
  { split; apply Hchar; left; set_solver. }
  apply bind_inv in Hk as (G2 & h2 & (? & _ & -> & ->)%subgraph_inv & Hk).
  set (g2 := Gr.induced anc g).
  assert (deref (h ++ [OView self anc]) (length h) = Some g2) as Hg2.
  { apply (deref_view h _ _ self anc g); [by apply prefix_app_r|done|done|apply lookup_last]. }
  apply bind_inv in Hk as (G3 & h3 & Hbd & Hk).
  apply (backdoor_graph_char _ _ g2) in Hbd as (gb & -> & -> & Hnb & Heb & _);
    [|done|by apply wf_induced_of_wf|simpl; set_solver|simpl; set_solver|done].
  apply moral_graph_inv in Hk as (g3 & Hg3 & -> & ->).
  rewrite deref_last in Hg3. injection Hg3 as <-.
  subst g2. exists anc, gb. split; [done|]. split; [done|]. split; [done|].
  split; [rewrite !length_app; simpl; lia|]. split; [done|].
  assert (nodes gb = anc) as Hnodes by (rewrite Hnb; simpl; set_solver).
  split; [done|]. split.
  - intros a b [(Hab & Ha & Hb)%elem_of_edges_induced _]%Heb. rewrite Hnodes. done.
  - intros a b. rewrite Heb, elem_of_edges_induced. unfold backdoor_edge.
    assert (∀ p, simple_path (Gr.induced anc g) t o p ↔ simple_path g t o p) as Hsp.
    { intros p. apply simple_path_induced_closed; [|done].
      intros a0 b0 Hy Hr. destruct (decide (a0 = b0)) as [->|Hxy]; [done|].
      apply Hchar in Hy as [Hy|(n & Hn & Hyn & Hyr)].
      - apply Hchar. destruct (decide (a0 ∈ L ++ [t; o])); [by left|].
        right. exists b0. done.
      - apply Hchar. destruct (decide (a0 ∈ L ++ [t; o])) as [|Hx]; [by left|].
        right. exists n. split; [done|]. split; [by intros ->|by etrans]. }
    split.
    + intros [(Hab & Ha & Hb) Hno]. split; [done|]. split; [done|]. split; [done|].
      intros [-> (p & Hp & Hs)]. apply Hno. split; [done|]. exists p. by rewrite Hsp.
    + intros (Hab & Ha & Hb & Hno). split; [done|].
      intros [-> (p & Hp & Hs)]. apply Hno. split; [done|]. exists p. by rewrite <- Hsp.
Qed.

(** X8.  For a well-formed receiver and distinct [treatment] and [outcome],
    when [build_H0] returns: H0 is a new undirected graph on exactly
    [ancestors_all(L + [treatment, outcome])]; two nodes are adjacent in it
    exactly when an edge of the back-door graph of the ancestral subgraph
    joins them, in either direction, or when they are different and both
    have such an edge to a common child. *)
Theorem build_H0_is_moral_ancestral_backdoor_graph h self g treatment outcome L H0 h' :
  deref h self = Some g → wf g → treatment ≠ outcome →
  build_H0 self treatment outcome L h = (Ret H0, h') →
  ∃ anc g0,
    ancestors_all self (L ++ [treatment; outcome]) h = (Ret anc, h) ∧
    length h ≤ H0 ∧ h' !! H0 = Some (OGraph g0) ∧
    nodes g0 = anc ∧ wf g0 ∧ undirected g0 ∧
    ∀ u v, (u, v) ∈ edges g0 ↔
           backdoor_edge g anc treatment outcome u v ∨
           backdoor_edge g anc treatment outcome v u ∨
           (u ≠ v ∧ ∃ c, backdoor_edge g anc treatment outcome u c ∧
                         backdoor_edge g anc treatment outcome v c).
Proof.
  intros Hg Hwf Hne Hrun.
  destruct (build_H0_char _ _ _ _ _ _ _ _ Hg Hwf Hne Hrun)
    as (anc & gb & HA & _ & _ & -> & -> & Hn & Hwfb & He).
  exists anc, (Gr.moral_graph gb). split; [done|]. split; [lia|]. split.
  { replace (S (S (length h))) with (length ((h ++ [OView self anc]) ++ [OGraph gb])).
    - apply lookup_last.
    - rewrite !length_app. simpl. lia. }
  split; [by rewrite nodes_moral|]. split; [by apply wf_moral|].
  split; [apply undirected_moral|].
  intros u v. rewrite elem_of_edges_moral, elem_of_co_parents, !He.
  split; (intros [?|[?|[? (c & Hc)]]]; [by left|by right; left|right; right]).
  - split; [done|]. destruct Hc as (_ & Hu & Hv). exists c. by rewrite <- !He.
  - split; [done|]. exists c. rewrite !He. split; [|done].
    destruct Hc as [(_ & _ & Hcanc & _) _]. by rewrite Hn.
Qed.

(** ** H1: the loops *)

Lemma add_edge_last_run h g u v :
  add_edge (length h) u v (h ++ [OGraph g]) = (Ret (), h ++ [OGraph (Gr.add_edge u v g)]).
Proof. unfold add_edge. by rewrite update_last_run. Qed.

Lemma H1_paths_loop hpre g' (I : gset Node) u v (ps : list (list Node)) :
  for_loop ps () (λ _ path,
    if decide (list_to_set path ⊆ I ∪ {[u; v]}) then
      add_edge (length hpre) u v;;
      mret (Break ())
    else mret (Continue ())) (hpre ++ [OGraph g']) =
  (Ret (), hpre ++ [OGraph (if bool_decide (Exists (λ p : list Node, list_to_set p ⊆ I ∪ {[u; v]}) ps)
                            then Gr.add_edge u v g' else g')]).
Proof.
  induction ps as [|p ps IH].
  - rewrite bool_decide_eq_false_2 by (by intros ?%Exists_nil). done.
  - rewrite for_loop_cons, bind_run. destruct (decide (list_to_set p ⊆ I ∪ {[u; v]})) as [Hp|Hp].
    + rewrite bind_run, add_edge_last_run.
      by rewrite bool_decide_eq_true_2 by (by apply Exists_cons_hd).
    + change ((mret (Continue ()) : M _) (hpre ++ [OGraph g']))
        with (Ret (Continue ()) : result (flow ()), hpre ++ [OGraph g']).
      cbv beta iota. rewrite IH.
      destruct (decide (Exists (λ p : list Node, list_to_set p ⊆ I ∪ {[u; v]}) ps)) as [He|He].
      * by rewrite !bool_decide_eq_true_2 by (done || by apply Exists_cons_tl).
      * rewrite !bool_decide_eq_false_2; [done| |done].
        by intros [?|?]%Exists_cons.
Qed.

Lemma all_simple_paths_returns g s t :
  s ∈ nodes g → ∃ ps, Gr.all_simple_paths g s t = Ret ps.
Proof.
  intros Hs. unfold Gr.all_simple_paths. rewrite decide_True by done.
  case_decide; by eexists.
Qed.

Lemma H1_targets_loop hpre H0 g0 g' (I : gset Node) u (vs : list Node) :
  deref hpre H0 = Some g0 → u ∈ nodes g0 →
  for_loop vs () (λ _ node2,
    paths ← nx.all_simple_paths H0 u node2;
    for_loop paths () (λ _ path,
      if decide (list_to_set path ⊆ I ∪ {[u; node2]}) then
        add_edge (length hpre) u node2;;
        mret (Break ())
      else mret (Continue ()));;
    mret (Continue ())) (hpre ++ [OGraph g']) =
  (Ret (), hpre ++ [OGraph (foldl (λ acc v, join g0 I u v acc) g' vs)]).
Proof.
  intros HH0 Hu. revert g'. induction vs as [|v vs IH]; intros g'; [done|].
  rewrite for_loop_cons, bind_run. unfold nx.all_simple_paths at 1.
  rewrite !bind_run, (read_run _ _ g0) by (by apply (deref_prefix hpre); [apply prefix_app_r|]).
  unfold lift. destruct (all_simple_paths_returns g0 u v Hu) as (ps & Hps).
  rewrite Hps, bind_run, H1_paths_loop.
  change ((mret (Continue ()) : M (flow ())) ?h) with (Ret (Continue ()) : result (flow ()), h).
  simpl foldl. rewrite <- IH. unfold join, joins. rewrite Hps. done.
Qed.

Lemma H1_pairs_loop hpre H0 g0 g' (I : gset Node) (vl : list Node) (xs : list (nat * Node)) :
  deref hpre H0 = Some g0 → (∀ x, x ∈ xs → x.2 ∈ nodes g0) →
  for_loop xs () (λ _ '(i, node1),
    for_loop (drop (i + 1) vl) () (λ _ node2,
      paths ← nx.all_simple_paths H0 node1 node2;
      for_loop paths () (λ _ path,
        if decide (list_to_set path ⊆ I ∪ {[node1; node2]}) then
          add_edge (length hpre) node1 node2;;
          mret (Break ())
        else mret (Continue ()));;
      mret (Continue ()));;
    mret (Continue ())) (hpre ++ [OGraph g']) =
  (Ret (), hpre ++ [OGraph (foldl (join_later g0 I vl) g' xs)]).
Proof.
  intros HH0 Hxs. revert g'. induction xs as [|[i u] xs IH]; intros g'; [done|].
  rewrite for_loop_cons, bind_run, bind_run.
  rewrite (H1_targets_loop hpre H0 g0) by (done || apply (Hxs (i, u)); by left).
  change ((mret (Continue ()) : M (flow ())) ?h) with (Ret (Continue ()) : result (flow ()), h).
  simpl foldl. rewrite <- IH by (intros x Hx; apply Hxs; by right). done.
Qed.

Lemma H1_forced_loop hpre g' t o (L : list Node) :
  for_loop L () (λ _ node,
    add_edge (length hpre) t node;;
    add_edge (length hpre) node o;;
    mret (Continue ())) (hpre ++ [OGraph g']) =
  (Ret (), hpre ++ [OGraph (foldl (force_edges t o) g' L)]).
Proof.
  revert g'. induction L as [|l L IH]; intros g'; [done|].
  rewrite for_loop_cons, !bind_run, add_edge_last_run, bind_run, add_edge_last_run.
  change ((mret (Continue ()) : M (flow ())) ?h) with (Ret (Continue ()) : result (flow ()), h).
  simpl foldl. by rewrite <- IH.
Qed.

(** ** H1: what the loops add *)

Lemma elem_of_edges_join g0 I u v g a b :
  (a, b) ∈ edges (join g0 I u v g) ↔
  (a, b) ∈ edges g ∨ (joins g0 I u v = true ∧ ((a = u ∧ b = v) ∨ (a = v ∧ b = u))).
Proof.
  unfold join. destruct (joins g0 I u v); [|naive_solver].
  unfold Gr.add_edge. simpl. rewrite elem_of_union. set_solver.
Qed.

Lemma elem_of_nodes_join g0 I u v g x :
  x ∈ nodes (join g0 I u v g) ↔
  x ∈ nodes g ∨ (joins g0 I u v = true ∧ (x = u ∨ x = v)).
Proof.
  unfold join. destruct (joins g0 I u v); [|naive_solver].
  unfold Gr.add_edge. simpl. set_solver.
Qed.

Lemma edges_fold_join g0 I u vs g a b :
  (a, b) ∈ edges (foldl (λ acc v, join g0 I u v acc) g vs) ↔
  (a, b) ∈ edges g ∨
  ∃ v, v ∈ vs ∧ joins g0 I u v = true ∧ ((a = u ∧ b = v) ∨ (a = v ∧ b = u)).
Proof.
  revert g. induction vs as [|v vs IH]; intros g; simpl.
  - split; [by left|]. by intros [?|(v & ?%elem_of_nil & _)].
  - rewrite IH, elem_of_edges_join. split.
    + intros [[?|[? ?]]|(w & ? & ?)]; [by left| |].
      * right. exists v. split; [by left|done].
      * right. exists w. split; [by right|done].
    + intros [?|(w & [->|?]%elem_of_cons & ?)]; [by left; left|by left; right|].
      right. by exists w.
Qed.

Lemma nodes_fold_join g0 I u vs g x :
  x ∈ nodes (foldl (λ acc v, join g0 I u v acc) g vs) ↔
  x ∈ nodes g ∨ ∃ v, v ∈ vs ∧ joins g0 I u v = true ∧ (x = u ∨ x = v).
Proof.
  revert g. induction vs as [|v vs IH]; intros g; simpl.
  - split; [by left|]. by intros [?|(v & ?%elem_of_nil & _)].
  - rewrite IH, elem_of_nodes_join. split.
    + intros [[?|[? ?]]|(w & ? & ?)]; [by left| |].
      * right. exists v. split; [by left|done].
      * right. exists w. split; [by right|done].
    + intros [?|(w & [->|?]%elem_of_cons & ?)]; [by left; left|by left; right|].
      right. by exists w.
Qed.

Lemma edges_fold_join_later g0 I vl xs g a b :
  (a, b) ∈ edges (foldl (join_later g0 I vl) g xs) ↔
  (a, b) ∈ edges g ∨
  ∃ x v, x ∈ xs ∧ v ∈ drop (x.1 + 1) vl ∧ joins g0 I x.2 v = true ∧
         ((a = x.2 ∧ b = v) ∨ (a = v ∧ b = x.2)).
Proof.
  revert g. induction xs as [|y xs IH]; intros g; simpl.
  - split; [by left|]. by intros [?|(x & v & ?%elem_of_nil & _)].
  - rewrite IH. unfold join_later. rewrite edges_fold_join. split.
    + intros [[?|(v & ? & ?)]|(x & v & ? & ?)]; [by left| |].
      * right. exists y, v. split; [by left|done].
      * right. exists x, v. split; [by right|done].
    + intros [?|(x & v & [->|?]%elem_of_cons & ?)]; [by left; left| |].
      * left. right. by exists v.
      * right. by exists x, v.
Qed.

Lemma nodes_fold_join_later g0 I vl xs g x0 :
  x0 ∈ nodes (foldl (join_later g0 I vl) g xs) ↔
  x0 ∈ nodes g ∨
  ∃ x v, x ∈ xs ∧ v ∈ drop (x.1 + 1) vl ∧ joins g0 I x.2 v = true ∧
         (x0 = x.2 ∨ x0 = v).
Proof.
  revert g. induction xs as [|y xs IH]; intros g; simpl.
  - split; [by left|]. by intros [?|(x & v & ?%elem_of_nil & _)].
  - rewrite IH. unfold join_later. rewrite nodes_fold_join. split.
    + intros [[?|(v & ? & ?)]|(x & v & ? & ?)]; [by left| |].
      * right. exists y, v. split; [by left|done].
      * right. exists x, v. split; [by right|done].
    + intros [?|(x & v & [->|?]%elem_of_cons & ?)]; [by left; left| |].
      * left. right. by exists v.
      * right. by exists x, v.
Qed.

Lemma elem_of_enumerate (vl : list Node) (x : nat * Node) :
  x ∈ enumerate vl ↔ vl !! x.1 = Some x.2.
Proof.
  unfold enumerate. rewrite elem_of_lookup_imap. split.
  - by intros (i & y & -> & Hy).
  - intros Hx. exists x.1, x.2. split; [by destruct x|done].
Qed.

Lemma elem_of_drop (vl : list Node) n v :
  v ∈ drop n vl ↔ ∃ j, n ≤ j ∧ vl !! j = Some v.
Proof.
  rewrite list_elem_of_lookup. split.
  - intros (k & Hk). rewrite lookup_drop in Hk. exists (n + k). split; [lia|done].
  - intros (j & Hj & Hv). exists (j - n). rewrite lookup_drop.
    by replace (n + (j - n)) with j by lia.
Qed.

Lemma edges_fold_forced t o L g a b :
  (a, b) ∈ edges (foldl (force_edges t o) g L) ↔
  (a, b) ∈ edges g ∨
  ∃ l, l ∈ L ∧ ((a = t ∧ b = l) ∨ (a = l ∧ b = t) ∨ (a = l ∧ b = o) ∨ (a = o ∧ b = l)).
Proof.
  revert g. induction L as [|l L IH]; intros g; simpl.
  - split; [by left|]. by intros [?|(l & ?%elem_of_nil & _)].
  - rewrite IH. unfold force_edges, Gr.add_edge. simpl.
    rewrite !elem_of_union. split.
    + intros [[[?|Hl]|Hl]|(l' & ? & ?)]; [by left| | |].
      * right. exists l. split; [by left|]. set_solver.
      * right. exists l. split; [by left|]. set_solver.
      * right. exists l'. split; [by right|done].
    + intros [?|(l' & [->|?]%elem_of_cons & Hl)]; [by left; left; left| |].
      * left. set_solver.
      * right. by exists l'.
Qed.

Lemma nodes_fold_forced t o L g x :
  x ∈ nodes (foldl (force_edges t o) g L) ↔
  x ∈ nodes g ∨ (L ≠ [] ∧ (x = t ∨ x = o)) ∨ x ∈ L.
Proof.
  revert g. induction L as [|l L IH]; intros g; simpl.
  - split; [by left|]. intros [?|[[? _]|?%elem_of_nil]]; done.
  - rewrite IH. unfold force_edges, Gr.add_edge. simpl.
    rewrite elem_of_cons. split.
    + intros [Hx|[[_ ?]|?]]; [|by right; left|by right; right; right].
      set_solver.
    + intros [?|[[_ [->| ->]]|[->|?]]]; [left|left|left|left|right; right]; set_solver.
Qed.

Lemma wf_fold_forced t o L g : wf g → wf (foldl (force_edges t o) g L).
Proof.
  revert g. induction L as [|l L IH]; intros g Hwf; simpl; [done|].
  apply IH. unfold force_edges. by do 2 apply wf_add_edge.
Qed.

Lemma undirected_fold_forced t o L g :
  undirected g → undirected (foldl (force_edges t o) g L).
Proof.
  revert g. induction L as [|l L IH]; intros g Hu; simpl; [done|].
  apply IH. unfold force_edges. by do 2 apply undirected_add_edge.
Qed.

Lemma wf_fold_join_later g0 I vl xs g : wf g → wf (foldl (join_later g0 I vl) g xs).
Proof.
  revert g. induction xs as [|x xs IH]; intros g Hwf; simpl; [done|].
  apply IH. unfold join_later. generalize (drop (x.1 + 1) vl). intros vs.
  revert g Hwf. induction vs as [|v vs IHv]; intros g Hwf; simpl; [done|].
  apply IHv. unfold join. destruct (joins _ _ _ _); [by apply wf_add_edge|done].
Qed.

Lemma undirected_fold_join_later g0 I vl xs g :
  undirected g → undirected (foldl (join_later g0 I vl) g xs).
Proof.
  revert g. induction xs as [|x xs IH]; intros g Hu; simpl; [done|].
  apply IH. unfold join_later. generalize (drop (x.1 + 1) vl). intros vs.
  revert g Hu. induction vs as [|v vs IHv]; intros g Hu; simpl; [done|].
  apply IHv. unfold join. destruct (joins _ _ _ _); [by apply undirected_add_edge|done].
Qed.

(** ** H1 *)

Lemma chain_snoc g u q v w :
  chain g u q → last (u :: q) = Some v → (v, w) ∈ edges g → chain g u (q ++ [w]).
Proof.
  revert u. induction q as [|x q IH]; intros u; simpl.
  - intros _ [= ->] He. done.
  - intros [He Hch] Hl Hvw. split; [done|]. apply IH; [done| |done].
    by destruct q.
Qed.

Lemma chain_reverse g u q t :
  undirected g → chain g u q → last (u :: q) = Some t →
  ∃ q', reverse (u :: q) = t :: q' ∧ chain g t q'.
Proof.
  intros Hu. revert u. induction q as [|v q IH]; intros u.
  - intros _ [= ->]. by exists [].
  - intros [He Hch] Hl.
    destruct (IH v Hch) as (q' & Hrev & Hch'); [by destruct q|].
    exists (q' ++ [u]). split.
    + rewrite (reverse_cons _ u), Hrev. done.
    + apply (chain_snoc _ _ _ v); [done| |by apply Hu].
      rewrite <- Hrev, last_reverse. done.
Qed.

Lemma simple_path_reverse g s t p :
  undirected g → simple_path g s t p → simple_path g t s (reverse p).
Proof.
  intros Hu (q & -> & Hq & Hch & Hnd & Hl).
  destruct (chain_reverse g s q t Hu Hch Hl) as (q' & Hrev & Hch').
  exists q'. split; [done|]. split.
  { intros ->. apply (f_equal length) in Hrev. rewrite length_reverse in Hrev.
    destruct q; [done|]. simpl in Hrev. lia. }
  split; [done|]. split; [by rewrite reverse_Permutation|].
  by rewrite last_reverse.
Qed.

Lemma simple_path_distinct g s t p : simple_path g s t p → s ≠ t.
Proof.
  intros (q & -> & Hq & _ & [Hs _]%NoDup_cons & Hl) ->. apply Hs.
  destruct q as [|v q]; [done|]. apply list_elem_of_lookup.
  exists (length q). change (last (v :: q) = Some t) in Hl.
  by rewrite last_lookup in Hl.
Qed.

Lemma linked_through_sym g0 I u v :
  undirected g0 → linked_through g0 I u v → linked_through g0 I v u.
Proof.
  intros Hu (p & Hp & Hsub). exists (reverse p). split; [by apply simple_path_reverse|].
  intros x Hx. apply elem_of_list_to_set in Hx. rewrite elem_of_reverse in Hx.
  assert (x ∈ I ∪ {[u; v]}) as Hx'.
  { apply Hsub. apply elem_of_list_to_set. exact Hx. }
  set_solver.
Qed.

Lemma linked_through_distinct g0 I u v : linked_through g0 I u v → u ≠ v.
Proof. intros (p & Hp & _). by eapply simple_path_distinct. Qed.

Lemma edge_linked_through g0 I u v :
  (u, v) ∈ edges g0 → u ≠ v → linked_through g0 I u v.
Proof.
  intros He Hne. exists [u; v]. split.
  - exists [v]. split; [done|]. split; [done|]. split; [by split|]. split; [|done].
    apply NoDup_cons. split; [by intros ?%list_elem_of_singleton|apply NoDup_singleton].
  - set_solver.
Qed.

Lemma joins_spec g0 I u v :
  wf g0 → u ∈ nodes g0 → v ∈ nodes g0 → u ≠ v →
  joins g0 I u v = true ↔ linked_through g0 I u v.
Proof.
  intros Hwf Hu Hv Hne. unfold joins, linked_through.
  destruct (all_simple_paths_spec g0 u v Hwf Hu Hv Hne) as (ps & -> & Hps).
  rewrite bool_decide_eq_true, List.Exists_exists. split.
  - intros (p & Hp%list_elem_of_In%Hps & ?). by exists p.
  - intros (p & Hp%Hps%list_elem_of_In & ?). by exists p.
Qed.

(** What the pair loop leaves in H1, started on the subgraph of [g0]
    induced by [K]. *)
Lemma edges_after_pairs g0 I (K : gset Node) a b :
  wf g0 → undirected g0 → K ⊆ nodes g0 →
  (a, b) ∈ edges (foldl (join_later g0 I (elements K)) (Gr.induced K g0)
                    (enumerate (elements K))) ↔
  a ∈ K ∧ b ∈ K ∧ ((a, b) ∈ edges g0 ∨ linked_through g0 I a b).
Proof.
  intros Hwf Hu HK. rewrite edges_fold_join_later, elem_of_edges_induced.
  assert (∀ i x, elements K !! i = Some x → x ∈ K) as Hel.
  { intros i x Hx. apply elem_of_elements, list_elem_of_lookup. by exists i. }
  split.
  - intros [(? & ? & ?)|([i u] & v & Hi%elem_of_enumerate & (j & Hij & Hj)%elem_of_drop
                          & Hjoin & Hab)]; [by auto|].
    simpl in *. pose proof (Hel _ _ Hi) as HuK. pose proof (Hel _ _ Hj) as HvK.
    assert (u ≠ v) as Hne.
    { intros ->. assert (i = j); [|lia].
      exact (NoDup_lookup _ i j v (NoDup_elements K) Hi Hj). }
    apply joins_spec in Hjoin; [|done|by apply HK|by apply HK|done].
    destruct Hab as [[-> ->]|[-> ->]]; (split; [done|]; split; [done|]; right);
      [done|by apply linked_through_sym].
  - intros (Ha & Hb & [He|Hl]); [by left|]. right.
    pose proof (linked_through_distinct _ _ _ _ Hl) as Hne.
    apply elem_of_elements, list_elem_of_lookup in Ha as (i & Hi).
    apply elem_of_elements, list_elem_of_lookup in Hb as (j & Hj).
    assert (i ≠ j) as Hij by (intros ->; congruence).
    destruct (decide (i < j)) as [Hlt|Hge].
    + exists (i, a), b. split; [by apply elem_of_enumerate|].
      split; [apply elem_of_drop; exists j; split; [simpl; lia|done]|].
      split; [|by left]. simpl.
      apply joins_spec; [done|apply HK; by eapply Hel|apply HK; by eapply Hel|done|done].
    + exists (j, b), a. split; [by apply elem_of_enumerate|].
      split; [apply elem_of_drop; exists i; split; [simpl; lia|done]|].
      split; [|by right]. simpl.
      apply joins_spec; [done|apply HK; by eapply Hel|apply HK; by eapply Hel|done|].
      by apply linked_through_sym.
Qed.

Lemma nodes_after_pairs g0 I (K : gset Node) :
  K ⊆ nodes g0 →
  nodes (foldl (join_later g0 I (elements K)) (Gr.induced K g0)
           (enumerate (elements K))) = K.
Proof.
  intros HK. apply set_eq. intros x. rewrite nodes_fold_join_later. simpl.
  assert (∀ i y, elements K !! i = Some y → y ∈ K) as Hel.
  { intros i y Hy. apply elem_of_elements, list_elem_of_lookup. by exists i. }
  split; [|set_solver].
  intros [?|([i u] & v & Hi%elem_of_enumerate & (j & _ & Hj)%elem_of_drop & _ & [->| ->])];
    [set_solver|by eapply Hel..].
Qed.

Lemma build_H1_char h self g t o L N H1 h' :
  deref h self = Some g → wf g →
  build_H1 self t o L N h = (Ret H1, h') →
  ∃ H0 h1 g0 I hpre g1,
    build_H0 self t o L h = (Ret H0, h1) ∧
    h1 !! H0 = Some (OGraph g0) ∧ wf g0 ∧ undirected g0 ∧
    ignore self t o L N h1 = (Ret I, h1) ∧
    h1 `prefix_of` hpre ∧ H1 = length hpre ∧ h' = hpre ++ [OGraph g1] ∧
    t ≠ o ∧ t ∈ nodes g0 ∖ I ∧ o ∈ nodes g0 ∖ I ∧
    g1 = foldl (force_edges t o)
           (foldl (join_later g0 I (elements (nodes g0 ∖ I)))
              (Gr.induced (nodes g0 ∖ I) g0)
              (enumerate (elements (nodes g0 ∖ I)))) L.
Proof.
  intros Hg Hwf Hrun.
  assert (t ≠ o) as Hne.
  { intros ->. apply build_H1_inv in Hrun as (hmid & I & _ & _ & _ & HI & _).
    by apply ignore_same_endpoints in HI. }
  unfold build_H1 in Hrun.
  apply bind_inv in Hrun as (H0 & h1 & HH0 & Hk).
  destruct (build_H0_char _ _ _ _ _ _ _ _ Hg Hwf Hne HH0)
    as (anc & gb & HA & Hchar & Hanc & HH0eq & Hh1 & Hnb & Hwfb & Heb).
  assert (wf (Gr.moral_graph gb)) as Hwf0 by (by apply wf_moral).
  assert (undirected (Gr.moral_graph gb)) as Hu0 by apply undirected_moral.
  assert (nodes (Gr.moral_graph gb) = anc) as Hn0 by (by rewrite nodes_moral).
  remember (Gr.moral_graph gb) as g0 eqn:Hg0def. clear Hg0def.
  set (hmid := (h ++ [OView self anc]) ++ [OGraph gb]) in *.
  assert (H0 = length hmid) as HH0len.
  { rewrite HH0eq. unfold hmid. rewrite !length_app. simpl. lia. }
  clear HH0eq.
  assert (t ∈ anc ∧ o ∈ anc) as [Htanc Hoanc].
  { split; apply Hchar; left; set_solver. }
  apply bind_inv in Hk as (I & h2 & HI & Hk).
  pose proof (stateless_inv _ _ _ _ (stateless_ignore _ _ _ _ _) HI) as ->.
  destruct (ignore_excludes _ _ _ _ _ _ _ _ HI) as [HtI HoI].
  assert (h1 !! H0 = Some (OGraph g0)) as Hcell.
  { rewrite Hh1, HH0len. apply lookup_last. }
  apply bind_inv in Hk as (H0c & h3 & (g0' & Hg0' & -> & ->)%copy_inv & Hk).
  rewrite (deref_graph _ _ _ Hcell) in Hg0'. injection Hg0' as <-.
  apply bind_inv in Hk as (H0nodes & h4 & (-> & g0' & Hg0' & ->)%nodes_of_inv & Hk).
  rewrite (deref_prefix h1 _ _ g0) in Hg0';
    [|by apply prefix_app_r|by apply deref_graph].
  injection Hg0' as <-.
  apply bind_inv in Hk as (H1v & h5 & (? & _ & -> & ->)%subgraph_inv & Hk).
  apply bind_inv in Hk as (H1' & h6 & (ginit & Hginit & -> & ->)%copy_inv & Hk).
  rewrite (deref_view (h1 ++ [OGraph g0]) _ _ (length h1) (nodes g0 ∖ I) g0) in Hginit;
    [|by apply prefix_app_r|by apply deref_last|done|by apply lookup_last].
  injection Hginit as <-.
  set (K := nodes g0 ∖ I) in *.
  set (hpre := (h1 ++ [OGraph g0]) ++ [OView (length h1) K]) in *.
  apply bind_inv in Hk as (H1nodes & h7 & Hnod & Hk).
  apply nodes_of_inv in Hnod as (-> & gi & Hgi & ->).
  rewrite deref_last in Hgi. injection Hgi as <-.
  assert (nodes (Gr.induced K g0) = K) as HnK by (simpl; unfold K; set_solver).
  rewrite HnK in Hk.
  assert (deref hpre H0 = Some g0) as HdH0.
  { apply (deref_prefix h1); [|by apply deref_graph].
    unfold hpre. by do 2 apply prefix_app_r. }
  apply bind_inv in Hk as ([] & h8 & Hloop1 & Hk).
  apply bind_inv in Hk as ([] & h9 & Hloop2 & Hret). injection Hret as <- <-.
  assert (∀ x, x ∈ enumerate (elements K) → x.2 ∈ nodes g0) as Hxs.
  { intros y Hy%elem_of_enumerate.
    assert (y.2 ∈ K) by (apply elem_of_elements, list_elem_of_lookup; eauto).
    unfold K in *. set_solver. }
  pose proof (eq_trans (eq_sym (H1_pairs_loop hpre H0 g0 (Gr.induced K g0) I
                                  (elements K) (enumerate (elements K)) HdH0 Hxs))
                       Hloop1) as Heq1.
  injection Heq1 as <-.
  pose proof (eq_trans (eq_sym (H1_forced_loop hpre _ t o L)) Hloop2) as Heq2.
  injection Heq2 as <-.
  exists H0, h1, g0, I, hpre. eexists.
  split; [done|]. split; [done|]. split; [done|]. split; [done|].
  split; [done|]. split; [unfold hpre; by do 2 apply prefix_app_r|].
  split; [done|]. split; [done|]. split; [done|].
  split; [unfold K; rewrite Hn0; set_solver|].
  split; [unfold K; rewrite Hn0; set_solver|]. done.
Qed.

Lemma H1_graph_props g0 I t o L :
  wf g0 → undirected g0 → t ∈ nodes g0 ∖ I → o ∈ nodes g0 ∖ I →
  let K := nodes g0 ∖ I in
  let g1 := foldl (force_edges t o)
              (foldl (join_later g0 I (elements K)) (Gr.induced K g0)
                 (enumerate (elements K))) L in
  wf g1 ∧ undirected g1 ∧ nodes g1 = K ∪ list_to_set L ∧
  ∀ u v, (u, v) ∈ edges g1 ↔
         (u ∈ K ∧ v ∈ K ∧ ((u, v) ∈ edges g0 ∨ linked_through g0 I u v)) ∨
         (u = t ∧ v ∈ L) ∨ (u ∈ L ∧ v = t) ∨ (u ∈ L ∧ v = o) ∨ (u = o ∧ v ∈ L).
Proof.
  intros Hwf Hu Ht Ho K g1.
  assert (K ⊆ nodes g0) as HK by (unfold K; set_solver).
  split; [|split; [|split]].
  - apply wf_fold_forced, wf_fold_join_later. by apply wf_induced_of_wf.
  - apply undirected_fold_forced, undirected_fold_join_later.
    by apply undirected_induced.
  - apply set_eq. intros x. unfold g1.
    rewrite nodes_fold_forced, (nodes_after_pairs g0 I K HK).
    rewrite elem_of_union, elem_of_list_to_set. split; [|tauto].
    intros [?|[[_ [->| ->]]|?]]; tauto.
  - intros u v. unfold g1.
    rewrite edges_fold_forced, (edges_after_pairs g0 I K u v Hwf Hu HK). split.
    + intros [?|(l & Hl & [[-> ->]|[[-> ->]|[[-> ->]|[-> ->]]]])]; tauto.
    + intros [?|[[-> ?]|[[? ->]|[[? ->]|[-> ?]]]]]; [by left|right..].
      * exists v. tauto.
      * exists u. tauto.
      * exists u. tauto.
      * exists v. tauto.
Qed.

(** X9.  For a well-formed receiver, when [build_H1] returns: H1 is a
    well-formed undirected graph whose nodes are the nodes of H0 outside the
    ignore set, and those of [L]; two of the kept nodes are adjacent in H1
    exactly when they are adjacent in H0 or joined in H0 by a simple path
    whose inner nodes are all ignored; and the only other edges are the
    forced ones, between every node of [L] and each of [treatment] and
    [outcome]. *)
Theorem build_H1_contracts_ignored_nodes h self g treatment outcome L N H1 h' :
  deref h self = Some g → wf g →
  build_H1 self treatment outcome L N h = (Ret H1, h') →
  ∃ H0 h0 g0 I g1,
    build_H0 self treatment outcome L h = (Ret H0, h0) ∧
    deref h0 H0 = Some g0 ∧
    ignore self treatment outcome L N h0 = (Ret I, h0) ∧
    deref h' H1 = Some g1 ∧
    wf g1 ∧ undirected g1 ∧
    nodes g1 = (nodes g0 ∖ I) ∪ list_to_set L ∧
    ∀ u v, (u, v) ∈ edges g1 ↔
           (u ∈ nodes g0 ∖ I ∧ v ∈ nodes g0 ∖ I ∧
            ((u, v) ∈ edges g0 ∨ linked_through g0 I u v)) ∨
           (u = treatment ∧ v ∈ L) ∨ (u ∈ L ∧ v = treatment) ∨
           (u ∈ L ∧ v = outcome) ∨ (u = outcome ∧ v ∈ L).
Proof.
  intros Hg Hwf Hrun.
  destruct (build_H1_char _ _ _ _ _ _ _ _ _ Hg Hwf Hrun)
    as (H0 & h0 & g0 & I & hpre & g1 & HH0 & Hcell & Hwf0 & Hu0 & HI & _ & -> & ->
        & _ & Ht & Ho & ->).
  destruct (H1_graph_props g0 I treatment outcome L Hwf0 Hu0 Ht Ho)
    as (Hwf1 & Hu1 & Hn1 & He1).
  eexists H0, h0, g0, I, _.
  split; [done|]. split; [by apply deref_graph|]. split; [done|].
  split; [apply deref_last|]. done.
Qed.

(** ** The searches *)

Lemma chars_single s : String.length s = 1 → chars s = [s].
Proof. destruct s as [|c [|c' s]]; simpl; [done|done|lia]. Qed.

Lemma unblocked_returns_subset h H g t Z U h' :
  deref h H = Some g → wf g → unblocked H t Z h = (Ret U, h') → U ⊆ Z.
Proof.
  intros Hg Hwf Hrun.
  assert (t ∈ nodes g ∧ t ∉ Z) as [Ht HtZ].
  { rewrite (unblocked_run _ _ g) in Hrun by done. cbv zeta in Hrun.
    unfold Gr.node_connected_component in Hrun. case_decide as Hin; [|done].
    simpl in Hin. set_solver. }
  destruct (unblocked_char h H g t Z Hg Hwf Ht HtZ) as (U' & HU' & _ & Hsub).
  rewrite Hrun in HU'. simpl in HU'. by injection HU' as ->.
Qed.

(** X10.  For a well-formed receiver and an [outcome] whose identifier is a
    single character, whenever [optimal_adj_set] returns a set and
    [optimal_minimal_adj_set] returns for the same query, the minimal set is
    a subset of the optimal set, and so is no larger. *)
Theorem optimal_minimal_within_optimal h self g treatment outcome L N Zopt Zmin h1 h2 :
  deref h self = Some g → wf g → String.length outcome = 1 →
  optimal_adj_set self treatment outcome L N h = (Ret (AdjSet Zopt), h1) →
  optimal_minimal_adj_set self treatment outcome L N h = (Ret Zmin, h2) →
  Zmin ⊆ Zopt ∧ size Zmin ≤ size Zopt.
Proof.
  intros Hg Hwf Hlen Hopt Hmin.
  cut (Zmin ⊆ Zopt); [intros Hsub; split; [done|by apply subseteq_size]|].
  unfold optimal_adj_set in Hopt. unfold optimal_minimal_adj_set in Hmin.
  apply bind_inv in Hopt as (H1 & hb & HH1 & Hopt).
  apply bind_inv in Hmin as (H1' & hb' & HH1' & Hmin).
  rewrite HH1 in HH1'. injection HH1' as <- <-.
  destruct (build_H1_char _ _ _ _ _ _ _ _ _ Hg Hwf HH1)
    as (H0 & h0 & g0 & I & hpre & g1 & _ & _ & Hwf0 & Hu0 & _ & _ & -> & ->
        & _ & Ht & Ho & Hg1).
  destruct (H1_graph_props g0 I treatment outcome L Hwf0 Hu0 Ht Ho) as (Hwf1 & _).
  cbv zeta in Hwf1. rewrite <- Hg1 in Hwf1. clear Hg1.
  assert (Zopt = Gr.node_boundary g1 {[outcome]}) as ->.
  { apply bind_inv in Hopt as (eq & hc & Heq & Hopt).
    apply stateless_inv in Heq as ->; [|auto with stateless].
    apply bind_inv in Hopt as (cond & hd & Hcond & Hopt).
    apply stateless_inv in Hcond as ->.
    2:{ destruct eq; stateless_steps. }
    destruct cond; [|done].
    apply bind_inv in Hopt as (Z & he & HZ & Hret). injection Hret as <- _.
    unfold nx.node_boundary in HZ.
    apply bind_inv in HZ as (g1' & hf & [-> Hg1']%read_inv & Hret).
    rewrite deref_last in Hg1'. injection Hg1' as <-. injection Hret as <- _.
    rewrite chars_single by done. f_equal. simpl. by rewrite (right_id_L ∅ (∪)). }
  apply bind_inv in Hmin as (Z & hc & HZ & Hmin).
  unfold nx.node_boundary in HZ.
  apply bind_inv in HZ as (g1' & hf & [-> Hg1']%read_inv & Hret).
  rewrite deref_last in Hg1'. injection Hg1' as <-. injection Hret as <- <-.
  eapply (unblocked_returns_subset _ _ g1); [apply deref_last|done|exact Hmin].
Qed.

Lemma bfs_spec g s x :
  wf g → s ∈ nodes g → x ∈ Gr.bfs g (Gr.succs g) s ↔ rtc (edge g) s x.
Proof.
  intros Hwf Hs. rewrite <- rtc_succs_edge. unfold Gr.bfs. split.
  - by intros (y & ->%elem_of_singleton & Hr)%grow_sound.
  - by apply grow_complete; [apply closed_succs_nodes|].
Qed.

Lemma minimum_path_loop H1 t o (path : list Node) (acc : gset Node) h acc' h' :
  for_loop path acc (λ optimal_minimum node,
    if decide (node = o) then mret (Continue optimal_minimum)
    else
      b ← isInMinimum H1 t o node;
      if b : bool then mret (Break (optimal_minimum ∪ {[node]}))
      else mret (Continue optimal_minimum)) h = (Ret acc', h') →
  acc' = acc ∨ ∃ z, z ∈ path ∧ z ≠ o ∧ acc' = acc ∪ {[z]}.
Proof.
  revert h. induction path as [|n path IH]; intros h.
  - intros [= <- _]. by left.
  - rewrite for_loop_cons. intros (r & h1 & Hbody & Hk)%bind_inv.
    destruct (decide (n = o)) as [->|Hn].
    + injection Hbody as <- <-. apply IH in Hk as [?|(z & ? & ? & ?)]; [by left|].
      right. exists z. split; [by right|done].
    + apply bind_inv in Hbody as ([] & h2 & _ & Hret).
      * injection Hret as <- <-. injection Hk as <- _. right. exists n.
        split; [by left|done].
      * injection Hret as <- <-. apply IH in Hk as [?|(z & ? & ? & ?)]; [by left|].
        right. exists z. split; [by right|done].
Qed.

Lemma minimum_paths_loop H1 t o (paths : list (list Node)) (acc : gset Node) h acc' h' :
  for_loop paths acc (λ optimal_minimum path,
    optimal_minimum ← for_loop path optimal_minimum (λ optimal_minimum node,
      if decide (node = o) then mret (Continue optimal_minimum)
      else
        b ← isInMinimum H1 t o node;
        if b : bool then mret (Break (optimal_minimum ∪ {[node]}))
        else mret (Continue optimal_minimum));
    mret (Continue optimal_minimum)) h = (Ret acc', h') →
  size acc' ≤ size acc + length paths ∧
  ∀ z, z ∈ acc' → z ∈ acc ∨ (z ≠ o ∧ ∃ p, p ∈ paths ∧ z ∈ p).
Proof.
  revert acc h. induction paths as [|p paths IH]; intros acc h.
  - intros [= <- _]. split; [simpl; lia|by left].
  - rewrite for_loop_cons. intros (r & h1 & Hbody & Hk)%bind_inv.
    apply bind_inv in Hbody as (acc1 & h2 & Hin & Hret). injection Hret as <- <-.
    apply minimum_path_loop in Hin. apply IH in Hk as [Hsz Hel].
    assert (size acc1 ≤ size acc + 1) as Hsz1.
    { clear Hsz Hel. destruct Hin as [->|(z & _ & _ & ->)]; [lia|].
      rewrite size_union_alt.
      assert (size (({[z]} : gset Node) ∖ acc) ≤ size ({[z]} : gset Node)) as Hle
        by (apply subseteq_size; set_solver).
      rewrite size_singleton in Hle. lia. }
    split; [simpl; lia|]. intros z [Hz|(Hzo & q & Hq & Hzq)]%Hel.
    + destruct Hin as [->|(z' & Hz' & Hzo' & ->)]; [by left|].
      apply elem_of_union in Hz as [?|Hzz]; [by left|].
      apply elem_of_singleton in Hzz as ->.
      right. split; [done|]. exists p. split; [by left|done].
    + right. split; [done|]. exists q. split; [by right|done].
Qed.

(** X11.  For a well-formed receiver, whenever [optimal_minimum_adj_set]
    returns: it is the empty set when H1 has no path from [treatment] to
    [outcome]; otherwise networkx was asked for node-disjoint paths from
    [outcome] to [treatment] in H1, and the result holds at most one node from
    each path it yielded, never [outcome]. *)
Theorem optimal_minimum_takes_one_node_per_path ndp h self g treatment outcome L N Z h' :
  deref h self = Some g → wf g →
  optimal_minimum_adj_set ndp self treatment outcome L N h = (Ret Z, h') →
  ∃ H1 hb g1,
    build_H1 self treatment outcome L N h = (Ret H1, hb) ∧ deref hb H1 = Some g1 ∧
    (¬ rtc (edge g1) treatment outcome → Z = ∅) ∧
    (rtc (edge g1) treatment outcome →
     ∃ paths, ndp g1 outcome treatment = Some paths ∧ size Z ≤ length paths ∧
              ∀ z, z ∈ Z → z ≠ outcome ∧ ∃ p, p ∈ paths ∧ z ∈ p).
Proof.
  intros Hg Hwf Hrun. unfold optimal_minimum_adj_set in Hrun.
  apply bind_inv in Hrun as (H1 & hb & HH1 & Hrun).
  destruct (build_H1_char _ _ _ _ _ _ _ _ _ Hg Hwf HH1)
    as (H0 & h0 & g0 & I & hpre & g1 & _ & _ & Hwf0 & Hu0 & _ & _ & -> & ->
        & _ & Ht & Ho & Hg1).
  destruct (H1_graph_props g0 I treatment outcome L Hwf0 Hu0 Ht Ho) as (Hwf1 & _ & Hn1 & _).
  cbv zeta in Hwf1, Hn1. rewrite <- Hg1 in Hwf1, Hn1. clear Hg1.
  assert (treatment ∈ nodes g1) as Ht1 by (rewrite Hn1; set_solver).
  exists (length hpre), (hpre ++ [OGraph g1]), g1.
  split; [done|]. split; [apply deref_last|].
  apply bind_inv in Hrun as (comp & hc & Hcomp & Hrun).
  unfold nx.node_connected_component in Hcomp.
  apply bind_inv in Hcomp as (g1' & hf & [-> Hg1']%read_inv & Hret).
  rewrite deref_last in Hg1'. injection Hg1' as <-.
  unfold lift, Gr.node_connected_component in Hret.
  rewrite decide_True in Hret by done. injection Hret as <- <-.
  destruct (decide (outcome ∉ Gr.bfs g1 (Gr.succs g1) treatment)) as [Hsep|Hcon].
  - injection Hrun as <- _. split; [done|].
    intros Hr. exfalso. apply Hsep. by apply bfs_spec.
  - split; [intros Hno; exfalso; apply Hcon; intros Hin; by apply Hno, bfs_spec|].
    intros _. apply bind_inv in Hrun as (paths & hd & Hp & Hrun).
    unfold nx_node_disjoint_paths in Hp.
    apply bind_inv in Hp as (g1' & hf & [-> Hg1']%read_inv & Hp).
    rewrite deref_last in Hg1'. injection Hg1' as <-.
    case_decide; [|done].
    destruct (ndp g1 outcome treatment) as [paths'|] eqn:Hndp; [|done].
    injection Hp as <- <-. exists paths'. split; [done|].
    apply minimum_paths_loop in Hrun as [Hsz Hel]. split.
    + by rewrite size_empty in Hsz.
    + intros z [?%elem_of_empty|?]%Hel; done.
Qed.

(** ** More on [ancestors_all] *)

(** X12.  Given a node that is not in the graph, [ancestors_all] ends in
    networkx's [NetworkXError], with the store unchanged. *)
Theorem ancestors_all_missing_node_raises h self g ns n :
  deref h self = Some g → n ∈ ns → n ∉ nodes g →
  ancestors_all self ns h = (Raise NetworkXError, h).
Proof.
  intros Hg Hn Hnot. unfold ancestors_all. rewrite bind_run.
  assert (∀ acc : gset Node,
    for_loop ns acc (λ ancestors node,
      ancestors_node ← nx.ancestors self node;
      mret (Continue (ancestors ∪ ancestors_node))) h = (Raise NetworkXError, h)) as ->;
    [|done].
  induction ns as [|n0 ns IH]; intros acc; [by apply elem_of_nil in Hn|].
  rewrite for_loop_cons, !bind_run, (nx_ancestors_run _ _ g) by done.
  unfold Gr.ancestors. destruct (decide (n0 ∈ nodes g)) as [Hin|Hout]; [|done].
  apply IH. apply elem_of_cons in Hn as [->|?]; done.
Qed.

(** X13.  What [ancestors_all] returns for nodes of a well-formed graph is
    closed under taking ancestors, and [ancestors_all] of it is itself. *)
Theorem ancestors_all_idempotent h self g ns :
  deref h self = Some g → wf g → (∀ n, n ∈ ns → n ∈ nodes g) →
  ∃ A, ancestors_all self ns h = (Ret A, h) ∧
       (∀ x y, y ∈ A → rtc (edge g) x y → x ∈ A) ∧
       ancestors_all self (elements A) h = (Ret A, h).
Proof.
  intros Hg Hwf Hns.
  destruct (ancestors_all_char h self g ns Hg Hwf Hns) as (A & HA & HAm).
  assert (∀ x y, y ∈ A → rtc (edge g) x y → x ∈ A) as Hcl.
  { intros x y Hy Hr. destruct (decide (x = y)) as [->|Hxy]; [done|].
    apply HAm. destruct (decide (x ∈ ns)) as [|Hx]; [by left|]. right.
    apply HAm in Hy as [Hy|(n & Hn & Hyn & Hyr)].
    - by exists y.
    - exists n. split; [done|]. split; [by intros ->|by etrans]. }
  assert (A ⊆ nodes g) as HAn.
  { intros m [Hm|(n & Hn & Hmn & Hr)]%HAm; [by apply Hns|].
    by eapply rtc_edge_source_node. }
  exists A. split; [done|]. split; [done|].
  destruct (ancestors_all_char h self g (elements A) Hg Hwf) as (A' & HA' & HAm').
  { intros n Hn%elem_of_elements. by apply HAn. }
  rewrite HA'. f_equal. f_equal. apply set_eq. intros m. rewrite HAm'. split.
  - intros [Hm%elem_of_elements|(n & Hn%elem_of_elements & _ & Hr)]; [done|].
    by eapply Hcl.
  - intros Hm. left. by apply elem_of_elements.
Qed.

(** ** [forbidden] *)

Lemma nx_descendants_run h self g n :
  deref h self = Some g → nx.descendants self n h = (Gr.descendants g n, h).
Proof. intros Hg. unfold nx.descendants. by rewrite bind_run, (read_run _ _ g). Qed.

Lemma forbidden_loop h self g (vs : list Node) (acc : gset Node) :
  deref h self = Some g → wf g → (∀ v, v ∈ vs → v ∈ nodes g) →
  ∃ F, for_loop vs acc (λ forbidden node,
         desc ← nx.descendants self node;
         mret (Continue (forbidden ∪ (desc ∪ list_to_set (chars node))))) h = (Ret F, h) ∧
       ∀ m, m ∈ F ↔
            m ∈ acc ∨ ∃ v, v ∈ vs ∧ (m ≠ v ∧ rtc (edge g) v m ∨ m ∈ chars v).
Proof.
  intros Hg Hwf. revert acc. induction vs as [|v vs IH]; intros acc Hvs.
  - exists acc. split; [done|]. intros m. split; [by left|].
    intros [?|(v & []%elem_of_nil & _)]. done.
  - destruct (descendants_spec g v Hwf) as (D & HD & HDm); [apply Hvs; by left|].
    destruct (IH (acc ∪ (D ∪ list_to_set (chars v)))) as (F & HF & HFm).
    { intros w Hw. apply Hvs. by right. }
    exists F. split.
    + rewrite for_loop_cons, !bind_run, (nx_descendants_run _ _ g), HD by done. exact HF.
    + intros m. rewrite HFm, !elem_of_union, HDm, elem_of_list_to_set. split.
      * intros [[?|[?|?]]|(w & Hw & Hm)].
        -- by left.
        -- right. exists v. split; [by left|by left].
        -- right. exists v. split; [by left|by right].
        -- right. exists w. split; [by right|done].
      * intros [?|(w & [->|Hw]%elem_of_cons & Hm)].
        -- left. by left.
        -- left. right. tauto.
        -- right. by exists w.
Qed.

Lemma forbidden_char h self g treatment outcome :
  deref h self = Some g → wf g →
  treatment ∈ nodes g → outcome ∈ nodes g → treatment ≠ outcome →
  (∃ p, simple_path g treatment outcome p) →
  ∃ F, forbidden self treatment outcome h = (Ret F, h) ∧
       ∀ m, m ∈ F ↔
            m ∈ chars treatment ∨
            ∃ v, (v ≠ treatment ∧ ∃ p, simple_path g treatment outcome p ∧ v ∈ p) ∧
                 (m ≠ v ∧ rtc (edge g) v m ∨ m ∈ chars v).
Proof.
  intros Hg Hwf Ht Ho Hto Hp.
  destruct (causal_vertices_char h self g treatment outcome Hg Hwf Ht Ho Hto Hp)
    as (V & HV & HVm & _).
  destruct (forbidden_loop h self g (elements V) ∅ Hg Hwf) as (F & HF & HFm).
  { intros v [_ (p & Hsp & Hv)]%elem_of_elements%HVm.
    destruct Hsp as (q & -> & _ & Hch & _).
    apply elem_of_cons in Hv as [->|Hv]; [done|]. by eapply chain_nodes. }
  exists (F ∪ list_to_set (chars treatment)). split.
  - unfold forbidden. by rewrite bind_run, HV, bind_run, HF.
  - intros m. rewrite elem_of_union, elem_of_list_to_set, HFm. split.
    + intros [[[]%elem_of_empty|(v & Hv%elem_of_elements%HVm & Hm)]|?]; [|by left].
      right. by exists v.
    + intros [?|(v & Hv & Hm)]; [by right|]. left. right. exists v.
      split; [by apply elem_of_elements, HVm|done].
Qed.

(** X14.  Between two distinct nodes of a well-formed graph joined by a
    directed path, [forbidden] returns, on an unchanged store: the characters
    of [treatment]; and for every node other than [treatment] on a simple
    directed path from [treatment] to [outcome], its characters and its
    strict descendants. *)
Theorem forbidden_is_characters_and_descendants h self g treatment outcome :
  deref h self = Some g → wf g →
  treatment ∈ nodes g → outcome ∈ nodes g → treatment ≠ outcome →
  (∃ p, simple_path g treatment outcome p) →
  ∃ F, forbidden self treatment outcome h = (Ret F, h) ∧
       ∀ m, m ∈ F ↔
            m ∈ chars treatment ∨
            ∃ v, (v ≠ treatment ∧ ∃ p, simple_path g treatment outcome p ∧ v ∈ p) ∧
                 (m ≠ v ∧ rtc (edge g) v m ∨ m ∈ chars v).
Proof. apply forbidden_char. Qed.

(** X15.  When every node of the graph is named by a single character,
    [forbidden] is what its documentation says: [treatment] together with
    the nodes on the causal paths and all their descendants. *)
Theorem forbidden_of_single_character_names h self g treatment outcome :
  deref h self = Some g → wf g →
  (∀ v, v ∈ nodes g → String.length v = 1) →
  treatment ∈ nodes g → outcome ∈ nodes g → treatment ≠ outcome →
  (∃ p, simple_path g treatment outcome p) →
  ∃ F, forbidden self treatment outcome h = (Ret F, h) ∧
       ∀ m, m ∈ F ↔
            m = treatment ∨
            ∃ v, v ≠ treatment ∧ (∃ p, simple_path g treatment outcome p ∧ v ∈ p) ∧
                 rtc (edge g) v m.
Proof.
  intros Hg Hwf Hone Ht Ho Hto Hp.
  destruct (forbidden_char h self g treatment outcome Hg Hwf Ht Ho Hto Hp)
    as (F & HF & HFm).
  exists F. split; [done|]. intros m. rewrite HFm.
  rewrite (chars_single treatment) by by apply Hone.
  rewrite list_elem_of_singleton.
  assert (∀ v, (∃ p, simple_path g treatment outcome p ∧ v ∈ p) → chars v = [v]) as Hv.
  { intros v (p & (q & -> & _ & Hch & _) & Hin). apply chars_single, Hone.
    apply elem_of_cons in Hin as [->|Hin]; [done|]. by eapply chain_nodes. }
  split.
  - intros [?|(v & [Hvt Hvp] & Hm)]; [by left|]. right. exists v.
    split; [done|]. split; [done|].
    destruct Hm as [[_ ?]|Hm]; [done|].
    rewrite (Hv v Hvp) in Hm. apply list_elem_of_singleton in Hm as ->. done.
  - intros [?|(v & Hvt & Hvp & Hr)]; [by left|]. right. exists v.
    split; [done|]. destruct (decide (m = v)) as [->|Hmv].
    + right. rewrite (Hv v Hvp). by apply list_elem_of_singleton.
    + left. done.
Qed.

(** ** [optimal_adj_set] *)

Lemma ancestors_all_same_graph h h2 self g ns :
  deref h self = Some g → deref h2 self = Some g →
  (ancestors_all self ns h).1 = (ancestors_all self ns h2).1.
Proof.
  intros Hg Hg2. unfold ancestors_all. rewrite !bind_run.
  assert (∀ acc : gset Node, ∃ r,
    for_loop ns acc (λ ancestors node,
      ancestors_node ← nx.ancestors self node;
      mret (Continue (ancestors ∪ ancestors_node))) h = (r, h) ∧
    for_loop ns acc (λ ancestors node,
      ancestors_node ← nx.ancestors self node;
      mret (Continue (ancestors ∪ ancestors_node))) h2 = (r, h2)) as Hloop.
  { induction ns as [|n ns IH]; intros acc; [by exists (Ret acc)|].
    rewrite !for_loop_cons, !bind_run, !(nx_ancestors_run _ _ g) by done.
    destruct (Gr.ancestors g n) as [X|e]; [|by exists (Raise e)].
    apply IH. }
  destruct (Hloop ∅) as ([A|e] & -> & ->); done.
Qed.

(** X16.  Called with a list [N], whatever [optimal_adj_set] returns is
    decided by the check in its source: a set when every node of [N] is in
    [ancestors_all(L + [treatment, outcome])], and the message about the
    conditions otherwise. *)
Theorem optimal_adj_set_answers_by_ancestor_check h self g treatment outcome L Nl a h' :
  deref h self = Some g →
  optimal_adj_set self treatment outcome L (PyList Nl) h = (Ret a, h') →
  ∃ anc, ancestors_all self (L ++ [treatment; outcome]) h = (Ret anc, h) ∧
    ((list_to_set Nl ⊆ anc ∧ ∃ Z, a = AdjSet Z) ∨
     (¬ list_to_set Nl ⊆ anc ∧
      a = Message "Conditions to guarantee the existence of an optimal adjustment set are not satisfied")).
Proof.
  intros Hg Hrun. unfold optimal_adj_set in Hrun.
  apply bind_inv in Hrun as (H1 & hb & HH1 & Hrun).
  assert (h `prefix_of` hb) as Hpre.
  { apply build_H1_inv in HH1 as (_ & _ & hpre & g1 & _ & _ & Hp & _ & -> & _).
    by apply prefix_app_r. }
  apply bind_inv in Hrun as (eq & he & Heq & Hrun). injection Heq as <- <-.
  apply bind_inv in Hrun as (cond & hc & Hcond & Hrun).
  apply bind_inv in Hcond as (Ns & hn & HNs & Hcond). injection HNs as <- <-.
  apply bind_inv in Hcond as (anc & ha & Hanc & Hcond). injection Hcond as <- <-.
  pose proof (ancestors_all_same_graph h hb self g (L ++ [treatment; outcome]) Hg
                (deref_prefix _ _ _ _ Hpre Hg)) as Hsame.
  rewrite Hanc in Hsame. simpl in Hsame.
  exists anc. split.
  { pose proof (stateless_ancestors_all self (L ++ [treatment; outcome]) h) as Hst.
    destruct (ancestors_all self (L ++ [treatment; outcome]) h) as [r hx].
    simpl in *. by subst. }
  destruct (bool_decide (list_to_set Nl ⊆ anc)) eqn:Hb.
  - apply bool_decide_eq_true in Hb. left. split; [done|].
    apply bind_inv in Hrun as (Z & hz & _ & Hret). injection Hret as <- _. by exists Z.
  - apply bool_decide_eq_false in Hb. right. split; [done|]. by injection Hrun as <- _.
Qed.

(** ** The further theorems at concrete inputs *)

Section further_examples.
Local Open Scope string_scope.

Lemma confounded_wf : wf confounded.
Proof. apply wfb_wf. vm_compute. reflexivity. Qed.

Lemma confounded_direct_path : ∃ p, simple_path confounded "A" "Y" p.
Proof. exists ["A"; "Y"]. apply simple_pathb_simple_path. vm_compute. reflexivity. Qed.

Lemma confounded_A : "A" ∈ nodes confounded.
Proof. apply (bool_decide_unpack _). vm_compute. exact I. Qed.

Lemma confounded_Y : "Y" ∈ nodes confounded.
Proof. apply (bool_decide_unpack _). vm_compute. exact I. Qed.

Lemma causal_vertices_on_confounded :
∃ V, causal_vertices 0 "A" "Y" [OGraph confounded] = (Ret V, [OGraph confounded]) ∧
     (∀ v, v ∈ V ↔ v ≠ "A" ∧ ∃ p, simple_path confounded "A" "Y" p ∧ v ∈ p) ∧
     "Y" ∈ V.
Proof.
apply (causal_vertices_are_nodes_on_simple_paths [OGraph confounded] 0 confounded "A" "Y").
- reflexivity.
- exact confounded_wf.
- exact confounded_A.
- exact confounded_Y.
- discriminate.
- exact confounded_direct_path.
Defined.

Lemma backdoor_graph_on_confounded :
let h := [OGraph confounded] in
∃ gb, 1 = length h ∧ (backdoor_graph 0 "A" "Y" h).2 = (h ++ [OGraph gb])%list ∧
      nodes gb = nodes confounded ∧
      (∀ u v, (u, v) ∈ edges gb ↔
              (u, v) ∈ edges confounded ∧
              ¬ (u = "A" ∧ ∃ p, simple_path confounded "A" "Y" p ∧ second p = Some v)) ∧
      ¬ ∃ p, simple_path gb "A" "Y" p.
Proof.
apply (backdoor_graph_cuts_causal_paths [OGraph confounded] 0 confounded "A" "Y" 1).
- reflexivity.
- exact confounded_wf.
- exact confounded_A.
- exact confounded_Y.
- discriminate.
- vm_compute. reflexivity.
Defined.

Lemma backdoor_graph_on_forked_mediator :
(backdoor_graph 0 "A" "Y" [OGraph forked_mediator]).1 = Raise NetworkXError.
Proof.
apply (backdoor_graph_shared_first_edge_raises [OGraph forked_mediator] 0 forked_mediator
         "A" "Y" ["A"; "M"; "Y"] ["A"; "M"; "Z"; "Y"]).
- reflexivity.
- apply wfb_wf. vm_compute. reflexivity.
- apply (bool_decide_unpack _). vm_compute. exact I.
- apply (bool_decide_unpack _). vm_compute. exact I.
- discriminate.
- apply simple_pathb_simple_path. vm_compute. reflexivity.
- apply simple_pathb_simple_path. vm_compute. reflexivity.
- discriminate.
- reflexivity.
Defined.

Lemma no_effect_unreachable : ¬ rtc (edge no_effect) "A" "Y".
Proof.
intros Hr. apply bfs_spec in Hr.
- revert Hr. apply (bool_decide_unpack _). vm_compute. exact I.
- apply wfb_wf. vm_compute. reflexivity.
- apply (bool_decide_unpack _). vm_compute. exact I.
Qed.

Lemma searches_on_no_effect :
let h := [OGraph no_effect] in
let N := PyList ["C"; "A"; "Y"] in
(ignore 0 "A" "Y" [] N h).1 = Raise KeyError ∧
(build_H1 0 "A" "Y" [] N h).1 = Raise KeyError ∧
(optimal_adj_set 0 "A" "Y" [] N h).1 = Raise KeyError ∧
(optimal_minimal_adj_set 0 "A" "Y" [] N h).1 = Raise KeyError ∧
(optimal_minimum_adj_set paths_through_C 0 "A" "Y" [] N h).1 = Raise KeyError.
Proof.
apply (no_causal_path_ends_in_KeyError paths_through_C [OGraph no_effect] 0 no_effect
         "A" "Y" [] (PyList ["C"; "A"; "Y"])).
- reflexivity.
- exact I.
- intros n Hn. by apply elem_of_nil in Hn.
- apply (bool_decide_unpack _). vm_compute. exact I.
- apply (bool_decide_unpack _). vm_compute. exact I.
- exact no_effect_unreachable.
Defined.

Lemma path3_wf : wf path3.
Proof. apply wfb_wf. vm_compute. reflexivity. Qed.

Lemma unblocked_on_path3 :
∃ U, (unblocked 0 "A" {["M"]} [OGraph path3]).1 = Ret U ∧
     (∀ v, v ∈ U ↔
           v ∈ ({["M"]} : gset Node) ∧
           ∃ b, rtc (step_avoiding path3 {["M"]}) "A" b ∧ (b, v) ∈ edges path3) ∧
     U ⊆ {["M"]}.
Proof.
apply (unblocked_is_reachable_part_of_Z [OGraph path3] 0 path3 "A" {["M"]}).
- reflexivity.
- exact path3_wf.
- apply (bool_decide_unpack _). vm_compute. exact I.
- apply (bool_decide_unpack _). vm_compute. exact I.
Defined.

Lemma unblocked_of_blocked_treatment :
(unblocked 0 "A" {["A"]} [OGraph path3]).1 = Raise KeyError.
Proof.
apply (unblocked_treatment_removed_raises_KeyError [OGraph path3] 0 path3 "A" {["A"]}).
- reflexivity.
- left. apply (bool_decide_unpack _). vm_compute. exact I.
Defined.

Lemma build_H0_on_confounded :
let h := [OGraph confounded] in
let h' := (build_H0 0 "A" "Y" [] h).2 in
∃ anc g0,
  ancestors_all 0 ([] ++ ["A"; "Y"])%list h = (Ret anc, h) ∧
  (length h ≤ 3)%nat ∧ h' !! 3 = Some (OGraph g0) ∧
  nodes g0 = anc ∧ wf g0 ∧ undirected g0 ∧
  ∀ u v, (u, v) ∈ edges g0 ↔
         backdoor_edge confounded anc "A" "Y" u v ∨
         backdoor_edge confounded anc "A" "Y" v u ∨
         (u ≠ v ∧ ∃ c, backdoor_edge confounded anc "A" "Y" u c ∧
                       backdoor_edge confounded anc "A" "Y" v c).
Proof.
apply (build_H0_is_moral_ancestral_backdoor_graph [OGraph confounded] 0 confounded
         "A" "Y" [] 3).
- reflexivity.
- exact confounded_wf.
- discriminate.
- vm_compute. reflexivity.
Defined.

Lemma build_H1_graph_on_confounded :
let h := [OGraph confounded] in
let N := PyList ["C"; "A"; "Y"] in
let h' := (build_H1 0 "A" "Y" [] N h).2 in
∃ H0 h0 g0 I g1,
  build_H0 0 "A" "Y" [] h = (Ret H0, h0) ∧
  deref h0 H0 = Some g0 ∧
  ignore 0 "A" "Y" [] N h0 = (Ret I, h0) ∧
  deref h' 6 = Some g1 ∧
  wf g1 ∧ undirected g1 ∧
  nodes g1 = (nodes g0 ∖ I) ∪ list_to_set [] ∧
  ∀ u v, (u, v) ∈ edges g1 ↔
         (u ∈ nodes g0 ∖ I ∧ v ∈ nodes g0 ∖ I ∧
          ((u, v) ∈ edges g0 ∨ linked_through g0 I u v)) ∨
         (u = "A" ∧ v ∈ []) ∨ (u ∈ [] ∧ v = "A") ∨
         (u ∈ [] ∧ v = "Y") ∨ (u = "Y" ∧ v ∈ []).
Proof.
apply (build_H1_contracts_ignored_nodes [OGraph confounded] 0 confounded "A" "Y" []
         (PyList ["C"; "A"; "Y"]) 6).
- reflexivity.
- exact confounded_wf.
- vm_compute. reflexivity.
Defined.

Lemma optimal_minimal_within_optimal_on_confounded :
let h := [OGraph confounded] in
let N := PyList ["C"; "A"; "Y"] in
let h1 := (optimal_adj_set 0 "A" "Y" [] N h).2 in
let h2 := (optimal_minimal_adj_set 0 "A" "Y" [] N h).2 in
optimal_adj_set 0 "A" "Y" [] N h = (Ret (AdjSet {["C"]}), h1) ∧
optimal_minimal_adj_set 0 "A" "Y" [] N h = (Ret {["C"]}, h2) ∧
({["C"]} : gset Node) ⊆ {["C"]} ∧
(size ({["C"]} : gset Node) ≤ size ({["C"]} : gset Node))%nat.
Proof.
apply conj; [vm_compute; reflexivity|].
apply conj; [vm_compute; reflexivity|].
apply (optimal_minimal_within_optimal [OGraph confounded] 0 confounded "A" "Y" []
         (PyList ["C"; "A"; "Y"]) {["C"]} {["C"]}
         (optimal_adj_set 0 "A" "Y" [] (PyList ["C"; "A"; "Y"]) [OGraph confounded]).2
         (optimal_minimal_adj_set 0 "A" "Y" [] (PyList ["C"; "A"; "Y"]) [OGraph confounded]).2).
- reflexivity.
- exact confounded_wf.
- reflexivity.
- vm_compute. reflexivity.
- vm_compute. reflexivity.
Defined.

Lemma optimal_minimum_on_confounded :
let h := [OGraph confounded] in
let N := PyList ["C"; "A"; "Y"] in
let h' := (optimal_minimum_adj_set paths_through_C 0 "A" "Y" [] N h).2 in
optimal_minimum_adj_set paths_through_C 0 "A" "Y" [] N h = (Ret {["C"]}, h') ∧
∃ H1 hb g1,
  build_H1 0 "A" "Y" [] N h = (Ret H1, hb) ∧ deref hb H1 = Some g1 ∧
  (¬ rtc (edge g1) "A" "Y" → ({["C"]} : gset Node) = ∅) ∧
  (rtc (edge g1) "A" "Y" →
   ∃ paths, paths_through_C g1 "Y" "A" = Some paths ∧
            (size ({["C"]} : gset Node) ≤ length paths)%nat ∧
            ∀ z, z ∈ ({["C"]} : gset Node) → z ≠ "Y" ∧ ∃ p, p ∈ paths ∧ z ∈ p).
Proof.
apply conj; [vm_compute; reflexivity|].
apply (optimal_minimum_takes_one_node_per_path paths_through_C [OGraph confounded] 0
         confounded "A" "Y" [] (PyList ["C"; "A"; "Y"]) {["C"]}
         (optimal_minimum_adj_set paths_through_C 0 "A" "Y" []
            (PyList ["C"; "A"; "Y"]) [OGraph confounded]).2).
- reflexivity.
- exact confounded_wf.
- vm_compute. reflexivity.
Defined.

Lemma ancestors_all_of_unknown_node :
ancestors_all 0 ["A"; "Q"] [OGraph confounded] = (Raise NetworkXError, [OGraph confounded]).
Proof.
apply (ancestors_all_missing_node_raises [OGraph confounded] 0 confounded ["A"; "Q"] "Q").
- reflexivity.
- apply (bool_decide_unpack _). vm_compute. exact I.
- apply (bool_decide_unpack _). vm_compute. exact I.
Defined.

Lemma ancestors_all_twice_on_confounded :
let h := [OGraph confounded] in
∃ A, ancestors_all 0 ["A"] h = (Ret A, h) ∧
     (∀ x y, y ∈ A → rtc (edge confounded) x y → x ∈ A) ∧
     ancestors_all 0 (elements A) h = (Ret A, h).
Proof.
apply (ancestors_all_idempotent [OGraph confounded] 0 confounded ["A"]).
- reflexivity.
- exact confounded_wf.
- intros n Hn. apply list_elem_of_singleton in Hn as ->. exact confounded_A.
Defined.

Lemma forbidden_on_confounded :
let h := [OGraph confounded] in
∃ F, forbidden 0 "A" "Y" h = (Ret F, h) ∧
     ∀ m, m ∈ F ↔
          m ∈ chars "A" ∨
          ∃ v, (v ≠ "A" ∧ ∃ p, simple_path confounded "A" "Y" p ∧ v ∈ p) ∧
               (m ≠ v ∧ rtc (edge confounded) v m ∨ m ∈ chars v).
Proof.
apply (forbidden_is_characters_and_descendants [OGraph confounded] 0 confounded "A" "Y").
- reflexivity.
- exact confounded_wf.
- exact confounded_A.
- exact confounded_Y.
- discriminate.
- exact confounded_direct_path.
Defined.

Lemma confounded_descendant_single_characters :
∀ v, v ∈ nodes confounded_descendant → String.length v = 1.
Proof.
intros v Hv. unfold confounded_descendant, graph_of in Hv. simpl in Hv.
rewrite !elem_of_union, !elem_of_singleton in Hv.
destruct Hv as [->|[->|[->|[->|[]%elem_of_empty]]]]; reflexivity.
Qed.

Lemma forbidden_with_descendant :
let h := [OGraph confounded_descendant] in
∃ F, forbidden 0 "A" "Y" h = (Ret F, h) ∧
     ∀ m, m ∈ F ↔
          m = "A" ∨
          ∃ v, v ≠ "A" ∧ (∃ p, simple_path confounded_descendant "A" "Y" p ∧ v ∈ p) ∧
               rtc (edge confounded_descendant) v m.
Proof.
apply (forbidden_of_single_character_names [OGraph confounded_descendant] 0
         confounded_descendant "A" "Y").
- reflexivity.
- apply wfb_wf. vm_compute. reflexivity.
- exact confounded_descendant_single_characters.
- apply (bool_decide_unpack _). vm_compute. exact I.
- apply (bool_decide_unpack _). vm_compute. exact I.
- discriminate.
- exists ["A"; "Y"]. apply simple_pathb_simple_path. vm_compute. reflexivity.
Defined.

Lemma optimal_adj_set_answer_on_confounded :
let h := [OGraph confounded] in
let N := ["C"; "A"; "Y"] in
let a := match (optimal_adj_set 0 "A" "Y" [] (PyList N) h).1 with
         | Ret a => a
         | Raise _ => Message ""
         end in
∃ anc, ancestors_all 0 ([] ++ ["A"; "Y"])%list h = (Ret anc, h) ∧
  ((list_to_set N ⊆ anc ∧ ∃ Z, a = AdjSet Z) ∨
   (¬ list_to_set N ⊆ anc ∧
    a = Message "Conditions to guarantee the existence of an optimal adjustment set are not satisfied")).
Proof.
apply (optimal_adj_set_answers_by_ancestor_check [OGraph confounded] 0 confounded "A" "Y" []
         ["C"; "A"; "Y"] _
         (optimal_adj_set 0 "A" "Y" [] (PyList ["C"; "A"; "Y"]) [OGraph confounded]).2).
- reflexivity.
- vm_compute. reflexivity.
Defined.

End further_examples.
